(** * messageformat: placeholder parser and message resolution

    A shallow embedding of
    - [packages/mf2-messageformat/src/parser/placeholder.ts] (module [Parser]),
    - [packages/messageformat/src/format-message.ts] (module [Resolve]),
    - [packages/runtime/src/messages.ts] (module [Accessor]),
    - the collection of select arguments in the conversion from
      MessageFormat 1 (module [Mf1]),
    with the properties of the specification, and further properties of the
    code, proved about them. *)

From Stdlib Require Import String Ascii DecimalString DecimalNat DecimalFacts.
From stdpp Require Import base option list gmap strings.

Set Warnings "-register-all".

Local Open Scope string_scope.
Local Open Scope list_scope.
Local Open Scope nat_scope.

(** ** JavaScript string primitives *)

(** [src[pos]]: the character at an offset, [None] standing for [undefined]. *)
Definition charAt (src : string) (pos : nat) : option ascii := String.get pos src.

(** [src[pos] === c] *)
Definition char_is (src : string) (pos : nat) (c : ascii) : bool :=
  match charAt src pos with
  | Some d => Ascii.eqb d c
  | None => false
  end.

(** [src.substring(from, to)] for [from <= to]; both ends are clamped. *)
Definition js_substring (src : string) (from to : nat) : string :=
  String.substring from (to - from) src.

Module Parser.

(** *** Parsed nodes and errors ([data-model.ts] of the parser) *)

Inductive ParseError : Type :=
| MissingChar (char : ascii) (start : nat)
| ExtraContent (start end_ : nat)
| EmptyToken (start : nat)
| ParseErrorE (start end_ : nat).

Definition err_start (e : ParseError) : nat :=
  match e with
  | MissingChar _ s | ExtraContent s _ | EmptyToken s | ParseErrorE s _ => s
  end.

(** [junkError.end = pos] *)
Definition set_err_end (pos : nat) (e : ParseError) : ParseError :=
  match e with
  | ParseErrorE s _ => ParseErrorE s pos
  | ExtraContent s _ => ExtraContent s pos
  | _ => e
  end.

Definition is_missing_char (c : ascii) (e : ParseError) : bool :=
  match e with
  | MissingChar d _ => Ascii.eqb d c
  | _ => false
  end.

Definition is_any_missing_char (e : ParseError) : bool :=
  match e with
  | MissingChar _ _ => true
  | _ => false
  end.

Inductive ValueKind : Type := KLiteral | KVariable | KNmtoken.

(** [LiteralParsed | VariableRefParsed | NmtokenParsed]: the parser only
    reads [start] and [end] of these nodes. *)
Record ValueParsed : Type := mkValue {
  vkind : ValueKind;
  vstart : nat;
  vend : nat;
  vtext : string
}.

Record OptionParsed : Type := mkOption {
  ostart : nat;
  oend : nat;
  oname : string;
  ovalue : ValueParsed
}.

Inductive Body : Type :=
| BValue (v : ValueParsed)
| BExpression (operand : option ValueParsed) (start end_ : nat)
              (name : string) (options : list OptionParsed)
| BMarkupStart (start end_ : nat) (name : string) (options : list OptionParsed)
| BMarkupEnd (start end_ : nat) (name : string)
| BJunk (start end_ : nat) (source : string).

Definition body_end (b : Body) : nat :=
  match b with
  | BValue v => vend v
  | BExpression _ _ e _ _ | BMarkupStart _ e _ _ | BMarkupEnd _ e _
  | BJunk _ e _ => e
  end.

Definition body_operand (b : Body) : option ValueParsed :=
  match b with
  | BValue v => Some v
  | BExpression op _ _ _ _ => op
  | _ => None
  end.

Definition is_markup (b : Body) : bool :=
  match b with
  | BMarkupStart _ _ _ _ | BMarkupEnd _ _ _ => true
  | _ => false
  end.

Record PlaceholderParsed : Type := mkPlaceholder {
  pstart : nat;
  pend : nat;
  pbody : Body
}.

(** *** The lexical helpers

    [whitespaces] ([util.ts]), [parseNameValue], [parseNmtoken] ([names.ts]),
    [parseLiteral] and [parseVariable] ([values.ts]) are imported by
    [placeholder.ts]; the parser is written against them.  A helper that
    receives the shared [errors] array is taken to return the errors it
    pushes, which the caller appends. *)
Class Lexer : Type := {
  whitespaces : string -> nat -> nat;
  parseNameValue : string -> nat -> string;
  parseNmtoken : string -> nat -> ValueParsed * list ParseError;
  parseLiteral : string -> nat -> ValueParsed * list ParseError;
  parseVariable : string -> nat -> ValueParsed * list ParseError
}.

Section Placeholder.
Context {L : Lexer}.

(** [switch (src[pos])] of [parseOption]: the value of an option. *)
Definition parseOptionValue (src : string) (pos : nat)
  : ValueParsed * list ParseError :=
  if char_is src pos "(" then parseLiteral src pos
  else if char_is src pos "$" then parseVariable src pos
  else parseNmtoken src pos.

(** [parseOption(src, start, errors)] *)
Definition parseOption (src : string) (start : nat) (errors : list ParseError)
  : OptionParsed * list ParseError :=
  let name := parseNameValue src start in
  let pos := start + String.length name in
  let pos := pos + whitespaces src pos in
  let '(pos, errors) :=
    if char_is src pos "=" then (pos + 1, errors)
    else (pos, errors ++ [MissingChar "=" pos]) in
  let pos := pos + whitespaces src pos in
  let '(value, pushed) := parseOptionValue src pos in
  (mkOption start (vend value) name value, errors ++ pushed).

(** The [while (pos < src.length)] loop of [parseExpressionOrMarkup].  Each
    turn of the loop spends one unit of [fuel]; [None] is the loop still
    running when the fuel is gone. *)
Fixpoint parseOptions (fuel : nat) (src : string) (pos : nat)
    (errors : list ParseError) (options : list OptionParsed)
  : option (nat * list ParseError * list OptionParsed) :=
  if pos <? String.length src then
    match fuel with
    | 0 => None
    | S fuel' =>
      let ws := whitespaces src pos in
      if char_is src (pos + ws) "}" then Some (pos, errors, options)
      else
        let errors :=
          if ws =? 0 then errors ++ [MissingChar " " pos] else errors in
        let pos := pos + ws in
        let '(opt, errors) := parseOption src pos errors in
        if oend opt =? pos then Some (pos, errors, options)
        else parseOptions fuel' src (oend opt) errors (options ++ [opt])
    end
  else Some (pos, errors, options).

(** [parseExpressionOrMarkup(src, start, operand, errors)] *)
Definition parseExpressionOrMarkup (fuel : nat) (src : string) (start : nat)
    (operand : option ValueParsed) (errors : list ParseError)
  : option (Body * list ParseError) :=
  let pos := start + 1 in
  let name := parseNameValue src pos in
  let errors :=
    if String.eqb name "" then errors ++ [EmptyToken pos] else errors in
  let pos := pos + String.length name in
  match parseOptions fuel src pos errors [] with
  | None => None
  | Some (pos, errors, options) =>
    let end_ := pos in
    if char_is src start ":" then
      Some (BExpression operand start end_ name options, errors)
    else
      let errors :=
        match operand with
        | Some op => ExtraContent (vstart op) (vend op) :: errors
        | None => errors
        end in
      if char_is src start "+" then
        Some (BMarkupStart start end_ name options, errors)
      else
        let errors :=
          match options with
          | [] => errors
          | o :: _ =>
            errors ++ [ExtraContent (ostart o) (oend (List.last options o))]
          end in
        Some (BMarkupEnd start end_ name, errors)
  end.

(** What [errors.unshift] puts in front of the list: nothing for an
    expression, the span of the operand for markup that has one. *)
Definition unshifted (src : string) (sigil : nat) (operand : option ValueParsed)
  : list ParseError :=
  if char_is src sigil ":" then []
  else match operand with
       | Some op => [ExtraContent (vstart op) (vend op)]
       | None => []
       end.

(** The first [switch] of [parsePlaceholder]: the optional operand. *)
Definition parseOperand (src : string) (pos : nat) (errors : list ParseError)
  : option ValueParsed * nat * list ParseError :=
  if char_is src pos "(" then
    let '(arg, pushed) := parseLiteral src pos in
    (Some arg, vend arg, errors ++ pushed)
  else if char_is src pos "$" then
    let '(arg, pushed) := parseVariable src pos in
    (Some arg, vend arg, errors ++ pushed)
  else (None, pos, errors).

Definition is_sigil (src : string) (pos : nat) : bool :=
  char_is src pos ":" || char_is src pos "+" || char_is src pos "-".

(** [parsePlaceholder] up to and including the whitespace after the body:
    the body, the position reached, the errors so far and, for a junk body,
    the index in [errors] of the [junkError] object. *)
Definition parseBody (fuel : nat) (src : string) (start : nat)
    (errors : list ParseError)
  : option (Body * nat * list ParseError * option nat) :=
  let pos := start + 1 in
  let pos := pos + whitespaces src pos in
  let '(arg, pos, errors) := parseOperand src pos errors in
  let pos := pos + whitespaces src pos in
  let res :=
    if is_sigil src pos then
      match parseExpressionOrMarkup fuel src pos arg errors with
      | None => None
      | Some (body, errors) => Some (body, body_end body, errors, None)
      end
    else
      match arg with
      | Some a => Some (BValue a, pos, errors, None)
      | None =>
        let source := js_substring src pos (pos + 1) in
        Some (BJunk pos pos source, pos,
              errors ++ [ParseErrorE pos pos], Some (length errors))
      end in
  match res with
  | None => None
  | Some (body, pos, errors, junkError) =>
    Some (body, pos + whitespaces src pos, errors, junkError)
  end.

(** Where [parsePlaceholder] looks for the operand, the operand it finds
    there, and where it then looks for the [:], [+] or [-] of a tail. *)
Definition operandStart (src : string) (start : nat) : nat :=
  start + 1 + whitespaces src (start + 1).

Definition parsedOperand (src : string) (start : nat) : option ValueParsed :=
  (parseOperand src (operandStart src start) []).1.1.

Definition tailStart (src : string) (start : nat) : nat :=
  let pos := (parseOperand src (operandStart src start) []).1.2 in
  pos + whitespaces src pos.

(** [while (pos < src.length && src[pos] !== '}') pos += 1] *)
Fixpoint skipToClose (src : string) (pos : nat) (n : nat) : nat :=
  match n with
  | 0 => pos
  | S n' =>
    if (pos <? String.length src) && negb (char_is src pos "}")
    then skipToClose src (pos + 1) n'
    else pos
  end.

(** The closing-brace logic of [parsePlaceholder]. *)
Definition closePlaceholder (src : string) (start : nat)
    (st : Body * nat * list ParseError * option nat)
  : PlaceholderParsed * list ParseError :=
  let '(body, pos, errors, junkError) := st in
  if String.length src <=? pos then
    (mkPlaceholder start pos body, errors ++ [MissingChar "}" pos])
  else if negb (char_is src pos "}") then
    let errStart := pos in
    let pos := skipToClose src pos (String.length src - pos) in
    match body with
    | BJunk bstart _ _ =>
      let errors :=
        match junkError with
        | Some i => alter (set_err_end pos) i errors
        | None => errors
        end in
      (mkPlaceholder start pos (BJunk bstart pos (js_substring src bstart pos)),
       errors)
    | _ =>
      (mkPlaceholder start pos body, errors ++ [ExtraContent errStart pos])
    end
  else (mkPlaceholder start (pos + 1) body, errors).

(** [parsePlaceholder(src, start, errors)] *)
Definition parsePlaceholder (fuel : nat) (src : string) (start : nat)
    (errors : list ParseError)
  : option (PlaceholderParsed * list ParseError) :=
  match parseBody fuel src start errors with
  | None => None
  | Some st => Some (closePlaceholder src start st)
  end.

End Placeholder.

(** *** What the parser expects of its helpers *)

(** A helper called inside the source returns a token that starts at the
    offset it was given and ends inside the source. *)
Record LexerInBounds (L : Lexer) : Prop := {
  ws_in_bounds : forall src pos,
    pos <= String.length src -> pos + whitespaces src pos <= String.length src;
  name_in_bounds : forall src pos,
    pos <= String.length src ->
    pos + String.length (parseNameValue src pos) <= String.length src;
  nmtoken_in_bounds : forall src pos,
    pos <= String.length src ->
    pos <= vend (parseNmtoken src pos).1 <= String.length src;
  literal_in_bounds : forall src pos,
    pos < String.length src ->
    pos <= vend (parseLiteral src pos).1 <= String.length src;
  variable_in_bounds : forall src pos,
    pos < String.length src ->
    pos <= vend (parseVariable src pos).1 <= String.length src
}.

(** A helper reports its node as starting where it was called, and reports
    errors at or after that offset only. *)
Record LexerErrorsLocal (L : Lexer) : Prop := {
  nmtoken_errors_local : forall src pos,
    Forall (fun e => pos <= err_start e) (parseNmtoken src pos).2;
  literal_errors_local : forall src pos,
    vstart (parseLiteral src pos).1 = pos /\
    Forall (fun e => pos <= err_start e) (parseLiteral src pos).2;
  variable_errors_local : forall src pos,
    vstart (parseVariable src pos).1 = pos /\
    Forall (fun e => pos <= err_start e) (parseVariable src pos).2
}.

(** Whitespace is tab, line feed, carriage return and space. *)
Definition is_blank (c : ascii) : bool :=
  Ascii.eqb c "009" || Ascii.eqb c "010" || Ascii.eqb c "013" || Ascii.eqb c " ".

(** [whitespaces] counts the whitespace characters at an offset, all of them,
    and no name starts with a closing brace. *)
Record LexerTokens (L : Lexer) : Prop := {
  ws_blank : forall src pos i,
    i < whitespaces src pos ->
    exists c, charAt src (pos + i) = Some c /\ is_blank c = true;
  ws_stop : forall src pos c,
    charAt src (pos + whitespaces src pos) = Some c -> is_blank c = false;
  name_not_brace : forall src pos,
    char_is src pos "}" = true -> parseNameValue src pos = ""
}.

(** *** The grammar of placeholders

    [Placeholder ::= '{' Operand? (Annotation | MarkupTail)? '}'] with
    [Operand ::= Literal | VariableRef], [Annotation ::= ':' Name Option*],
    [MarkupTail ::= ('+' | '-') Name Option*] and
    [Option ::= Name '=' (Literal | Nmtoken | VariableRef)].  The terminals
    are the tokens the helpers recognise without reporting an error; every
    predicate relates the offset where a phrase starts to the offset where
    it ends. *)
Section Grammar.
Context {L : Lexer}.

Definition literal_at (src : string) (p q : nat) : Prop :=
  char_is src p "(" = true /\
  exists v, parseLiteral src p = (v, []) /\ vend v = q.

Definition variable_at (src : string) (p q : nat) : Prop :=
  char_is src p "$" = true /\
  exists v, parseVariable src p = (v, []) /\ vend v = q.

Definition nmtoken_at (src : string) (p q : nat) : Prop :=
  char_is src p "(" = false /\ char_is src p "$" = false /\
  exists v, parseNmtoken src p = (v, []) /\ vend v = q.

Definition operand_at (src : string) (p q : nat) : Prop :=
  literal_at src p q \/ variable_at src p q.

Definition name_at (src : string) (p q : nat) : Prop :=
  parseNameValue src p <> "" /\ q = p + String.length (parseNameValue src p).

(** [Name '=' value], whitespace allowed around the [=]. *)
Definition option_at (src : string) (p q : nat) : Prop :=
  exists p1, name_at src p p1 /\
    let pe := p1 + whitespaces src p1 in
    char_is src pe "=" = true /\
    let pv := pe + 1 + whitespaces src (pe + 1) in
    (operand_at src pv q \/ nmtoken_at src pv q).

(** [n] options, each after at least one whitespace character. *)
Inductive options_at (src : string) : nat -> nat -> nat -> Prop :=
| options_none p : options_at src p p 0
| options_more p q r n :
    0 < whitespaces src p ->
    option_at src (p + whitespaces src p) q ->
    options_at src q r n ->
    options_at src p r (S n).

Inductive Tail : Type :=
| NoTail
| AnnotationTail (options : nat)
| MarkupStartTail (options : nat)
| MarkupEndTail (options : nat).

Definition tail_at (src : string) (p q : nat) (t : Tail) : Prop :=
  match t with
  | NoTail => q = p
  | AnnotationTail n =>
    char_is src p ":" = true /\
    exists p1, name_at src (p + 1) p1 /\ options_at src p1 q n
  | MarkupStartTail n =>
    char_is src p "+" = true /\
    exists p1, name_at src (p + 1) p1 /\ options_at src p1 q n
  | MarkupEndTail n =>
    char_is src p "-" = true /\
    exists p1, name_at src (p + 1) p1 /\ options_at src p1 q n
  end.

(** The source from [start] to [end_] is a placeholder with or without an
    operand and with the given tail. *)
Definition conforms (src : string) (start end_ : nat)
    (operand : bool) (t : Tail) : Prop :=
  char_is src start "{" = true /\
  exists p2 q,
    (if operand then operand_at src (operandStart src start) p2
     else p2 = operandStart src start) /\
    tail_at src (p2 + whitespaces src p2) q t /\
    char_is src (q + whitespaces src q) "}" = true /\
    end_ = q + whitespaces src q + 1.

(** The placeholders of the grammar that the parser takes without an error:
    not the empty [{}], no operand in front of markup, no options on a
    markup end. *)
Definition accepted (operand : bool) (t : Tail) : bool :=
  match t with
  | NoTail => operand
  | AnnotationTail _ => true
  | MarkupStartTail _ => negb operand
  | MarkupEndTail n => negb operand && (n =? 0)
  end.

End Grammar.

(** The closing brace is the placeholder parser's own business: no helper
    reports a missing [}]. *)
Record LexerLeavesBrace (L : Lexer) : Prop := {
  nmtoken_leaves_brace : forall src pos,
    Forall (fun e => is_missing_char "}" e = false) (parseNmtoken src pos).2;
  literal_leaves_brace : forall src pos,
    Forall (fun e => is_missing_char "}" e = false) (parseLiteral src pos).2;
  variable_leaves_brace : forall src pos,
    Forall (fun e => is_missing_char "}" e = false) (parseVariable src pos).2
}.

(** The errors are in the order of their offsets, the earliest first. *)
Fixpoint earliest_first (errors : list ParseError) : bool :=
  match errors with
  | e :: rest =>
    match rest with
    | e' :: _ => (err_start e <=? err_start e') && earliest_first rest
    | [] => true
    end
  | [] => true
  end.

(** The number of [missing-char] errors for the character [c]. *)
Definition count_missing (c : ascii) (errors : list ParseError) : nat :=
  length (List.filter (is_missing_char c) errors).

End Parser.

(** ** A reference lexer

    An instance of the helpers after the specification's description of them
    and the grammar comments of [placeholder.ts]; it runs the parser on
    concrete inputs. *)
Module RefLexer.
Import Parser.

Definition in_range (lo hi : ascii) (c : ascii) : bool :=
  (nat_of_ascii lo <=? nat_of_ascii c) && (nat_of_ascii c <=? nat_of_ascii hi).

Definition is_name_start (c : ascii) : bool :=
  in_range "a" "z" c || in_range "A" "Z" c || Ascii.eqb c "_".

Definition is_name_char (c : ascii) : bool :=
  is_name_start c || in_range "0" "9" c || Ascii.eqb c "-" || Ascii.eqb c ".".

(** The source from an offset on. *)
Fixpoint skipn_str (n : nat) (s : string) : string :=
  match n, s with
  | 0, _ => s
  | S n', String _ s' => skipn_str n' s'
  | S _, EmptyString => EmptyString
  end.

(** The longest prefix whose characters all satisfy [p]. *)
Fixpoint take_while (p : ascii -> bool) (s : string) : string :=
  match s with
  | String c s' => if p c then String c (take_while p s') else EmptyString
  | EmptyString => EmptyString
  end.

(** Modelled from the spec: [whitespaces] of [util.ts], the
    "whitespace-skipping" helper; it counts the whitespace characters that
    start at [pos]. *)
Definition ref_whitespaces (src : string) (pos : nat) : nat :=
  String.length (take_while is_blank (skipn_str pos src)).

(** Modelled from the spec: [parseNameValue] of [names.ts], the "name-token
    recognition" helper; the name that starts at [pos], or the empty string. *)
Definition ref_parseNameValue (src : string) (pos : nat) : string :=
  match skipn_str pos src with
  | String c rest =>
    if is_name_start c then String c (take_while is_name_char rest)
    else EmptyString
  | EmptyString => EmptyString
  end.

(** Modelled from the spec: [parseNmtoken] of [names.ts]; a run of name
    characters, an [empty-token] error when there is none. *)
Definition ref_parseNmtoken (src : string) (pos : nat)
  : ValueParsed * list ParseError :=
  let value := take_while is_name_char (skipn_str pos src) in
  (mkValue KNmtoken pos (pos + String.length value) value,
   if String.eqb value "" then [EmptyToken pos] else []).

(** Modelled from the spec: [parseVariable] of [values.ts], the
    "variable-reference recognition" helper; [$] and a name. *)
Definition ref_parseVariable (src : string) (pos : nat)
  : ValueParsed * list ParseError :=
  let name := ref_parseNameValue src (pos + 1) in
  (mkValue KVariable pos (pos + 1 + String.length name) name,
   if String.eqb name "" then [EmptyToken (pos + 1)] else []).

(** Modelled from the spec: [parseLiteral] of [values.ts], the "literal
    recognition" helper; [(], text and [)], a [missing-char] error when the
    source ends first. *)
Definition ref_parseLiteral (src : string) (pos : nat)
  : ValueParsed * list ParseError :=
  let text := take_while (fun c => negb (Ascii.eqb c ")")) (skipn_str (pos + 1) src) in
  let close := pos + 1 + String.length text in
  if char_is src close ")" then (mkValue KLiteral pos (close + 1) text, [])
  else (mkValue KLiteral pos close text, [MissingChar ")" close]).

#[export] Instance ref_lexer : Lexer := {|
  whitespaces := ref_whitespaces;
  parseNameValue := ref_parseNameValue;
  parseNmtoken := ref_parseNmtoken;
  parseLiteral := ref_parseLiteral;
  parseVariable := ref_parseVariable
|}.

End RefLexer.


(** ** The resolution engine ([format-message.ts]) *)
Module Resolve.

(** *** JavaScript values

    Numbers are kept abstract: the engine compares them, tests them for
    truth, prints them and parses them, all of which is the language's
    business.  [error_stack] is the stack text an engine attaches to an error
    it creates. *)
Class JSNumber : Type := {
  number : Type;
  num_strict_eq : number -> number -> bool;
  num_same_value_zero : number -> number -> bool;
  num_truthy : number -> bool;
  num_to_string : number -> string;
  num_to_locale_string : list string -> number -> string;
  str_to_num : string -> number;
  num_of_nat : nat -> number;
  error_stack : string -> string -> string
}.

Section Values.
Context {N : JSNumber}.

(** The values a scope, an argument, a metadata entry or a thrown failure
    can be.  [VObj fields] is a plain object, one whose prototype is
    [Object.prototype], with its own enumerable properties in the order of
    [Object.entries]; it is converted to a string and to a primitive by the
    methods it inherits, which its entries are taken not to replace.
    [VWrapper v] is an object whose [valueOf()] is [v], such as
    [new Number(5)]; an array or a plain object is its own [valueOf()].
    [VFun source] is a function, which [String] turns into [source]. *)
Inductive JSValue : Type :=
| VUndefined
| VNull
| VBool (b : bool)
| VNum (n : number)
| VStr (s : string)
| VArr (items : list JSValue)
| VObj (fields : list (string * JSValue))
| VWrapper (inner : JSValue)
| VFun (source : string).

(** What a value has besides the data it is given by; the language and its
    engine define it.  A plain object, such as a metadata bag or a registry,
    inherits the members of [Object.prototype] ([toString], [constructor],
    [valueOf], ...): [object_prototype key] is the member named [key].
    [inherited v key] is what [v[key]] finds for any other value [v], outside
    the elements and the length of an array: a member of the prototype chain
    of [v], or a property of a wrapper or of a function.
    [nullish_read_message v key] is the message of the [TypeError] for
    reading [key] from [v], which is [null] or [undefined]. *)
Class JSObjects : Type := {
  object_prototype : string -> option JSValue;
  inherited : JSValue -> string -> option JSValue;
  nullish_read_message : JSValue -> string -> string
}.

Context {O : JSObjects}.

(** [typeof v] *)
Definition typeof (v : JSValue) : string :=
  match v with
  | VUndefined => "undefined"
  | VBool _ => "boolean"
  | VNum _ => "number"
  | VStr _ => "string"
  | VNull | VArr _ | VObj _ | VWrapper _ => "object"
  | VFun _ => "function"
  end.

(** [!!v] *)
Definition truthy (v : JSValue) : bool :=
  match v with
  | VUndefined | VNull => false
  | VBool b => b
  | VNum n => num_truthy n
  | VStr s => negb (String.eqb s "")
  | VArr _ | VObj _ | VWrapper _ | VFun _ => true
  end.

Definition is_array (v : JSValue) : bool :=
  match v with VArr _ => true | _ => false end.

(** [parts.join(sep)] on strings. *)
Fixpoint join (sep : string) (parts : list string) : string :=
  match parts with
  | [] => ""
  | [s] => s
  | s :: rest => String.append s (String.append sep (join sep rest))
  end.

Definition bool_to_string (b : bool) : string := if b then "true" else "false".

(** [String(v)] *)
Fixpoint to_string (v : JSValue) : string :=
  match v with
  | VUndefined => "undefined"
  | VNull => "null"
  | VBool b => bool_to_string b
  | VNum n => num_to_string n
  | VStr s => s
  | VArr items =>
    join "," (List.map (fun x => match x with
                                 | VUndefined | VNull => ""
                                 | _ => to_string x
                                 end) items)
  | VObj _ => "[object Object]"
  | VWrapper inner => to_string inner
  | VFun source => source
  end.

(** [v.toLocaleString(locales)], for [v] other than [null] and [undefined] *)
Fixpoint to_locale_string (locales : list string) (v : JSValue) : string :=
  match v with
  | VUndefined => "undefined"
  | VNull => "null"
  | VBool b => bool_to_string b
  | VNum n => num_to_locale_string locales n
  | VStr s => s
  | VArr items =>
    join "," (List.map (fun x => match x with
                                 | VUndefined | VNull => ""
                                 | _ => to_locale_string locales x
                                 end) items)
  | VObj _ => "[object Object]"
  | VWrapper inner => to_locale_string locales inner
  | VFun source => source
  end.

(** [values.join(sep)] on an array of values. *)
Definition js_join (sep : string) (values : list JSValue) : string :=
  join sep (List.map (fun x => match x with
                               | VUndefined | VNull => ""
                               | _ => to_string x
                               end) values).

(** [v.valueOf()] of an object *)
Definition js_valueOf (v : JSValue) : JSValue :=
  match v with
  | VWrapper inner => inner
  | _ => v
  end.

(** The first binding of a key in a list of entries. *)
Fixpoint assoc {A : Type} (key : string) (entries : list (string * A)) : option A :=
  match entries with
  | [] => None
  | (k, v) :: rest => if String.eqb k key then Some v else assoc key rest
  end.

(** [obj[key] = v] on a list of entries: in place when the key is there,
    at the end otherwise. *)
Fixpoint assoc_set {A : Type} (key : string) (v : A) (entries : list (string * A))
  : list (string * A) :=
  match entries with
  | [] => [(key, v)]
  | (k, w) :: rest =>
    if String.eqb k key then (k, v) :: rest else (k, w) :: assoc_set key v rest
  end.

Definition is_digit (c : ascii) : bool :=
  (48 <=? nat_of_ascii c) && (nat_of_ascii c <=? 57).

Fixpoint digits_value (acc : nat) (s : string) : option nat :=
  match s with
  | EmptyString => Some acc
  | String c rest =>
    if is_digit c then digits_value (10 * acc + (nat_of_ascii c - 48)) rest
    else None
  end.

(** A property key that is an array index: decimal digits, no leading zero. *)
Definition array_index (key : string) : option nat :=
  match key with
  | EmptyString => None
  | String c rest =>
    if Ascii.eqb c "0" then (if String.eqb rest "" then Some 0 else None)
    else digits_value 0 key
  end.

(** [String(i)] for an index [i]: its decimal numeral, the name of the
    element of an array or of the character of a string at [i]. *)
Definition numeral (i : nat) : string :=
  NilEmpty.string_of_uint (Nat.to_uint i).

(** [val[key]] for a [val] other than [null] and [undefined]: an own
    property or, where there is none under the key, what [val] inherits. *)
Definition get_prop (val : JSValue) (key : string) : JSValue :=
  match val with
  | VObj fields =>
    match assoc key fields with
    | Some v => v
    | None => default VUndefined (object_prototype key)
    end
  | VArr items =>
    match array_index key with
    | Some i =>
      if i <? length items then nth i items VUndefined
      else default VUndefined (inherited val key)
    | None =>
      if String.eqb key "length" then VNum (num_of_nat (length items))
      else default VUndefined (inherited val key)
    end
  | _ => default VUndefined (inherited val key)
  end.

(** An error object as the engine creates it. *)
Definition mk_error (name message : string) : JSValue :=
  VObj [("name", VStr name); ("message", VStr message);
        ("stack", VStr (error_stack name message))].

(** *** Results of fallible, possibly diverging code *)
Inductive Outcome (A : Type) : Type :=
| Ok (a : A)
| Throw (e : JSValue)
| OutOfFuel.
Arguments Ok {A} a.
Arguments Throw {A} e.
Arguments OutOfFuel {A}.

Definition bind {A B : Type} (m : Outcome A) (k : A -> Outcome B) : Outcome B :=
  match m with
  | Ok a => k a
  | Throw e => Throw e
  | OutOfFuel => OutOfFuel
  end.

(** [l.map(f)] with an [f] that can throw: left to right, the first failure
    ends it. *)
Fixpoint mapM {A B : Type} (f : A -> Outcome B) (l : list A) : Outcome (list B) :=
  match l with
  | [] => Ok []
  | x :: rest =>
    bind (f x) (fun y => bind (mapM f rest) (fun ys => Ok (y :: ys)))
  end.

(** [error.name] and the like on a caught value: reading a property of
    [null] or [undefined] is a [TypeError]. *)
Definition read_prop (v : JSValue) (key : string) : Outcome JSValue :=
  match v with
  | VUndefined | VNull =>
    Throw (mk_error "TypeError" (nullish_read_message v key))
  | _ => Ok (get_prop v key)
  end.

(** *** The data model ([data-model.ts]) *)

(** [LiteralValue = string | number] *)
Inductive LiteralValue : Type :=
| LStr (s : string)
| LNum (n : number).

Definition lit_to_js (v : LiteralValue) : JSValue :=
  match v with
  | LStr s => VStr s
  | LNum n => VNum n
  end.

(** [Meta]: the entries of a metadata object, in [Object.entries] order. *)
Definition Meta : Type := list (string * JSValue).

(** [Part = Literal | Variable | Function | Term], and the values of
    [Options]: a literal value, a variable, or (in the scope of a term) an
    array of literal values. *)
Inductive Part : Type :=
| LiteralPart (value : LiteralValue) (meta : option Meta)
| VariablePart (var_path : list Part) (meta : option Meta)
| FunctionPart (func : string) (args : list Part)
               (options : option (list (string * OptionValue)))
               (meta : option Meta)
| TermPart (res_id : option string) (msg_path : list Part)
           (scope : option (list (string * OptionValue))) (meta : option Meta)
with OptionValue : Type :=
| OLit (value : LiteralValue)
| OVar (var_path : list Part) (meta : option Meta)
| OArr (items : list LiteralValue).

Definition Options : Type := list (string * OptionValue).
Definition Pattern : Type := list Part.

Definition part_meta (part : Part) : option Meta :=
  match part with
  | LiteralPart _ m | VariablePart _ m | FunctionPart _ _ _ m
  | TermPart _ _ _ m => m
  end.

Record Selector : Type := mkSelector {
  sel_value : Part;
  sel_default : option LiteralValue
}.

Record SelectCase : Type := mkCase {
  case_key : list LiteralValue;
  case_value : Pattern
}.

Record Select : Type := mkSelect {
  select : list Selector;
  cases : list SelectCase
}.

Inductive MessageBody : Type :=
| BodyPattern (pattern : Pattern)
| BodySelect (sel : Select).

Record Message : Type := mkMessage {
  msg_meta : option Meta;
  msg_value : MessageBody
}.

(** [RuntimeType]: a type name or a list of allowed strings; the schema of
    a function is one type for all options or a type per option. *)
Inductive RuntimeType : Type :=
| TypeName (name : string)
| TypeEnum (allowed : list string).

Inductive Expected : Type :=
| ExpectedType (t : RuntimeType)
| ExpectedRecord (fields : list (string * RuntimeType)).

(** *** Formatted values *)

(** The values of [FormattedMeta]. *)
Inductive MetaValue : Type :=
| MNull
| MBool (b : bool)
| MNum (n : number)
| MStr (s : string).

Definition meta_to_js (v : MetaValue) : JSValue :=
  match v with
  | MNull => VNull
  | MBool b => VBool b
  | MNum n => VNum n
  | MStr s => VStr s
  end.

(** The classes [FormattedDynamic], [FormattedFallback], [FormattedLiteral]
    and [FormattedMessage] with the fields of [Formatted]: the locales, the
    value and the optional metadata. *)
Inductive Formatted : Type :=
| FormattedDynamic (locales : list string) (value : JSValue)
                   (meta : option (gmap string MetaValue))
| FormattedFallback (locales : list string) (value : string)
                    (meta : option (gmap string MetaValue))
| FormattedLiteral (locales : list string) (value : LiteralValue)
                   (meta : option (gmap string MetaValue))
| FormattedMessage (locales : list string) (value : list Formatted)
                   (meta : option (gmap string MetaValue)).

Definition fmt_meta (f : Formatted) : option (gmap string MetaValue) :=
  match f with
  | FormattedDynamic _ _ m | FormattedFallback _ _ m
  | FormattedLiteral _ _ m | FormattedMessage _ _ m => m
  end.

Definition set_fmt_meta (f : Formatted) (m : option (gmap string MetaValue))
  : Formatted :=
  match f with
  | FormattedDynamic l v _ => FormattedDynamic l v m
  | FormattedFallback l v _ => FormattedFallback l v m
  | FormattedLiteral l v _ => FormattedLiteral l v m
  | FormattedMessage l v _ => FormattedMessage l v m
  end.

Definition is_fallback (f : Formatted) : bool :=
  match f with FormattedFallback _ _ _ => true | _ => false end.

(** [Formatted.toString()] of the base class on a value *)
Definition value_toString (locales : list string) (v : JSValue) : string :=
  match v with
  | VUndefined | VNull => to_string v
  | _ => to_locale_string locales v
  end.

(** [toString()] *)
Fixpoint fmt_toString (f : Formatted) : string :=
  match f with
  | FormattedDynamic locales v _ => value_toString locales v
  | FormattedFallback _ v _ => String.append "{" (String.append v "}")
  | FormattedLiteral locales v _ => value_toString locales (lit_to_js v)
  | FormattedMessage _ parts _ =>
    fold_left (fun res fp => String.append res (fmt_toString fp)) parts ""
  end.

(** [valueOf()] *)
Definition fmt_valueOf (f : Formatted) : JSValue :=
  match f with
  | FormattedDynamic _ v _ => v
  | FormattedLiteral _ v _ => lit_to_js v
  | FormattedFallback _ _ _ | FormattedMessage _ _ _ => VStr (fmt_toString f)
  end.

(** One turn of the loop of [addMeta].  The bag [fmt.meta] is a plain
    object: [key in fmt.meta] holds of the keys it has and of the names it
    inherits. *)
Definition addMetaEntry (fm : gmap string MetaValue) (entry : string * JSValue)
  : gmap string MetaValue :=
  let '(key, value) := entry in
  if bool_decide (is_Some (fm !! key) \/ is_Some (object_prototype key)) then fm
  else
    let store (value : JSValue) :=
      match value with
      | VBool b => <[key := MBool b]> fm
      | VNum n => <[key := MNum n]> fm
      | VStr s => <[key := MStr s]> fm
      | _ => fm
      end in
    if String.eqb (typeof value) "object" then
      if negb (truthy value) then <[key := MNull]> fm
      else store (js_valueOf value)
    else store value.

(** [addMeta(fmt, meta)] on the metadata field of [fmt] *)
Definition addMeta (fm : option (gmap string MetaValue)) (meta : Meta)
  : gmap string MetaValue :=
  fold_left addMetaEntry meta (default ∅ fm).

Definition fmt_addMeta (f : Formatted) (meta : Meta) : Formatted :=
  set_fmt_meta f (Some (addMeta (fmt_meta f) meta)).

(** [if (meta) addMeta(this, meta)] of the constructor *)
Definition init_meta (meta : option Meta) : option (gmap string MetaValue) :=
  match meta with
  | Some m => Some (addMeta None m)
  | None => None
  end.

(** What a runtime function returns: a value or a [Formatted]. *)
Inductive Returned : Type :=
| RetValue (v : JSValue)
| RetFormatted (f : Formatted).

(** [r instanceof Formatted ? r.valueOf() : r] *)
Definition returned_valueOf (r : Returned) : JSValue :=
  match r with
  | RetValue v => v
  | RetFormatted f => fmt_valueOf f
  end.

(** *** The context ([format-context.ts]) *)

(** What a registry holds under a name: [call] is [rf.call] applied to the
    locales, the options and the arguments, [fn_options] is [rf.options], and
    [fn_object] says that [typeof rf] is ["object"] and not ["function"].
    A call is given by what it returns or throws, as a function of what it is
    handed.  The model therefore covers runtime functions that leave the
    locales, the scope and the messages of the context as they are; what the
    engine does after a function has changed one of them is outside it. *)
Record RuntimeFunction : Type := mkFunction {
  call : list string -> option (list (string * JSValue)) -> list JSValue
         -> Outcome Returned;
  fn_options : option Expected;
  fn_object : bool
}.

(** A registry as [registry[name]] reads it: [entry name] is the function
    registered under the name or, where none is, the member that the
    registry object inherits under it; [None] stands for [undefined]. *)
Record Registry : Type := mkRegistry {
  entry : string -> option RuntimeFunction
}.

#[export] Instance registry_lookup : Lookup string RuntimeFunction Registry :=
  fun name registry => entry registry name.

Record Runtime : Type := mkRuntime {
  format : Registry;
  select_fns : Registry
}.

Record Context : Type := mkContext {
  locales : list string;
  scope : JSValue;
  getMessage : option string -> list string -> option Message;
  runtime : Runtime
}.

(** [ResolvedSelector] *)
Record ResolvedSelector : Type := mkResolved {
  rs_value : JSValue;
  rs_default : LiteralValue
}.

(** What the engine imports from other modules: [isLiteral]
    ([data-model.ts]) as [resolveSelectFunction] applies it to a resolved
    argument, [getFormattedSelectMeta] ([detect-grammar.ts]) and
    [extendContext] ([format-context.ts]). *)
Class Externals : Type := {
  isLiteral : JSValue -> bool;
  getFormattedSelectMeta :
    Select -> list ResolvedSelector -> list LiteralValue -> option Meta;
  extendContext : Context -> option string -> JSValue -> Context
}.

(** *** Options *)

(** [getExpected(key)].  A schema that maps names to types is a plain
    object: under a name it has no entry for, [expected[key]] reads what it
    inherits, which is there but is no type name and no list; [TypeEnum []]
    stands for it. *)
Definition getExpected (expected : option Expected) (key : string)
  : option RuntimeType :=
  match expected with
  | None => None
  | Some (ExpectedType t) => Some t
  | Some (ExpectedRecord fields) =>
    match assoc key fields with
    | Some t => Some t
    | None =>
      if bool_decide (is_Some (object_prototype key)) then Some (TypeEnum [])
      else None
    end
  end.

(** The truth value of a schema or of a type: only the empty type name is
    false. *)
Definition type_truthy (t : RuntimeType) : bool :=
  match t with
  | TypeName name => negb (String.eqb name "")
  | TypeEnum _ => true
  end.

Definition expected_truthy (expected : option Expected) : bool :=
  match expected with
  | None => false
  | Some (ExpectedType t) => type_truthy t
  | Some (ExpectedRecord _) => true
  end.

Definition is_type (t : RuntimeType) (name : string) : bool :=
  match t with
  | TypeName n => String.eqb n name
  | TypeEnum _ => false
  end.

(** [Number(v)] *)
Fixpoint js_Number (v : JSValue) : number :=
  match v with
  | VNum n => n
  | VBool b => num_of_nat (if b then 1 else 0)
  | VNull => num_of_nat 0
  | VWrapper inner => js_Number inner
  | _ => str_to_num (to_string v)
  end.

(** An option value that is not a variable, as a value. *)
Definition option_value_js (value : OptionValue) : JSValue :=
  match value with
  | OLit v => lit_to_js v
  | OArr items => VArr (List.map lit_to_js items)
  | OVar _ _ => VObj []
  end.

(** The coercion of a literal option value by its expected type. *)
Definition coerceOption (exp : RuntimeType) (value : JSValue) : JSValue :=
  if is_type exp "boolean" then
    match value with
    | VStr s =>
      if String.eqb s "true" then VBool true
      else if String.eqb s "false" then VBool false
      else value
    | _ => value
    end
  else if is_type exp "number" then VNum (js_Number value)
  else value.

(** The test that guards [opt[key] = res]. *)
Definition option_kept (exp : RuntimeType) (res : JSValue) : bool :=
  match exp with
  | TypeName name => String.eqb name "any" || String.eqb name (typeof res)
  | TypeEnum allowed =>
    match res with
    | VStr s => existsb (String.eqb s) allowed
    | _ => false
    end
  end.

(** [opt[key] = res] on an object that [{}] made.  The name [__proto__] is
    the accessor of [Object.prototype]: the assignment stores no entry (a
    value that is an object becomes the prototype of [opt], which the
    entries do not show). *)
Definition set_option (key : string) (res : JSValue)
    (opt : list (string * JSValue)) : list (string * JSValue) :=
  if String.eqb key "__proto__" then opt else assoc_set key res opt.

(** The value [res] of an option: a variable is resolved, anything else
    is coerced by the expected type. *)
Definition resolveOptionValue (resolveArg : Part -> Outcome JSValue)
    (exp : RuntimeType) (value : OptionValue) : Outcome JSValue :=
  match value with
  | OVar var_path meta => resolveArg (VariablePart var_path meta)
  | _ => Ok (coerceOption exp (option_value_js value))
  end.

(** The loop of [resolveOptions] over [Object.entries(options)]. *)
Fixpoint resolveOptionsLoop (resolveArg : Part -> Outcome JSValue)
    (expected : option Expected) (entries : Options)
    (opt : list (string * JSValue)) : Outcome (list (string * JSValue)) :=
  match entries with
  | [] => Ok opt
  | (key, value) :: rest =>
    match getExpected expected key with
    | None => resolveOptionsLoop resolveArg expected rest opt
    | Some exp =>
      if negb (type_truthy exp) || is_type exp "never"
      then resolveOptionsLoop resolveArg expected rest opt
      else
        bind (resolveOptionValue resolveArg exp value)
          (fun res =>
             resolveOptionsLoop resolveArg expected rest
               (if option_kept exp res then set_option key res opt else opt))
    end
  end.

(** [resolveOptions(ctx, options, expected)]; [resolveArg] is
    [resolveArgument(ctx, _)]. *)
Definition resolveOptions (resolveArg : Part -> Outcome JSValue)
    (options : option Options) (expected : option Expected)
  : Outcome (list (string * JSValue)) :=
  match options with
  | Some entries =>
    if expected_truthy expected
    then resolveOptionsLoop resolveArg expected entries []
    else Ok []
  | None => Ok []
  end.

(** *** Variables *)

(** The loop of [resolveVariable] over the path. *)
Fixpoint walkPath (resolveArg : Part -> Outcome JSValue) (val : JSValue)
    (path : list Part) : Outcome JSValue :=
  match path with
  | [] => Ok val
  | p :: rest =>
    if negb (truthy val) || negb (String.eqb (typeof val) "object")
    then Ok VUndefined
    else bind (resolveArg p)
           (fun key => walkPath resolveArg (get_prop val (to_string key)) rest)
  end.

(** *** Selection *)

(** [a === b] on literal values, and between a key and a resolved value *)
Definition strict_eq_lit (a b : LiteralValue) : bool :=
  match a, b with
  | LStr x, LStr y => String.eqb x y
  | LNum x, LNum y => num_strict_eq x y
  | _, _ => false
  end.

Definition strict_eq_js (k : LiteralValue) (v : JSValue) : bool :=
  match k, v with
  | LStr x, VStr y => String.eqb x y
  | LNum x, VNum y => num_strict_eq x y
  | _, _ => false
  end.

(** [items.includes(k)] *)
Definition includes (items : list JSValue) (k : LiteralValue) : bool :=
  existsb (fun v => match k, v with
                    | LStr x, VStr y => String.eqb x y
                    | LNum x, VNum y => num_same_value_zero x y
                    | _, _ => false
                    end) items.

(** The callback of [key.every]: [res[i]] may be missing. *)
Definition key_matches (res : list ResolvedSelector) (i : nat) (k : LiteralValue)
  : Outcome bool :=
  match res !! i with
  | None =>
    Throw (mk_error "TypeError" (nullish_read_message VUndefined "default"))
  | Some r =>
    Ok (strict_eq_lit k (rs_default r) || strict_eq_js k (rs_value r)
        || match rs_value r with
           | VArr items => includes items k
           | _ => false
           end)
  end.

(** [key.every((k, i) => ...)], from index [i] on *)
Fixpoint every_key (res : list ResolvedSelector) (i : nat)
    (key : list LiteralValue) : Outcome bool :=
  match key with
  | [] => Ok true
  | k :: rest =>
    bind (key_matches res i k)
      (fun b => if b then every_key res (S i) rest else Ok false)
  end.

(** The [for] loop of [resolveSelect] over [select.cases]. *)
Fixpoint selectCase (res : list ResolvedSelector) (cs : list SelectCase)
  : Outcome (option SelectCase) :=
  match cs with
  | [] => Ok None
  | c :: rest =>
    bind (every_key res 0 (case_key c))
      (fun b => if b then Ok (Some c) else selectCase res rest)
  end.

(** [s.default || 'other'] *)
Definition selector_default (s : Selector) : LiteralValue :=
  match sel_default s with
  | Some d => if truthy (lit_to_js d) then d else LStr "other"
  | None => LStr "other"
  end.

(** [Object.assign({}, scope, opt)]: the entries of the scope, then those
    of the options, each assigned as [opt[key] = res] is.  The model has
    plain objects for scopes: it leaves out that an entry [__proto__] of the
    scope whose value is an object or [null] becomes the prototype of the
    new scope. *)
Definition object_assign (scope : JSValue) (opt : list (string * JSValue))
  : JSValue :=
  VObj (fold_left (fun fields '(k, v) => set_option k v fields) opt
          (match scope with
           | VObj fields =>
             List.filter (fun e => negb (String.eqb e.1 "__proto__")) fields
           | VArr items => imap (fun i x => (numeral i, x)) items
           | VStr s | VWrapper (VStr s) =>
             imap (fun i c => (numeral i, VStr (String c "")))
               (list_ascii_of_string s)
           | _ => []
           end)).

(** [error_name], [error_message] and [error_stack] of a caught value *)
Definition error_meta (error : JSValue) : Outcome Meta :=
  bind (read_prop error "name") (fun name =>
  bind (read_prop error "message") (fun message =>
  bind (read_prop error "stack") (fun stack =>
  Ok [("error_name", name); ("error_message", message);
      ("error_stack", stack)]))).

(** The failure of [rf.call] when [rf] is [undefined]. *)
Definition missing_function_error : JSValue :=
  mk_error "TypeError" (nullish_read_message VUndefined "call").

(** [rf.call(...)] on what the registry gave, which may be [undefined] *)
Definition call_function (rf : option RuntimeFunction) (locales : list string)
    (opt : list (string * JSValue)) (args : list JSValue) : Outcome Returned :=
  match rf with
  | Some f => call f locales (Some opt) args
  | None => Throw missing_function_error
  end.

(** [new FormattedDynamic(locales, value, meta)] on what a function
    returned and did not classify itself *)
Definition wrapDynamic (locales : list string) (value : Returned)
    (meta : option Meta) : Formatted :=
  match value with
  | RetValue v => FormattedDynamic locales v (init_meta meta)
  | RetFormatted f =>
    let own :=
      match fmt_meta f with
      | Some m => Some (addMeta None (map_to_list (meta_to_js <$> m)))
      | None => None
      end in
    FormattedDynamic locales (fmt_valueOf f)
      (match meta with
       | Some m => Some (addMeta own m)
       | None => own
       end)
  end.

Definition is_literal_formatted (f : Formatted) : bool :=
  match f with FormattedLiteral _ _ _ => true | _ => false end.

(** The text of an option in the fallback of a function:
    [`${key}: ${value}`] *)
Definition option_text (entry : string * OptionValue) : JSValue :=
  VStr (String.append entry.1
          (String.append ": " (to_string (option_value_js entry.2)))).

(** *** The resolvers

    A term resolves the message it names, which may contain terms again,
    without bound; every call spends one unit of [fuel]. *)
Section Resolvers.
Context {E : Externals}.

Definition unsupported_argument : JSValue :=
  mk_error "Error" "Unsupported function argument: [object Object]".

Definition res_id_truthy (res_id : option string) : bool :=
  match res_id with
  | Some id => negb (String.eqb id "")
  | None => false
  end.

(** The callback of [select.select.map] in [resolveSelect]; the two
    arguments are [resolveSelectFunction(ctx, _)] and [resolvePart(ctx, _)]. *)
Definition resolveSelector
    (selectFunction : string -> list Part -> option Options -> Outcome Returned)
    (part : Part -> Outcome Formatted) (ctx : Context) (s : Selector)
  : Outcome ResolvedSelector :=
  bind (match sel_value s with
        | FunctionPart func args options _ => selectFunction func args options
        | p => bind (part p) (fun f => Ok (RetFormatted f))
        end)
    (fun r =>
  let v := returned_valueOf r in
  bind (match v with
        | VNum _ =>
          match select_fns (runtime ctx) !! "plural" with
          | Some plural =>
            if fn_object plural then
              match call plural (locales ctx) None [v] with
              | Ok r => Ok (returned_valueOf r)
              | Throw _ => Ok v
              | OutOfFuel => OutOfFuel
              end
            else Ok v
          | None => Ok v
          end
        | VStr _ | VArr _ => Ok v
        | _ => Ok (VStr (to_string v))
        end)
    (fun value => Ok (mkResolved value (selector_default s)))).

Fixpoint resolvePart (fuel : nat) (ctx : Context) (part : Part) {struct fuel}
  : Outcome Formatted :=
  match fuel with
  | 0 => OutOfFuel
  | S fuel =>
    match part with
    | LiteralPart value meta =>
      Ok (FormattedLiteral (locales ctx) value (init_meta meta))
    | VariablePart var_path meta => resolveVariable fuel ctx var_path meta
    | FunctionPart func args options meta =>
      resolveFormatFunction fuel ctx func args options meta
    | TermPart res_id msg_path scope meta =>
      resolveTerm fuel ctx res_id msg_path scope meta
    end
  end

with resolveArgument (fuel : nat) (ctx : Context) (part : Part) {struct fuel}
  : Outcome JSValue :=
  match fuel with
  | 0 => OutOfFuel
  | S fuel =>
    match part with
    | LiteralPart value _ => Ok (lit_to_js value)
    | VariablePart var_path meta =>
      bind (resolveVariable fuel ctx var_path meta)
        (fun f => Ok (fmt_valueOf f))
    | _ => Throw unsupported_argument
    end
  end

with resolveVariable (fuel : nat) (ctx : Context) (var_path : list Part)
    (meta : option Meta) {struct fuel} : Outcome Formatted :=
  match fuel with
  | 0 => OutOfFuel
  | S fuel =>
    bind (walkPath (resolveArgument fuel ctx)
            (match var_path with [] => VUndefined | _ => scope ctx end)
            var_path)
      (fun val =>
         match val with
         | VUndefined => resolveFallback fuel ctx (VariablePart var_path meta)
         | _ => Ok (FormattedDynamic (locales ctx) val (init_meta meta))
         end)
  end

with resolveFormatFunction (fuel : nat) (ctx : Context) (func : string)
    (args : list Part) (options : option Options) (meta : option Meta)
    {struct fuel} : Outcome Formatted :=
  match fuel with
  | 0 => OutOfFuel
  | S fuel =>
    let rf := format (runtime ctx) !! func in
    bind (mapM (resolveArgument fuel ctx) args) (fun fnArgs =>
    bind (resolveOptions (resolveArgument fuel ctx) options
            (rf ≫= fn_options)) (fun fnOpt =>
    match call_function rf (locales ctx) fnOpt fnArgs with
    | Ok value =>
      match value with
      | RetFormatted f =>
        if is_literal_formatted f
        then Ok (wrapDynamic (locales ctx) value meta)
        else Ok (match meta with
                 | Some m => fmt_addMeta f m
                 | None => f
                 end)
      | RetValue _ => Ok (wrapDynamic (locales ctx) value meta)
      end
    | Throw error =>
      bind (resolveFallback fuel ctx (FunctionPart func args options meta))
        (fun fb =>
      bind (error_meta error) (fun em => Ok (fmt_addMeta fb em)))
    | OutOfFuel => OutOfFuel
    end))
  end

with resolveTerm (fuel : nat) (ctx : Context) (res_id : option string)
    (msg_path : list Part) (scope_ : option Options) (meta : option Meta)
    {struct fuel} : Outcome Formatted :=
  match fuel with
  | 0 => OutOfFuel
  | S fuel =>
    bind (mapM (fun part => bind (resolvePart fuel ctx part)
                              (fun f => Ok (fmt_toString f))) msg_path)
      (fun strPath =>
    match getMessage ctx res_id strPath with
    | None => resolveFallback fuel ctx (TermPart res_id msg_path scope_ meta)
    | Some msg =>
      bind (if res_id_truthy res_id || bool_decide (is_Some scope_) then
              bind (match scope_ with
                    | Some _ =>
                      resolveOptions (resolveArgument fuel ctx) scope_
                        (Some (ExpectedType (TypeName "any")))
                    | None => Ok []
                    end)
                (fun opt =>
                   Ok (extendContext ctx res_id (object_assign (scope ctx) opt)))
            else Ok ctx)
        (fun ctx =>
      bind (formatToParts fuel ctx msg) (fun parts =>
      Ok (FormattedMessage (locales ctx) parts (init_meta meta))))
    end)
  end

with resolveSelectFunction (fuel : nat) (ctx : Context) (func : string)
    (args : list Part) (options : option Options) {struct fuel}
  : Outcome Returned :=
  match fuel with
  | 0 => OutOfFuel
  | S fuel =>
    let fn := select_fns (runtime ctx) !! func in
    bind (mapM (resolveArgument fuel ctx) args) (fun fnArgs =>
    bind (resolveOptions (resolveArgument fuel ctx) options
            (fn ≫= fn_options)) (fun fnOpt =>
    match call_function fn (locales ctx) fnOpt fnArgs with
    | Ok r => Ok r
    | Throw _ =>
      let first := nth 0 fnArgs VUndefined in
      Ok (RetValue (if isLiteral first then first
                    else VStr (to_string first)))
    | OutOfFuel => OutOfFuel
    end))
  end

with resolveSelect (fuel : nat) (ctx : Context) (sel : Select) {struct fuel}
  : Outcome (Pattern * option Meta) :=
  match fuel with
  | 0 => OutOfFuel
  | S fuel =>
    bind (mapM (resolveSelector (resolveSelectFunction fuel ctx)
                  (resolvePart fuel ctx) ctx) (select sel))
      (fun res =>
    bind (selectCase res (cases sel)) (fun found =>
    match found with
    | Some c =>
      Ok (case_value c, getFormattedSelectMeta sel res (case_key c))
    | None => Ok ([], None)
    end))
  end

with resolveFallback (fuel : nat) (ctx : Context) (part : Part) {struct fuel}
  : Outcome Formatted :=
  match fuel with
  | 0 => OutOfFuel
  | S fuel =>
    bind (fallbackValue fuel ctx part) (fun text =>
    Ok (FormattedFallback (locales ctx) text (init_meta (part_meta part))))
  end

with fallbackValue (fuel : nat) (ctx : Context) (part : Part) {struct fuel}
  : Outcome string :=
  match fuel with
  | 0 => OutOfFuel
  | S fuel =>
    let resolve (p : Part) :=
      bind (resolvePart fuel ctx p) (fun f => Ok (fmt_valueOf f)) in
    match part with
    | LiteralPart value _ => Ok (to_string (lit_to_js value))
    | VariablePart var_path _ =>
      bind (mapM resolve var_path) (fun path =>
      Ok (String.append "$" (js_join "." path)))
    | FunctionPart func args options _ =>
      bind (mapM resolve args) (fun args =>
      let args :=
        match options with
        | Some entries => args ++ List.map option_text entries
        | None => args
        end in
      Ok (String.append func
            (String.append "(" (String.append (js_join ", " args) ")"))))
    | TermPart res_id msg_path scope_ _ =>
      bind (mapM resolve msg_path) (fun path =>
      let name := js_join "." path in
      let name :=
        match res_id with
        | Some id =>
          if res_id_truthy res_id
          then String.append id (String.append "::" name)
          else name
        | None => name
        end in
      match scope_ with
      | None => Ok (String.append "-" name)
      | Some entries =>
        bind (mapM (fun '(key, value) =>
                bind (match value with
                      | OArr items =>
                        Ok (String.append "["
                              (String.append
                                 (js_join ", " (List.map lit_to_js items)) "]"))
                      | OVar var_path meta =>
                        bind (resolve (VariablePart var_path meta))
                          (fun v => Ok (to_string v))
                      | OLit v => Ok (to_string (lit_to_js v))
                      end)
                  (fun vs =>
                Ok (VStr (String.append key (String.append ": " vs)))))
                entries)
          (fun scope_texts =>
        Ok (String.append "-"
              (String.append name
                 (String.append "("
                    (String.append (js_join ", " scope_texts) ")")))))
      end)
    end
  end

with formatToParts (fuel : nat) (ctx : Context) (msg : Message) {struct fuel}
  : Outcome (list Formatted) :=
  match fuel with
  | 0 => OutOfFuel
  | S fuel =>
    bind (match msg_value msg with
          | BodySelect sel => resolveSelect fuel ctx sel
          | BodyPattern pattern => Ok (pattern, None)
          end)
      (fun '(pattern, fsm) =>
    bind (mapM (resolvePart fuel ctx) pattern) (fun res =>
    match msg_meta msg, fsm with
    | None, None => Ok res
    | meta, _ =>
      let fm := FormattedMessage (locales ctx) res (init_meta meta) in
      Ok [match fsm with
          | Some m => fmt_addMeta fm m
          | None => fm
          end]
    end))
  end.

(** [formatToString(ctx, msg)] *)
Definition formatToString (fuel : nat) (ctx : Context) (msg : Message)
  : Outcome string :=
  bind (formatToParts fuel ctx msg) (fun parts =>
  Ok (fold_left (fun res fp => String.append res (fmt_toString fp)) parts "")).

End Resolvers.

(** *** The specification's rule for keeping an option

    The runtime type of the value is the expected type, or the expected type
    is ["any"], or the expected type is a list of strings that has the
    value. *)
Definition kept_by_type (exp : RuntimeType) (res : JSValue) : Prop :=
  exp = TypeName (typeof res) \/
  exp = TypeName "any" \/
  exists allowed s, exp = TypeEnum allowed /\ res = VStr s /\ s ∈ allowed.

(** The expected type of an option under a schema: the schema itself when
    it is a fixed type name or an enumerated set, the type it maps the name
    of the option to when it is a mapping. *)
Definition declared_type (expected : option Expected) (key : string)
    (exp : RuntimeType) : Prop :=
  expected = Some (ExpectedType exp) \/
  exists fields, expected = Some (ExpectedRecord fields) /\
    exists before after,
      fields = before ++ (key, exp) :: after /\ key ∉ before.*1.

(** The numeric parse of a literal: a number is itself, a string is
    parsed. *)
Definition numeric_parse (value : LiteralValue) : number :=
  match value with
  | LNum n => n
  | LStr s => str_to_num s
  end.

(** A literal option value coerced by its expected type: under ["boolean"]
    the strings ["true"] and ["false"] become booleans, under ["number"] the
    value is parsed as a number, and it is left as it is otherwise. *)
Definition coerced (exp : RuntimeType) (value : LiteralValue) (res : JSValue)
  : Prop :=
  (exp = TypeName "boolean" /\ value = LStr "true" /\ res = VBool true) \/
  (exp = TypeName "boolean" /\ value = LStr "false" /\ res = VBool false) \/
  (exp = TypeName "boolean" /\ value <> LStr "true" /\ value <> LStr "false" /\
   res = lit_to_js value) \/
  (exp = TypeName "number" /\ res = VNum (numeric_parse value)) \/
  (exp <> TypeName "boolean" /\ exp <> TypeName "number" /\
   res = lit_to_js value).

(** The value of an option before the test that keeps or drops it: a
    variable resolves through the variable path, a literal is coerced; an
    array, which the scope of a term can have, is parsed as a number from
    its text under ["number"] and is left as it is otherwise. *)
Definition option_result (resolveArg : Part -> Outcome JSValue)
    (exp : RuntimeType) (value : OptionValue) (res : JSValue) : Prop :=
  match value with
  | OVar var_path meta => resolveArg (VariablePart var_path meta) = Ok res
  | OLit v => coerced exp v res
  | OArr items =>
    (exp = TypeName "number" /\
     res = VNum (str_to_num (js_join "," (List.map lit_to_js items)))) \/
    (exp <> TypeName "number" /\ res = VArr (List.map lit_to_js items))
  end.

(** *** The specification's reading of a variable reference *)

(** The parts the data model allows as a path segment or an argument:
    literals, and variables whose path segments are such parts. *)
Fixpoint supported_arg (p : Part) : bool :=
  match p with
  | LiteralPart _ _ => true
  | VariablePart path _ => forallb supported_arg path
  | _ => false
  end.

(** How deep variables nest in the path of a part. *)
Fixpoint part_depth (p : Part) : nat :=
  match p with
  | VariablePart path _ =>
    S (fold_right (fun q acc => Nat.max (part_depth q) acc) 0 path)
  | _ => 0
  end.

Definition path_depth (path : list Part) : nat :=
  fold_right (fun q acc => Nat.max (part_depth q) acc) 0 path.

(** A value can be indexed: it is there and it is an object. *)
Definition indexable (v : JSValue) : bool :=
  truthy v && String.eqb (typeof v) "object".

(** The element of an array named [key], the first element having the
    index [i]. *)
Fixpoint element_named (i : nat) (items : list JSValue) (key : string)
  : option JSValue :=
  match items with
  | [] => None
  | x :: rest =>
    if String.eqb (numeral i) key then Some x
    else element_named (S i) rest key
  end.

(** What a lookup of [key] in an indexable value finds: the entry of a
    plain object or else the member of [Object.prototype] of that name; the
    element of an array, its length, or else what the array inherits; for
    any other object what it has or inherits under the name.  What is not
    found is [undefined]. *)
Definition member (val : JSValue) (key : string) : JSValue :=
  match val with
  | VObj fields =>
    match list_find (fun e => e.1 = key) fields with
    | Some (_, (_, v)) => v
    | None => default VUndefined (object_prototype key)
    end
  | VArr items =>
    match element_named 0 items key with
    | Some v => v
    | None =>
      if decide (key = "length") then VNum (num_of_nat (length items))
      else default VUndefined (inherited val key)
    end
  | _ => default VUndefined (inherited val key)
  end.

(** Walking keys from a value: [None] when a value on the way cannot be
    indexed or the last lookup finds nothing. *)
Fixpoint lookup_path (val : JSValue) (keys : list string) : option JSValue :=
  match keys with
  | [] => match val with VUndefined => None | _ => Some val end
  | k :: ks =>
    if indexable val then lookup_path (member val k) ks else None
  end.

(** What a variable with resolved path segments [keys] resolves to: the
    value at the end of the path as a Dynamic, or a Fallback with the text
    [$] and the path joined by dots. *)
Definition variable_result (ctx : Context) (keys : list JSValue)
    (meta : option Meta) : Formatted :=
  match keys, lookup_path (scope ctx) (List.map to_string keys) with
  | _ :: _, Some v => FormattedDynamic (locales ctx) v (init_meta meta)
  | _, _ =>
    FormattedFallback (locales ctx) (String.append "$" (js_join "." keys))
      (init_meta meta)
  end.

(** The value of a supported part: the value of a literal, the [valueOf()]
    of what a variable resolves to. *)
Fixpoint part_value (ctx : Context) (p : Part) : JSValue :=
  match p with
  | LiteralPart v _ => lit_to_js v
  | VariablePart path meta =>
    fmt_valueOf (variable_result ctx (List.map (part_value ctx) path) meta)
  | _ => VUndefined
  end.

(** *** The specification's reading of a failed function *)

(** The variables among the option values are supported parts. *)
Definition supported_options (options : option Options) : bool :=
  match options with
  | Some entries =>
    forallb (fun entry => match entry.2 with
                          | OVar path _ => forallb supported_arg path
                          | _ => true
                          end) entries
  | None => true
  end.

Definition options_depth (options : option Options) : nat :=
  match options with
  | Some entries =>
    fold_right (fun entry acc =>
                  Nat.max (match entry.2 with
                           | OVar path _ => S (path_depth path)
                           | _ => 0
                           end) acc) 0 entries
  | None => 0
  end.

(** The canonical rendering [func(arg1, arg2, opt: value, ...)]. *)
Definition function_text (ctx : Context) (func : string) (args : list Part)
    (options : option Options) : string :=
  String.append func
    (String.append "("
       (String.append
          (js_join ", "
             (List.map (part_value ctx) args ++
              match options with
              | Some entries => List.map option_text entries
              | None => []
              end))
          ")")).

(** The resolved options of a function whose variables are supported. *)
Definition resolved_options (ctx : Context) (options : option Options)
    (expected : option Expected) : Outcome (list (string * JSValue)) :=
  resolveOptions (fun p => Ok (part_value ctx p)) options expected.

(** The entries [error_name], [error_message], [error_stack] for a caught
    value that has properties. *)
Definition failure_meta (error : JSValue) : Meta :=
  [("error_name", member error "name");
   ("error_message", member error "message");
   ("error_stack", member error "stack")].

(** *** The specification's rule for a matching variant

    A key equals a value when both are the same string or numbers that are
    [===]; it is a member of an array under the comparison of [includes]. *)
Definition key_equals (k : LiteralValue) (v : JSValue) : Prop :=
  match k, v with
  | LStr x, VStr y => x = y
  | LNum x, VNum y => num_strict_eq x y = true
  | _, _ => False
  end.

Definition key_member (k : LiteralValue) (items : list JSValue) : Prop :=
  exists v, v ∈ items /\
    match k, v with
    | LStr x, VStr y => x = y
    | LNum x, VNum y => num_same_value_zero x y = true
    | _, _ => False
    end.

(** The key equals the selector's default, or its resolved value, or is a
    member of the resolved value when that is an array. *)
Definition key_fits (k : LiteralValue) (r : ResolvedSelector) : Prop :=
  key_equals k (lit_to_js (rs_default r)) \/
  key_equals k (rs_value r) \/
  exists items, rs_value r = VArr items /\ key_member k items.

(** A variant matches fully: every key fits the selector at its index. *)
Definition full_match (res : list ResolvedSelector) (c : SelectCase) : Prop :=
  Forall2 key_fits (case_key c) res.

(** *** The specification's reading of a metadata bag *)

(** What is kept of a metadata value: [null], a boolean, a number or a
    string as it is, an object through its [valueOf()] if that is a boolean,
    a number or a string; nothing else. *)
Definition retained (value : JSValue) : option MetaValue :=
  match value with
  | VNull => Some MNull
  | VBool b | VWrapper (VBool b) => Some (MBool b)
  | VNum n | VWrapper (VNum n) => Some (MNum n)
  | VStr s | VWrapper (VStr s) => Some (MStr s)
  | _ => None
  end.

(** The first entry for [key] that is kept. *)
Fixpoint first_retained (key : string) (meta : Meta) : option MetaValue :=
  match meta with
  | [] => None
  | (k, v) :: rest =>
    if String.eqb k key then
      match retained v with
      | Some m => Some m
      | None => first_retained key rest
      end
    else first_retained key rest
  end.

(** A name that a metadata bag inherits: a member of [Object.prototype]. *)
Definition inherited_name (key : string) : Prop :=
  is_Some (object_prototype key).

End Values.

Arguments Ok {N A} a.
Arguments Throw {N A} e.
Arguments OutOfFuel {N A}.

End Resolve.

(** ** A reference runtime

    Numbers as integers and [NaN], printed in decimal; [toLocaleString]
    groups the digits by three, with the separator of the first locale.  It
    is used to run the engine on concrete messages. *)
Module RefRuntime.
Import Resolve.

Definition ref_number : Type := option Z.

(** Decimal digits, the last one first; a number has fewer digits than
    bits, which bounds the recursion. *)
Fixpoint digits_of (fuel : nat) (n : N) (acc : string) : string :=
  match fuel with
  | 0 => acc
  | S fuel =>
    let acc := String (ascii_of_N (48 + n mod 10)) acc in
    if (n / 10 =? 0)%N then acc else digits_of fuel (n / 10)%N acc
  end.

Definition decimal (n : N) : string := digits_of (S (N.size_nat n)) n "".

Definition ref_num_to_string (n : ref_number) : string :=
  match n with
  | Some z =>
    String.append (if (z <? 0)%Z then "-" else "") (decimal (Z.abs_N z))
  | None => "NaN"
  end.

(** Reversed digits, a separator after every third one that has a
    successor. *)
Fixpoint group_rev (sep : ascii) (seen : nat) (rev_digits : list ascii)
  : list ascii :=
  match rev_digits with
  | [] => []
  | d :: rest =>
    match seen, rest with
    | 2, _ :: _ => d :: sep :: group_rev sep 0 rest
    | _, _ => d :: group_rev sep (S seen) rest
    end
  end.

Definition group_digits (sep : ascii) (digits : string) : string :=
  string_of_list_ascii
    (rev (group_rev sep 0 (rev (list_ascii_of_string digits)))).

Definition locale_separator (locales : list string) : ascii :=
  match locales with
  | l :: _ => if String.prefix "de" l then "."%char else ","%char
  | [] => ","%char
  end.

(** Modelled from the spec: the "toLocaleString-style, locale-aware" string
    coercion of a number; it belongs to the language runtime. *)
Definition ref_num_to_locale_string (locales : list string) (n : ref_number)
  : string :=
  match n with
  | Some z =>
    String.append (if (z <? 0)%Z then "-" else "")
      (group_digits (locale_separator locales) (decimal (Z.abs_N z)))
  | None => "NaN"
  end.

Definition ref_str_to_num (s : string) : ref_number :=
  match s with
  | EmptyString => Some 0%Z
  | String "-" rest =>
    match rest with
    | EmptyString => None
    | _ => (fun n => (- Z.of_nat n)%Z) <$> digits_value 0 rest
    end
  | _ => Z.of_nat <$> digits_value 0 s
  end.

#[export] Instance ref_numbers : JSNumber := {|
  number := ref_number;
  num_strict_eq a b :=
    match a, b with Some x, Some y => (x =? y)%Z | _, _ => false end;
  num_same_value_zero a b :=
    match a, b with
    | Some x, Some y => (x =? y)%Z
    | None, None => true
    | _, _ => false
    end;
  num_truthy a := match a with Some x => negb (x =? 0)%Z | None => false end;
  num_to_string := ref_num_to_string;
  num_to_locale_string := ref_num_to_locale_string;
  str_to_num := ref_str_to_num;
  num_of_nat n := Some (Z.of_nat n);
  error_stack name message :=
    String.append name (String.append ": " message)
|}.

#[export] Instance ref_externals : Externals := {|
  isLiteral v := match v with VStr _ | VNum _ => true | _ => false end;
  getFormattedSelectMeta _ _ _ := None;
  extendContext ctx _ msgScope :=
    mkContext (locales ctx) msgScope (getMessage ctx) (runtime ctx)
|}.

(** The names of the members of [Object.prototype]. *)
Definition object_members : list string :=
  ["constructor"; "__defineGetter__"; "__defineSetter__"; "hasOwnProperty";
   "__lookupGetter__"; "__lookupSetter__"; "isPrototypeOf";
   "propertyIsEnumerable"; "toString"; "valueOf"; "__proto__";
   "toLocaleString"].

Definition native_function (name : string) : JSValue :=
  VFun (String.append "function "
          (String.append name "() { [native code] }")).

Definition ref_object_prototype (key : string) : option JSValue :=
  if bool_decide (key ∈ object_members) then
    Some (if String.eqb key "__proto__" then VObj []
          else if String.eqb key "constructor" then native_function "Object"
          else native_function key)
  else None.

(** The characters and the length of a string, as properties. *)
Definition string_property (s : string) (key : string) : option JSValue :=
  match array_index key with
  | Some i => (fun c => VStr (String c "")) <$> String.get i s
  | None =>
    if String.eqb key "length"
    then Some (VNum (Some (Z.of_nat (String.length s))))
    else None
  end.

(** The members of [Object.prototype] as every value other than [null] and
    [undefined] inherits them, and the properties of a string; what the
    prototype of an array, a wrapper or a function adds or replaces is left
    out.  The message is the one V8 gives. *)
#[export] Instance ref_objects : JSObjects := {|
  object_prototype := ref_object_prototype;
  inherited v key :=
    match v with
    | VUndefined | VNull => None
    | VStr s | VWrapper (VStr s) =>
      match string_property s key with
      | Some p => Some p
      | None => ref_object_prototype key
      end
    | _ => ref_object_prototype key
    end;
  nullish_read_message v key :=
    String.append "Cannot read properties of "
      (String.append (to_string v)
         (String.append " (reading '" (String.append key "')")))
|}.

(** What a registry that is a plain object inherits: the members of
    [Object.prototype].  Their [call] is [Function.prototype.call], which
    runs them with the locales as [this]; [__proto__] is an object without
    a [call]. *)
Definition inherited_function (name : string) : option RuntimeFunction :=
  let returns (f : list string -> list (string * JSValue) -> JSValue) :=
    Some (mkFunction (fun locales opt _ => Ok (RetValue (f locales (default [] opt))))
            None false) in
  let throws (message : string) (object : bool) :=
    Some (mkFunction (fun _ _ _ => Throw (mk_error "TypeError" message))
            None object) in
  if String.eqb name "toString" then returns (fun _ _ => VStr "[object Array]")
  else if String.eqb name "toLocaleString"
  then returns (fun locales _ => VStr (join "," locales))
  else if String.eqb name "valueOf"
  then returns (fun locales _ => VArr (List.map VStr locales))
  else if String.eqb name "constructor" then returns (fun _ opt => VObj opt)
  else if String.eqb name "hasOwnProperty"
          || String.eqb name "isPrototypeOf"
          || String.eqb name "propertyIsEnumerable"
  then returns (fun _ _ => VBool false)
  else if String.eqb name "__lookupGetter__"
          || String.eqb name "__lookupSetter__"
  then returns (fun _ _ => VUndefined)
  else if String.eqb name "__defineGetter__"
          || String.eqb name "__defineSetter__"
  then throws (String.append "Object.prototype."
                 (String.append name ": Expecting function")) false
  else if String.eqb name "__proto__"
  then throws "rf.call is not a function" true
  else None.

(** A registry that is a plain object with the given entries. *)
Definition plain_registry (entries : gmap string RuntimeFunction) : Registry :=
  mkRegistry (fun name =>
    match entries !! name with
    | Some rf => Some rf
    | None => inherited_function name
    end).

(** A context with a scope and two registries, and no other messages. *)
Definition ref_context (locales : list string) (scope : JSValue)
    (format select : gmap string RuntimeFunction) : Context :=
  mkContext locales scope (fun _ _ => None)
    (mkRuntime (plain_registry format) (plain_registry select)).

(** A format function that always raises an [Error], one that throws
    [null], and a [plural] that knows the category of 1. *)
Definition always_throws : RuntimeFunction :=
  mkFunction (fun _ _ _ => Throw (mk_error "Error" "boom")) None true.

Definition throws_null : RuntimeFunction :=
  mkFunction (fun _ _ _ => Throw VNull) None true.

Definition plural_one : RuntimeFunction :=
  mkFunction
    (fun _ _ args =>
       match args with
       | [VNum (Some 1%Z)] => Ok (RetValue (VStr "one"))
       | _ => Ok (RetValue (VStr "other"))
       end) None true.

Definition failing_context : Context :=
  ref_context ["en"] (VObj [])
    (<["fail" := always_throws]> (<["null" := throws_null]> ∅)) ∅.

Definition plural_context : Context :=
  ref_context ["en"] (VObj []) ∅ (<["plural" := plural_one]> ∅).

Definition text (s : string) : Part := LiteralPart (LStr s) None.

(** One numeric selector and the variants [one] and [other]. *)
Definition one_other : Select :=
  mkSelect [mkSelector (LiteralPart (LNum (Some 1%Z)) None) None]
    [mkCase [LStr "one"] [text "X"]; mkCase [LStr "other"] [text "Y"]].

Definition other_one : Select :=
  mkSelect [mkSelector (LiteralPart (LNum (Some 1%Z)) None) None]
    [mkCase [LStr "other"] [text "Y"]; mkCase [LStr "one"] [text "X"]].

End RefRuntime.

(** ** The order of the spans the parser reports *)
Module ParserSpec.
Import Parser.

(** The options lie one after the other between [lo] and [hi], and none is
    empty. *)
Fixpoint options_ordered (lo : nat) (options : list OptionParsed) (hi : nat)
  : Prop :=
  match options with
  | [] => lo <= hi
  | o :: rest =>
    lo <= ostart o /\ ostart o < oend o /\ options_ordered (oend o) rest hi
  end.

(** The spans inside a body: the sigil at [start], the name after it, then
    the options in order up to the end of the body. *)
Definition body_ordered (b : Body) : Prop :=
  match b with
  | BExpression _ s e name options | BMarkupStart s e name options =>
    options_ordered (s + 1 + String.length name) options e
  | BMarkupEnd s e name => s + 1 + String.length name <= e
  | BValue v => True
  | BJunk s e _ => s <= e
  end.

Definition body_start (b : Body) : nat :=
  match b with
  | BValue v => vstart v
  | BExpression _ s _ _ _ | BMarkupStart s _ _ _ | BMarkupEnd s _ _
  | BJunk s _ _ => s
  end.

End ParserSpec.

(** ** Further readings of the specification, for the resolution engine *)
Module ResolveSpec.
Import Resolve.

Section Spec.
Context {N : JSNumber} {O : JSObjects}.

(** What a supported part resolves to: a literal to a Literal with its
    value, a variable to what its path gives. *)
Definition part_result (ctx : Context) (p : Part) : Formatted :=
  match p with
  | LiteralPart v m => FormattedLiteral (locales ctx) v (init_meta m)
  | VariablePart path m =>
    variable_result ctx (List.map (part_value ctx) path) m
  | _ => FormattedFallback (locales ctx) "" None
  end.

(** The string of a supported part: the value of a literal; for a variable
    the value its path leads to or, when it leads nowhere, the text [$] and
    the path joined by dots, in braces.  A value is written for the locales
    of the context. *)
Definition part_text (ctx : Context) (p : Part) : string :=
  match p with
  | LiteralPart v _ => value_toString (locales ctx) (lit_to_js v)
  | VariablePart path _ =>
    let keys := List.map (part_value ctx) path in
    match path, lookup_path (scope ctx) (List.map to_string keys) with
    | _ :: _, Some v => value_toString (locales ctx) v
    | _, _ =>
      String.append "{"
        (String.append (String.append "$" (js_join "." keys)) "}")
    end
  | _ => ""
  end.

(** The rendering of a list of formatted parts: their strings, in order. *)
Definition render (parts : list Formatted) : string :=
  fold_right String.append "" (List.map fmt_toString parts).

(** A part that is a function. *)
Definition is_function_part (p : Part) : bool :=
  match p with
  | FunctionPart _ _ _ _ => true
  | _ => false
  end.

(** A part that cannot be an argument: a function or a term. *)
Definition is_nested_call (p : Part) : bool :=
  match p with
  | FunctionPart _ _ _ _ | TermPart _ _ _ _ => true
  | _ => false
  end.

(** The value of an option value whose variables are supported, under a
    schema that takes anything. *)
Definition option_entry_value (ctx : Context) (value : OptionValue) : JSValue :=
  match value with
  | OVar path meta => part_value ctx (VariablePart path meta)
  | _ => option_value_js value
  end.

(** The name of a term in its fallback text: the path joined by dots,
    after the resource id and [::] when there is one. *)
Definition term_name (ctx : Context) (res_id : option string)
    (msg_path : list Part) : string :=
  let name := js_join "." (List.map (part_value ctx) msg_path) in
  match res_id with
  | Some id =>
    if res_id_truthy res_id then String.append id (String.append "::" name)
    else name
  | None => name
  end.

(** The text of a scope entry in the fallback of a term: the key, and the
    value as written, a list in brackets, a variable by its value. *)
Definition scope_entry_text (ctx : Context) (entry : string * OptionValue)
  : JSValue :=
  VStr (String.append entry.1
          (String.append ": "
             match entry.2 with
             | OArr items =>
               String.append "["
                 (String.append (js_join ", " (List.map lit_to_js items)) "]")
             | OVar path meta =>
               to_string (part_value ctx (VariablePart path meta))
             | OLit v => to_string (lit_to_js v)
             end)).

(** The path a term looks its message up with: the strings of its resolved
    segments. *)
Definition term_path (ctx : Context) (msg_path : list Part) : list string :=
  List.map (fun p => fmt_toString (part_result ctx p)) msg_path.

End Spec.

End ResolveSpec.

(** ** Sample contexts and messages *)
Module RefExamples.
Import Resolve RefRuntime.

Definition greeting : Message :=
  mkMessage None
    (BodyPattern [text "Hello "; VariablePart [text "name"] None;
                  text " of "; VariablePart [text "city"] None]).

(** A scope with two variables and a resource that has one message. *)
Definition greeting_context : Context :=
  mkContext ["en"] (VObj [("name", VStr "Ada"); ("city", VStr "Rome")])
    (fun _ path =>
       match path with
       | ["greeting"] => Some greeting
       | _ => None
       end)
    (mkRuntime (plain_registry ∅) (plain_registry ∅)).

(** A format function that returns a plain value, one that returns a
    Fallback with metadata of its own, and one that returns a Literal. *)
Definition upper_one : RuntimeFunction :=
  mkFunction (fun _ _ _ => Ok (RetValue (VStr "ONE"))) None true.

Definition tagged_fallback : RuntimeFunction :=
  mkFunction
    (fun locales _ _ =>
       Ok (RetFormatted
             (FormattedFallback locales "tag" (Some {["own" := MStr "kept"]}))))
    None true.

Definition tagged_literal : RuntimeFunction :=
  mkFunction
    (fun locales _ _ =>
       Ok (RetFormatted
             (FormattedLiteral locales (LStr "lit")
                (Some {["own" := MStr "kept"]}))))
    None true.

(** The three functions as format functions, and a [plural] that throws. *)
Definition function_context : Context :=
  ref_context ["en"] (VObj [])
    (<["upper" := upper_one]>
       (<["tag" := tagged_fallback]> (<["lit" := tagged_literal]> ∅)))
    (<["plural" := always_throws]> ∅).

End RefExamples.

(** ** The message accessor

    A shallow embedding of [packages/runtime/src/messages.ts]: the class
    [Messages] as far as it reads its data, and the functions [_get] and
    [_has].  The functions that write to [_data] and [_fallback] under
    keys of the caller are left out. *)
Module Accessor.

Section Model.
(** The properties a message function is called with and what the call
    gives; the accessor passes both through. *)
Context {P R : Type}.

(** [MessageData | MessageFunction | string], and what reading a property
    can give besides.  An object is the function from keys to what
    [obj[key]] reads, inherited properties included. *)
Inductive MessageValue : Type :=
| MUndefined
| MNull
| MString (s : string)
| MFunction (call : P -> R)
| MObject (props : string -> MessageValue).

Definition typeof_m (v : MessageValue) : string :=
  match v with
  | MUndefined => "undefined"
  | MNull | MObject _ => "object"
  | MString _ => "string"
  | MFunction _ => "function"
  end.

Definition truthy_m (v : MessageValue) : bool :=
  match v with
  | MUndefined | MNull => false
  | MString s => negb (String.eqb s "")
  | MFunction _ | MObject _ => true
  end.

(** [key: string | string[]] *)
Inductive Key : Type :=
| KName (key : string)
| KPath (path : list string).

(** The [for] loop of [_get]; [res] is truthy whenever the loop reads it. *)
Fixpoint get_path (res : MessageValue) (path : list string) {struct path}
  : MessageValue :=
  match path with
  | [] => res
  | k :: rest =>
    match res with
    | MObject props =>
      let res := props k in
      if truthy_m res then get_path res rest else MNull
    | _ => MNull
    end
  end.

(** [_get(obj, key)] *)
Definition _get (obj : MessageValue) (key : Key) : MessageValue :=
  if negb (truthy_m obj) then MNull
  else
    match key with
    | KPath path => get_path obj path
    | KName k =>
      match obj with
      | MObject props => props k
      | _ => MNull
      end
    end.

(** The [for] loop of [_has] over the fallback locales. *)
Fixpoint has_fallback (data : string -> MessageValue) (key : Key)
    (fallback : list string) (type : string) : bool :=
  match fallback with
  | [] => false
  | lc :: rest =>
    let msg := _get (data lc) key in
    if truthy_m msg then String.eqb (typeof_m msg) type
    else has_fallback data key rest type
  end.

(** [_has(data, lc, key, fallback, type)] *)
Definition _has (data : string -> MessageValue) (lc : string) (key : Key)
    (fallback : option (list string)) (type : string) : bool :=
  let msg := _get (data lc) key in
  if truthy_m msg then String.eqb (typeof_m msg) type
  else
    match fallback with
    | Some fb => has_fallback data key fb type
    | None => false
    end.

(** The fields of [Messages] as the class reads them: [_data[lc]],
    [Object.keys(_data)], and [_fallback[lc]], which is [None] when it is
    not truthy and otherwise the keys [fb[0]], ..., [fb[fb.length - 1]]. *)
Record Messages : Type := mkMessages {
  _data : string -> MessageValue;
  availableLocales : list string;
  _fallback : string -> option (list string);
  _defaultLocale : option string;
  _locale : option string
}.

(** [String(locale)] for [string | null] *)
Definition js_String (locale : option string) : string :=
  match locale with
  | Some l => l
  | None => "null"
  end.

Definition locale_truthy (locale : option string) : bool :=
  match locale with
  | Some l => negb (String.eqb l "")
  | None => false
  end.

(** [locale || String(this.locale)] *)
Definition or_current (st : Messages) (locale : option string) : string :=
  match locale with
  | Some l => if String.eqb l "" then js_String (_locale st) else l
  | None => js_String (_locale st)
  end.

(** [getFallback(locale)] *)
Definition getFallback (st : Messages) (locale : option string) : list string :=
  let lc := or_current st locale in
  match _fallback st lc with
  | Some fb => fb
  | None =>
    match _defaultLocale st with
    | Some d =>
      if String.eqb lc d || negb (locale_truthy (Some d)) then [] else [d]
    | None => []
    end
  end.

(** [hasMessage(key, locale, fallback)] and [hasObject(key, locale, fallback)] *)
Definition hasMessage (st : Messages) (key : Key) (locale : option string)
    (fallback : bool) : bool :=
  let lc := or_current st locale in
  let fb := if fallback then Some (getFallback st (Some lc)) else None in
  _has (_data st) lc key fb "function".

Definition hasObject (st : Messages) (key : Key) (locale : option string)
    (fallback : bool) : bool :=
  let lc := or_current st locale in
  let fb := if fallback then Some (getFallback st (Some lc)) else None in
  _has (_data st) lc key fb "object".

(** What [get] returns: the result of calling a message function, a value
    that is not a function, or the key. *)
Inductive GetResult : Type :=
| Called (result : R)
| Found (value : MessageValue)
| NotFound (key : Key).

(** [typeof msg == 'function' ? msg(props) : msg] *)
Definition call_or_value (msg : MessageValue) (props : P) : GetResult :=
  match msg with
  | MFunction call => Called (call props)
  | _ => Found msg
  end.

(** The [for] loop of [get] *)
Fixpoint get_fallback (st : Messages) (key : Key) (props : P)
    (fb : list string) : GetResult :=
  match fb with
  | [] => NotFound key
  | lc :: rest =>
    let msg := _get (_data st lc) key in
    if truthy_m msg then call_or_value msg props
    else get_fallback st key props rest
  end.

(** [get(key, props, locale)] *)
Definition get (st : Messages) (key : Key) (props : P)
    (locale : option string) : GetResult :=
  let lc := or_current st locale in
  let msg := _get (_data st lc) key in
  if truthy_m msg then call_or_value msg props
  else get_fallback st key props (getFallback st (Some lc)).

(** *** Resolving a locale *)

Definition is_separator (c : ascii) : bool :=
  Ascii.eqb c "-" || Ascii.eqb c "_".

Fixpoint has_separator (s : string) : bool :=
  match s with
  | EmptyString => false
  | String c rest => is_separator c || has_separator rest
  end.

(** [lc.replace(/[-_]?[^-_]*$/, '')]: the pattern matches from the last
    [-] or [_] to the end, and all of a string that has neither. *)
Fixpoint strip_last (lc : string) : string :=
  match lc with
  | EmptyString => EmptyString
  | String c rest =>
    if has_separator rest then String c (strip_last rest) else EmptyString
  end.

(** The [while] loop of [resolveLocale]: [None] is the loop still running
    when the fuel is gone, [Some None] the loop left without a match. *)
Fixpoint strip_loop (fuel : nat) (st : Messages) (lc : string)
  : option (option string) :=
  match fuel with
  | 0 => None
  | S fuel =>
    let lc := strip_last lc in
    if String.eqb lc "" then Some None
    else if truthy_m (_data st lc) then Some (Some lc)
    else strip_loop fuel st lc
  end.

(** What [resolveLocale] does: it returns a locale or [null], or
    [new RegExp] raises a [SyntaxError]. *)
Inductive Resolution : Type :=
| Resolved (locale : option string)
| RegExpError
| OutOfFuel.

(** [new RegExp(source)]: [None] when the source is not a pattern,
    otherwise what [re.test] answers. *)
Context (regexp : string -> option (string -> bool)).

(** [resolveLocale(locale)] *)
Definition resolveLocale (fuel : nat) (st : Messages) (locale : option string)
  : Resolution :=
  let lc := js_String locale in
  if truthy_m (_data st lc) then Resolved locale
  else
    match locale with
    | Some l =>
      if String.eqb l "" then Resolved None
      else
        match strip_loop fuel st lc with
        | None => OutOfFuel
        | Some (Some found) => Resolved (Some found)
        | Some None =>
          match regexp (String.append "^" (String.append l "[-_]")) with
          | None => RegExpError
          | Some test => Resolved (List.find test (availableLocales st))
          end
        end
    | None => Resolved None
    end.

End Model.

(** [p] is [l] cut in front of one of its separators. *)
Definition cut_of (p l : string) : Prop :=
  exists c rest, l = String.append p (String c rest) /\ is_separator c = true.

Arguments MessageValue : clear implicits.
Arguments Messages : clear implicits.
Arguments GetResult : clear implicits.

End Accessor.

(** A pattern source for the locales that are made of letters, digits, [-]
    and [_], which stand for themselves in a pattern. *)
Module RefRegExp.
Import Accessor.

Definition is_plain (c : ascii) : bool :=
  RefLexer.in_range "a" "z" c || RefLexer.in_range "A" "Z" c ||
  RefLexer.in_range "0" "9" c || is_separator c.

Fixpoint all_plain (s : string) : bool :=
  match s with
  | EmptyString => true
  | String c rest => is_plain c && all_plain rest
  end.

(** [s] starts with [w] and then has a [-] or [_]. *)
Fixpoint starts_with_tag (w s : string) : bool :=
  match w, s with
  | EmptyString, String c _ => is_separator c
  | String a w, String b s => Ascii.eqb a b && starts_with_tag w s
  | _, EmptyString => false
  end.

(** Modelled from the spec: [new RegExp('^' + locale + '[-_]')] of the
    language runtime, for a plain locale: the test of a prefix. *)
Definition ref_regexp (source : string) : option (string -> bool) :=
  match source with
  | String "^" rest =>
    let n := String.length rest - 4 in
    let w := String.substring 0 n rest in
    if String.eqb (String.substring n 4 rest) "[-_]" && all_plain w
    then Some (starts_with_tag w)
    else None
  | _ => None
  end.

(** Messages for [en] and [fi-FI]; the default locale is [en]. *)
Definition sample_data (lc : string) : MessageValue unit string :=
  if String.eqb lc "en"
  then MObject (fun key => if String.eqb key "a"
                           then MFunction (fun _ => "An example.")
                           else MUndefined)
  else if String.eqb lc "fi-FI"
  then MObject (fun key => if String.eqb key "e"
                           then MFunction (fun _ => "Esimerkki.")
                           else MUndefined)
  else MUndefined.

Definition sample : Messages unit string :=
  mkMessages sample_data ["en"; "fi-FI"] (fun _ => None) (Some "en")
    (Some "fi-FI").

End RefRegExp.

(** ** Select arguments of a MessageFormat 1 message

    The functions of the MessageFormat 1 conversion that collect the select
    arguments of a message: [asPluralKey], [asSelectArg], [equalSelectArgs]
    and [findSelectArgs]. *)
Module Mf1.
Import Resolve.

Section Model.
Context {N : JSNumber}.

(** ['plural' | 'select' | 'selectordinal'] *)
Inductive SelectType : Type := Plural | SelectT | SelectOrdinal.

Definition select_type_eqb (a b : SelectType) : bool :=
  match a, b with
  | Plural, Plural | SelectT, SelectT | SelectOrdinal, SelectOrdinal => true
  | _, _ => false
  end.

(** The tokens of the MessageFormat 1 parser, with the fields the
    conversion reads: [content], [argument], [function], [octothorpe] and
    the three kinds of select with their cases [{ key, tokens }]. *)
Inductive Token : Type :=
| Content (value : string)
| PlainArg (arg : string)
| FunctionArg (arg key : string) (param : option (list Token))
| Octothorpe
| SelectToken (type : SelectType) (arg : string)
              (pluralOffset : option number)
              (cases : list (string * list Token)).

(** [keys: (string | number)[]] *)
Inductive SelectKey : Type :=
| KeyString (s : string)
| KeyNumber (n : number).

(** [SelectArg]; a [pluralOffset] that is not there reads as [undefined]. *)
Record SelectArg : Type := mkSelectArg {
  sa_type : SelectType;
  sa_arg : string;
  sa_keys : list SelectKey;
  sa_pluralOffset : option number
}.

Fixpoint all_digits (s : string) : bool :=
  match s with
  | EmptyString => true
  | String c rest => is_digit c && all_digits rest
  end.

(** [/^=\d+$/.test(key) ? Number(key.substring(1)) : key] *)
Definition asPluralKey (key : string) : SelectKey :=
  match key with
  | String "=" (String c rest as digits) =>
    if all_digits digits then KeyNumber (str_to_num digits)
    else KeyString key
  | _ => KeyString key
  end.

(** [asSelectArg(sel)] *)
Definition asSelectArg (type : SelectType) (arg : string)
    (pluralOffset : option number) (cases : list (string * list Token))
  : SelectArg :=
  let isPlural := negb (select_type_eqb type SelectT) in
  mkSelectArg type arg
    (List.map (fun c => if isPlural then asPluralKey c.1 else KeyString c.1)
       cases)
    pluralOffset.

(** [a.pluralOffset === b.pluralOffset] for [number | undefined] *)
Definition offset_eq (a b : option number) : bool :=
  match a, b with
  | Some x, Some y => num_strict_eq x y
  | None, None => true
  | _, _ => false
  end.

(** [equalSelectArgs(a)(b)] *)
Definition equalSelectArgs (a b : SelectArg) : bool :=
  String.eqb (sa_arg a) (sa_arg b) &&
  offset_eq (sa_pluralOffset a) (sa_pluralOffset b) &&
  select_type_eqb (sa_type a) (sa_type b).

(** [add(arg)] of [findSelectArgs], on the list [args]: the keys go to the
    first equal argument there is, or the argument is appended. *)
Fixpoint add (args : list SelectArg) (arg : SelectArg) : list SelectArg :=
  match args with
  | [] => [arg]
  | prev :: rest =>
    if equalSelectArgs arg prev
    then mkSelectArg (sa_type prev) (sa_arg prev)
           (sa_keys prev ++ sa_keys arg) (sa_pluralOffset prev) :: rest
    else prev :: add rest arg
  end.

(** The body of the loop of [findSelectArgs] for one token. *)
Fixpoint token_adds (t : Token) (args : list SelectArg) {struct t}
  : list SelectArg :=
  match t with
  | SelectToken type arg pluralOffset cases =>
    (fix cases_loop (cs : list (string * list Token)) (args : list SelectArg)
       : list SelectArg :=
       match cs with
       | [] => args
       | (_, tokens) :: cs =>
         let nested :=
           (fix tokens_loop (ts : list Token) (acc : list SelectArg)
              : list SelectArg :=
              match ts with
              | [] => acc
              | t :: ts => tokens_loop ts (token_adds t acc)
              end) tokens [] in
         cases_loop cs (fold_left add nested args)
       end) cases (add args (asSelectArg type arg pluralOffset cases))
  | _ => args
  end.

(** [findSelectArgs(tokens)] *)
Definition findSelectArgs (tokens : list Token) : list SelectArg :=
  fold_left (fun args t => token_adds t args) tokens [].

(** *** What the collection keeps *)

(** The arguments one token adds, in the order of the calls of [add]. *)
Definition token_added (t : Token) : list SelectArg :=
  match t with
  | SelectToken type arg pluralOffset cases =>
    asSelectArg type arg pluralOffset cases ::
    flat_map (fun c => findSelectArgs c.2) cases
  | _ => []
  end.

(** [entry] stands for [arg] and has the keys of [arg] among its own,
    together and in order. *)
Definition holds_keys (arg entry : SelectArg) : Prop :=
  equalSelectArgs arg entry = true /\
  exists before after,
    sa_keys entry = before ++ sa_keys arg ++ after.

(** No argument of the list equals one before it. *)
Fixpoint distinct_args (args : list SelectArg) : Prop :=
  match args with
  | [] => True
  | prev :: rest =>
    Forall (fun arg => equalSelectArgs arg prev = false) rest /\
    distinct_args rest
  end.

(** The number of cases of the selects of a message, those inside cases
    included. *)
Fixpoint token_cases (t : Token) : nat :=
  match t with
  | SelectToken _ _ _ cases =>
    length cases +
    (fix cases_sum (cs : list (string * list Token)) : nat :=
       match cs with
       | [] => 0
       | (_, tokens) :: cs =>
         (fix tokens_sum (ts : list Token) : nat :=
            match ts with
            | [] => 0
            | t :: ts => token_cases t + tokens_sum ts
            end) tokens + cases_sum cs
       end) cases
  | _ => 0
  end.

Definition count_cases (tokens : list Token) : nat :=
  fold_right (fun t n => token_cases t + n) 0 tokens.

Definition count_keys (args : list SelectArg) : nat :=
  fold_right (fun arg n => length (sa_keys arg) + n) 0 args.

End Model.

End Mf1.

(** A message with a plural of [n] that has a select of [g] inside, and a
    second plural of [n]. *)
Module RefMf1.
Import Resolve Mf1 RefRuntime.

Definition sample_tokens : list Token :=
  [Content "You have ";
   SelectToken Plural "n" None
     [("=0", [Content "none"]);
      ("one", [Octothorpe;
               SelectToken SelectT "g" None [("f", []); ("other", [])]]);
      ("other", [Octothorpe])];
   SelectToken Plural "n" None [("one", []); ("few", [])]].

End RefMf1.

(** * Properties of the placeholder parser *)

Module ParserProps.
Import Parser.

Section Bounds.
Context {L : Lexer} (HL : LexerInBounds L).

Lemma char_is_lt src pos c : char_is src pos c = true -> pos < String.length src.
Proof.
  unfold char_is, charAt. revert pos.
  induction src as [|a src IH]; intros [|pos]; simpl; try discriminate; try lia.
  intros H. apply IH in H. lia.
Qed.

Lemma parseOptionValue_bounds src pos :
  pos <= String.length src ->
  pos <= vend (parseOptionValue src pos).1 <= String.length src.
Proof.
  intros Hpos. unfold parseOptionValue.
  destruct (char_is src pos "(") eqn:E1.
  { apply (literal_in_bounds _ HL), (char_is_lt _ _ _ E1). }
  destruct (char_is src pos "$") eqn:E2.
  { apply (variable_in_bounds _ HL), (char_is_lt _ _ _ E2). }
  by apply (nmtoken_in_bounds _ HL).
Qed.

Lemma parseOption_bounds src start errors :
  start <= String.length src ->
  start <= oend (parseOption src start errors).1 <= String.length src.
Proof.
  intros Hs. unfold parseOption.
  pose proof (name_in_bounds _ HL src start Hs) as Hn.
  set (p1 := start + String.length (parseNameValue src start)) in *.
  pose proof (ws_in_bounds _ HL src p1 Hn) as Hw.
  set (p2 := p1 + whitespaces src p1) in *.
  destruct (char_is src p2 "=") eqn:Eq.
  - apply char_is_lt in Eq.
    assert (Hp3 : p2 + 1 <= String.length src) by lia.
    pose proof (ws_in_bounds _ HL src _ Hp3) as Hw3.
    pose proof (parseOptionValue_bounds src _ Hw3) as Hv.
    destruct (parseOptionValue src (p2 + 1 + whitespaces src (p2 + 1))) as [v es].
    simpl in *. lia.
  - pose proof (ws_in_bounds _ HL src _ Hw) as Hw3.
    pose proof (parseOptionValue_bounds src _ Hw3) as Hv.
    destruct (parseOptionValue src (p2 + whitespaces src p2)) as [v es].
    simpl in *. lia.
Qed.

(** The option loop stops: every turn moves [pos] forward, and [pos] never
    leaves the source. *)
Lemma parseOptions_terminates fuel src pos errors options :
  pos <= String.length src ->
  String.length src - pos <= fuel ->
  exists pos' errors' options',
    parseOptions fuel src pos errors options = Some (pos', errors', options')
    /\ pos <= pos' <= String.length src.
Proof.
  revert pos errors options.
  induction fuel as [|fuel IH]; intros pos errors options Hpos Hfuel; simpl.
  - destruct (pos <? String.length src) eqn:E.
    + apply Nat.ltb_lt in E. lia.
    + eauto 6.
  - destruct (pos <? String.length src) eqn:E; [|eauto 6].
    destruct (char_is src (pos + whitespaces src pos) "}"); [eauto 6|].
    pose proof (ws_in_bounds _ HL src pos Hpos) as Hw.
    set (errs := if whitespaces src pos =? 0 then _ else _).
    pose proof (parseOption_bounds src _ errs Hw) as Ho.
    destruct (parseOption src (pos + whitespaces src pos) errs) as [opt es].
    simpl in Ho.
    destruct (oend opt =? pos + whitespaces src pos) eqn:Ee.
    + eexists _, _, _. split; [done|lia].
    + apply Nat.eqb_neq in Ee.
      destruct (IH (oend opt) es (options ++ [opt])) as (p' & e' & o' & Hr & Hb);
        [lia|lia|].
      eexists _, _, _. split; [exact Hr|lia].
Qed.

Lemma parseExpressionOrMarkup_bounds fuel src start operand errors :
  start < String.length src ->
  String.length src <= fuel ->
  exists body errors',
    parseExpressionOrMarkup fuel src start operand errors = Some (body, errors')
    /\ start < body_end body <= String.length src.
Proof.
  intros Hs Hf. unfold parseExpressionOrMarkup.
  assert (H1 : start + 1 <= String.length src) by lia.
  pose proof (name_in_bounds _ HL src _ H1) as Hn.
  set (errs := if String.eqb _ "" then _ else _).
  destruct (parseOptions_terminates fuel src _ errs [] Hn)
    as (p' & e' & o' & Hr & Hb); [lia|].
  rewrite Hr.
  destruct (char_is src start ":"); [eexists _, _; split; [done|simpl; lia]|].
  destruct (char_is src start "+"); eexists _, _; (split; [done|simpl; lia]).
Qed.

Lemma parseOperand_bounds src pos errors :
  pos <= String.length src ->
  pos <= (parseOperand src pos errors).1.2 <= String.length src.
Proof.
  intros Hp. unfold parseOperand.
  destruct (char_is src pos "(") eqn:E1.
  { pose proof (literal_in_bounds _ HL src pos (char_is_lt _ _ _ E1)).
    destruct (parseLiteral src pos); simpl in *; lia. }
  destruct (char_is src pos "$") eqn:E2.
  { pose proof (variable_in_bounds _ HL src pos (char_is_lt _ _ _ E2)).
    destruct (parseVariable src pos); simpl in *; lia. }
  simpl; lia.
Qed.

Lemma is_sigil_lt src pos : is_sigil src pos = true -> pos < String.length src.
Proof.
  unfold is_sigil. intros H.
  apply orb_true_iff in H as [H|H]; [apply orb_true_iff in H as [H|H]|];
    by apply char_is_lt in H.
Qed.

Lemma parseBody_bounds fuel src start errors :
  start < String.length src ->
  String.length src <= fuel ->
  exists body pos errors' junk,
    parseBody fuel src start errors = Some (body, pos, errors', junk)
    /\ start < pos <= String.length src /\ operandStart src start <= pos.
Proof.
  intros Hs Hf. unfold parseBody, operandStart.
  assert (H1 : start + 1 <= String.length src) by lia.
  pose proof (ws_in_bounds _ HL src _ H1) as Hw1.
  pose proof (parseOperand_bounds src _ errors Hw1) as Hop.
  destruct (parseOperand src _ errors) as [[arg p2] es]. simpl in Hop.
  assert (Hp2 : p2 <= String.length src) by lia.
  pose proof (ws_in_bounds _ HL src _ Hp2) as Hw2.
  destruct (is_sigil src (p2 + whitespaces src p2)) eqn:Es.
  - destruct (parseExpressionOrMarkup_bounds fuel src _ arg es
                (is_sigil_lt _ _ Es) Hf) as (b & e' & Hr & Hb).
    rewrite Hr.
    assert (Hbe : body_end b <= String.length src) by lia.
    pose proof (ws_in_bounds _ HL src _ Hbe).
    eexists _, _, _, _. split; [done|lia].
  - pose proof (ws_in_bounds _ HL src _ Hw2).
    destruct arg; eexists _, _, _, _; (split; [done|lia]).
Qed.

Lemma skipToClose_bounds src pos n :
  pos <= String.length src ->
  pos <= skipToClose src pos n <= String.length src.
Proof.
  revert pos. induction n as [|n IH]; intros pos Hp; simpl; [lia|].
  destruct (pos <? String.length src) eqn:E; simpl; [|lia].
  apply Nat.ltb_lt in E.
  destruct (char_is src pos "}"); simpl; [lia|].
  specialize (IH (pos + 1)). lia.
Qed.

Lemma closePlaceholder_bounds src start body pos errors junk :
  start < pos <= String.length src ->
  let r := closePlaceholder src start (body, pos, errors, junk) in
  pstart r.1 = start /\ start < pend r.1 <= String.length src.
Proof.
  intros Hp. unfold closePlaceholder.
  destruct (String.length src <=? pos) eqn:E1; [simpl; lia|].
  apply Nat.leb_gt in E1.
  destruct (char_is src pos "}") eqn:E2; simpl; [lia|].
  pose proof (skipToClose_bounds src pos (String.length src - pos)).
  destruct body; simpl; lia.
Qed.

End Bounds.

(** *** Which errors a call records

    Apart from the one [unshift], every function appends to [errors].  The
    section follows an arbitrary property [Q] of errors through the parser:
    if the helpers only report [Q]-errors at or after [lo], and the parser's
    own body errors at or after [lo] are [Q]-errors, then so is everything
    recorded while parsing a body that starts at or after [lo]. *)
Section Recorded.
Context {L : Lexer} (HL : LexerInBounds L).
Variables (Q : ParseError -> Prop) (lo : nat).
Hypothesis Q_nmtoken : forall src pos, lo <= pos -> Forall Q (parseNmtoken src pos).2.
Hypothesis Q_literal : forall src pos, lo <= pos -> Forall Q (parseLiteral src pos).2.
Hypothesis Q_variable : forall src pos, lo <= pos -> Forall Q (parseVariable src pos).2.
Hypothesis Q_missing_eq : forall pos, lo <= pos -> Q (MissingChar "=" pos).
Hypothesis Q_missing_sp : forall pos, lo <= pos -> Q (MissingChar " " pos).
Hypothesis Q_empty : forall pos, lo <= pos -> Q (EmptyToken pos).
Hypothesis Q_extra : forall s e, lo <= s -> Q (ExtraContent s e).
Hypothesis Q_junk : forall s e, lo <= s -> Q (ParseErrorE s e).

Lemma parseOptionValue_recorded src pos :
  lo <= pos -> Forall Q (parseOptionValue src pos).2.
Proof.
  intros Hp. unfold parseOptionValue.
  destruct (char_is src pos "("); [by apply Q_literal|].
  destruct (char_is src pos "$"); [by apply Q_variable|by apply Q_nmtoken].
Qed.

Lemma parseOption_recorded src start errors :
  lo <= start ->
  exists added,
    (parseOption src start errors).2 = errors ++ added /\ Forall Q added.
Proof.
  intros Hs. unfold parseOption.
  set (p2 := start + _ + whitespaces src _).
  destruct (char_is src p2 "=").
  - pose proof (parseOptionValue_recorded src (p2 + 1 + whitespaces src (p2 + 1))) as Hv.
    destruct (parseOptionValue src _) as [v es]. simpl in *.
    exists es. split; [done|]. apply Hv. lia.
  - pose proof (parseOptionValue_recorded src (p2 + whitespaces src p2)) as Hv.
    destruct (parseOptionValue src _) as [v es]. simpl in *.
    exists (MissingChar "=" p2 :: es). split; [by rewrite <- app_assoc|].
    constructor; [apply Q_missing_eq; lia|apply Hv; lia].
Qed.

Lemma parseOption_ostart src start errors :
  ostart (parseOption src start errors).1 = start.
Proof.
  unfold parseOption.
  destruct (char_is src _ "="); by destruct (parseOptionValue src _).
Qed.

Lemma parseOptions_recorded fuel src pos errors options pos' errors' options' :
  lo <= pos -> pos <= String.length src ->
  parseOptions fuel src pos errors options = Some (pos', errors', options') ->
  exists added new,
    errors' = errors ++ added /\ Forall Q added /\
    options' = options ++ new /\ Forall (fun o => lo <= ostart o) new.
Proof.
  revert pos errors options.
  induction fuel as [|fuel IH]; intros pos errors options Hlo Hpos; simpl.
  - destruct (pos <? String.length src); [done|].
    intros [= <- <- <-]. exists [], []. by rewrite !app_nil_r.
  - destruct (pos <? String.length src);
      [|intros [= <- <- <-]; exists [], []; by rewrite !app_nil_r].
    destruct (char_is src (pos + whitespaces src pos) "}");
      [intros [= <- <- <-]; exists [], []; by rewrite !app_nil_r|].
    set (errs := if whitespaces src pos =? 0 then _ else _).
    assert (Herrs : exists a0, errs = errors ++ a0 /\ Forall Q a0).
    { subst errs. destruct (whitespaces src pos =? 0).
      - exists [MissingChar " " pos]. split; [done|].
        constructor; [by apply Q_missing_sp|constructor].
      - exists []. by rewrite app_nil_r. }
    destruct Herrs as (a0 & -> & Ha0).
    pose proof (ws_in_bounds _ HL src pos Hpos) as Hw.
    pose proof (parseOption_bounds HL src _ (errors ++ a0) Hw) as Hob.
    pose proof (parseOption_ostart src (pos + whitespaces src pos) (errors ++ a0)) as Hos.
    destruct (parseOption_recorded src (pos + whitespaces src pos) (errors ++ a0))
      as (a1 & Ha1 & HQ1); [lia|].
    destruct (parseOption src _ (errors ++ a0)) as [opt es]. simpl in *. subst es.
    destruct (oend opt =? pos + whitespaces src pos).
    + intros [= <- <- <-]. exists (a0 ++ a1), [].
      rewrite !app_nil_r, app_assoc. repeat split; [|constructor].
      by apply Forall_app.
    + intros Hr. apply IH in Hr as (a2 & new & -> & HQ2 & -> & Hnew); [|lia|lia].
      exists (a0 ++ a1 ++ a2), (opt :: new).
      rewrite <- !app_assoc. repeat split.
      * by rewrite !Forall_app.
      * constructor; [lia|done].
Qed.

Lemma parseExpressionOrMarkup_recorded fuel src start operand errors body errors' :
  lo <= start -> start < String.length src ->
  parseExpressionOrMarkup fuel src start operand errors = Some (body, errors') ->
  exists added,
    errors' = unshifted src start operand ++ errors ++ added /\ Forall Q added.
Proof.
  intros Hlo Hs. unfold parseExpressionOrMarkup, unshifted.
  set (errs := if String.eqb _ "" then _ else _).
  assert (Herrs : exists a0, errs = errors ++ a0 /\ Forall Q a0).
  { subst errs. destruct (String.eqb _ "").
    - exists [EmptyToken (start + 1)]. split; [done|].
      constructor; [apply Q_empty; lia|constructor].
    - exists []. by rewrite app_nil_r. }
  destruct Herrs as (a0 & -> & Ha0).
  destruct (parseOptions fuel src _ (errors ++ a0) []) as [[[p e] o]|] eqn:Hr; [|done].
  apply parseOptions_recorded in Hr as (a1 & new & -> & HQ1 & Hnew & Hlo');
    [|lia|].
  2:{ assert (H1 : start + 1 <= String.length src) by lia.
      apply (name_in_bounds _ HL src _ H1). }
  simpl in Hnew. subst o.
  assert (HQ01 : Forall Q (a0 ++ a1)) by by apply Forall_app.
  destruct (char_is src start ":").
  { intros [= <- <-]. exists (a0 ++ a1). by rewrite <- !app_assoc. }
  assert (Hfin : forall pre : list ParseError,
    exists added,
      match new with
      | [] => pre ++ (errors ++ a0) ++ a1
      | o :: _ => (pre ++ (errors ++ a0) ++ a1)
                  ++ [ExtraContent (ostart o) (oend (List.last new o))]
      end = pre ++ errors ++ added /\ Forall Q added).
  { intros pre. destruct new as [|o new'].
    - exists (a0 ++ a1). by rewrite <- !app_assoc.
    - exists ((a0 ++ a1) ++ [ExtraContent (ostart o) (oend (List.last (o :: new') o))]).
      split; [by rewrite <- !app_assoc|].
      apply Forall_app. split; [done|].
      constructor; [|constructor]. apply Q_extra. by inversion Hlo'. }
  destruct (char_is src start "+").
  - intros [= <- <-]. exists (a0 ++ a1).
    destruct operand; simpl; by rewrite <- !app_assoc.
  - intros [= <- <-].
    destruct operand as [op|].
    + destruct (Hfin [ExtraContent (vstart op) (vend op)]) as (added & He & HQ).
      exists added. split; [|done].
      simpl in He. simpl. destruct new; exact He.
    + destruct (Hfin []) as (added & He & HQ).
      exists added. split; [|done].
      simpl in He. simpl. destruct new; exact He.
Qed.

Lemma parseOperand_frame src pos errors :
  parseOperand src pos errors =
  ((parseOperand src pos []).1.1, (parseOperand src pos []).1.2,
   errors ++ (parseOperand src pos []).2).
Proof.
  unfold parseOperand.
  destruct (char_is src pos "("); [by destruct (parseLiteral src pos)|].
  destruct (char_is src pos "$"); [by destruct (parseVariable src pos)|].
  by rewrite app_nil_r.
Qed.

Lemma parseOperand_recorded src pos :
  lo <= pos -> Forall Q (parseOperand src pos []).2.
Proof.
  intros Hp. unfold parseOperand.
  destruct (char_is src pos "(").
  { pose proof (Q_literal src pos Hp). by destruct (parseLiteral src pos). }
  destruct (char_is src pos "$").
  { pose proof (Q_variable src pos Hp). by destruct (parseVariable src pos). }
  constructor.
Qed.

(** Everything [parseBody] records, around what was there before. *)
Lemma parseBody_recorded fuel src start errors body pos errors' junk :
  lo <= operandStart src start -> start < String.length src ->
  parseBody fuel src start errors = Some (body, pos, errors', junk) ->
  exists added,
    errors' =
      (if is_sigil src (tailStart src start)
       then unshifted src (tailStart src start) (parsedOperand src start)
       else []) ++ errors ++ added
    /\ Forall Q added.
Proof.
  unfold parseBody, tailStart, parsedOperand, operandStart. intros Hlo Hs.
  rewrite (parseOperand_frame src _ errors).
  set (p1 := start + 1 + whitespaces src (start + 1)).
  assert (Hp1 : p1 <= String.length src)
    by (apply (ws_in_bounds _ HL); lia).
  pose proof (parseOperand_recorded src p1) as HQop.
  pose proof (parseOperand_bounds HL src p1 [] Hp1) as Hob.
  destruct (parseOperand src p1 []) as [[arg p2] es1]. simpl in *.
  destruct (is_sigil src (p2 + whitespaces src p2)) eqn:Es.
  - destruct (parseExpressionOrMarkup fuel src _ arg (errors ++ es1))
      as [[b e]|] eqn:Hr; [|done].
    apply parseExpressionOrMarkup_recorded in Hr as (added & -> & HQ);
      [|lia|by apply is_sigil_lt].
    intros [= <- <- <- <-]. exists (es1 ++ added).
    rewrite <- !app_assoc. split; [done|].
    apply Forall_app. split; [apply HQop; lia|done].
  - destruct arg.
    + intros [= <- <- <- <-]. exists es1. split; [done|]. apply HQop. lia.
    + intros [= <- <- <- <-]. exists (es1 ++ [ParseErrorE (p2 + whitespaces src p2) (p2 + whitespaces src p2)]).
      simpl. rewrite <- !app_assoc. split; [done|].
      apply Forall_app. split; [apply HQop; lia|].
      constructor; [apply Q_junk; lia|constructor].
Qed.

End Recorded.

(** *** The closing brace *)
Section Closing.
Context {L : Lexer}.

Lemma count_missing_app c l1 l2 :
  count_missing c (l1 ++ l2) = count_missing c l1 + count_missing c l2.
Proof. unfold count_missing. by rewrite List.filter_app, length_app. Qed.

Lemma count_missing_alter c pos i errors :
  count_missing c (alter (set_err_end pos) i errors) = count_missing c errors.
Proof.
  unfold count_missing. revert i.
  induction errors as [|e errors IH]; intros [|i]; simpl; try done.
  - by destruct e.
  - specialize (IH i). unfold alter in IH.
    destruct (is_missing_char c e); simpl; by rewrite IH.
Qed.

Lemma count_missing_zero c errors :
  Forall (fun e => is_missing_char c e = false) errors ->
  count_missing c errors = 0.
Proof.
  unfold count_missing. induction 1 as [|e l He _ IH]; simpl; [done|].
  by rewrite He.
Qed.

(** At end-of-input one [missing-char] error for the brace is pushed, at
    end-of-input; anywhere else, none is. *)
Lemma closePlaceholder_missing src start body pos errors junk :
  pos <= String.length src ->
  let r := closePlaceholder src start (body, pos, errors, junk) in
  (pos = String.length src ->
     pend r.1 = String.length src /\
     r.2 = errors ++ [MissingChar "}" (String.length src)]) /\
  (pos < String.length src ->
     count_missing "}" r.2 = count_missing "}" errors).
Proof.
  intros Hp. unfold closePlaceholder. split.
  - intros ->. by rewrite Nat.leb_refl.
  - intros Hlt. apply Nat.leb_gt in Hlt as E. rewrite E.
    destruct (char_is src pos "}"); simpl; [done|].
    destruct body; simpl; rewrite ?count_missing_app;
      try (unfold count_missing; simpl; lia).
    destruct junk; [apply count_missing_alter|done].
Qed.

End Closing.

(** *** An operand in front of a markup tail *)
Section MarkupOperand.
Context {L : Lexer} (HL : LexerInBounds L) (HE : LexerErrorsLocal L).

Lemma char_is_inj src pos c d :
  char_is src pos c = true -> char_is src pos d = true -> c = d.
Proof.
  unfold char_is. destruct (charAt src pos); [|done].
  intros H1 H2. apply Ascii.eqb_eq in H1, H2. congruence.
Qed.

Lemma parsedOperand_Some src start op :
  parsedOperand src start = Some op ->
  operandStart src start < String.length src /\
  vstart op = operandStart src start.
Proof.
  unfold parsedOperand, parseOperand.
  destruct (char_is src _ "(") eqn:E1.
  { pose proof (literal_errors_local _ HE src (operandStart src start)) as [Hv _].
    destruct (parseLiteral src _). simpl in *. intros [= <-].
    split; [by apply char_is_lt in E1|done]. }
  destruct (char_is src _ "$") eqn:E2; [|done].
  pose proof (variable_errors_local _ HE src (operandStart src start)) as [Hv _].
  destruct (parseVariable src _). simpl in *. intros [= <-].
  split; [by apply char_is_lt in E2|done].
Qed.

Lemma parseExpressionOrMarkup_markup fuel src start operand errors body errors' :
  char_is src start ":" = false ->
  parseExpressionOrMarkup fuel src start operand errors = Some (body, errors') ->
  is_markup body = true /\ body_operand body = None.
Proof.
  intros Hc. unfold parseExpressionOrMarkup. rewrite Hc.
  destruct (parseOptions fuel src _ _ []) as [[[p e] o]|]; [|done].
  destruct (char_is src start "+"); by intros [= <- <-].
Qed.

Lemma parseBody_markup fuel src start errors body pos errors' junk :
  is_sigil src (tailStart src start) = true ->
  char_is src (tailStart src start) ":" = false ->
  parseBody fuel src start errors = Some (body, pos, errors', junk) ->
  is_markup body = true /\ body_operand body = None /\
  pos = body_end body + whitespaces src (body_end body).
Proof.
  unfold parseBody, tailStart, operandStart.
  rewrite (parseOperand_frame src _ errors).
  destruct (parseOperand src _ []) as [[arg p2] es1]. simpl.
  intros -> Hc.
  destruct (parseExpressionOrMarkup fuel src _ arg (errors ++ es1))
    as [[b e]|] eqn:Hr; [|done].
  apply (parseExpressionOrMarkup_markup _ _ _ _ _ _ _ Hc) in Hr as [H1 H2].
  by intros [= <- <- <- <-].
Qed.

(** What the closing logic adds for a body that is not junk. *)
Lemma closePlaceholder_recorded src start body pos errors junk :
  is_markup body = true ->
  let r := closePlaceholder src start (body, pos, errors, junk) in
  pbody r.1 = body /\
  exists added, r.2 = errors ++ added /\
                Forall (fun e => pos <= err_start e) added.
Proof.
  intros Hb. unfold closePlaceholder.
  destruct (String.length src <=? pos).
  { simpl. split; [done|]. eexists. split; [done|].
    constructor; [simpl; lia|constructor]. }
  destruct (char_is src pos "}"); simpl.
  { split; [done|]. exists []. by rewrite app_nil_r. }
  destruct body; try done; simpl;
    (split; [done|]); (eexists; split; [done|]);
    (constructor; [simpl; lia|constructor]).
Qed.

End MarkupOperand.

(** C9 (amended).  When [parsePlaceholder] has parsed an operand and then
    finds [+] or [-], it records an [extra-content] error that runs from the
    operand's start to the operand's end, puts it in front of every error
    recorded before (those of the caller included), and returns a markup
    node that has no operand.  The errors the call records come after those
    recorded before, and none of them starts before the operand; the list
    as a whole need not be in the order of the offsets. *)
Theorem markup_operand_extra_content
    {L : Lexer} (HL : LexerInBounds L) (HE : LexerErrorsLocal L)
    (fuel : nat) (src : string) (start : nat) (errors : list ParseError)
    (op : ValueParsed) :
  String.length src <= fuel ->
  parsedOperand src start = Some op ->
  char_is src (tailStart src start) "+" = true \/
  char_is src (tailStart src start) "-" = true ->
  exists node rest,
    parsePlaceholder fuel src start errors =
      Some (node, ExtraContent (vstart op) (vend op) :: errors ++ rest) /\
    vstart op = operandStart src start /\
    is_markup (pbody node) = true /\
    body_operand (pbody node) = None /\
    Forall (fun e => vstart op <= err_start e) rest.
Proof.
  intros Hf Hop Htail.
  destruct (parsedOperand_Some HE src start op Hop) as [Hlt Hvs].
  assert (Hs : start < String.length src) by (unfold operandStart in Hlt; lia).
  assert (Hsig : is_sigil src (tailStart src start) = true).
  { unfold is_sigil. destruct Htail as [-> | ->]; by rewrite ?orb_true_r. }
  assert (Hcolon : char_is src (tailStart src start) ":" = false).
  { destruct (char_is src _ ":") eqn:E; [|done].
    destruct Htail as [H|H]; by pose proof (char_is_inj _ _ _ _ E H). }
  destruct (parseBody_bounds HL fuel src start errors Hs Hf)
    as (body & pos & es & junk & Hb & Hpos & Hposlo).
  destruct (parseBody_markup _ _ _ _ _ _ _ _ Hsig Hcolon Hb) as (Hm & Hno & Hp).
  eapply (parseBody_recorded HL (fun e => vstart op <= err_start e) (vstart op))
    in Hb as Hrec; try (rewrite Hvs; done); try done.
  2,3,4: intros; eapply Forall_impl;
    [first [apply (nmtoken_errors_local _ HE)
           |apply (literal_errors_local _ HE)
           |apply (variable_errors_local _ HE)]|simpl; intros; lia].
  destruct Hrec as (added & -> & HQ).
  rewrite Hsig in Hb. unfold unshifted in Hb. rewrite Hcolon, Hop in Hb.
  unfold parsePlaceholder. rewrite Hb.
  pose proof (closePlaceholder_recorded src start body pos
                ([ExtraContent (vstart op) (vend op)] ++ errors ++ added)
                junk Hm) as Hc.
  cbv zeta in Hc.
  destruct (closePlaceholder src start _) as [node errs'].
  destruct Hc as (Hbody & cadded & Hr2 & HQc). simpl in Hbody, Hr2.
  exists node, (added ++ cadded). subst errs' body.
  split; [by rewrite <- app_assoc|].
  repeat split; try done.
  apply Forall_app. split; [done|].
  eapply Forall_impl; [exact HQc|]. simpl. intros. lia.
Qed.

(** *** Placeholders of the grammar *)
Section WellFormed.
Context {L : Lexer} (HL : LexerInBounds L) (HT : LexerTokens L).

Lemma char_is_charAt src pos c :
  char_is src pos c = true <-> charAt src pos = Some c.
Proof.
  unfold char_is. destruct (charAt src pos) as [d|]; [|done].
  rewrite Ascii.eqb_eq. split; congruence.
Qed.

Lemma ws_idem src pos : whitespaces src (pos + whitespaces src pos) = 0.
Proof.
  destruct (whitespaces src (pos + whitespaces src pos)) as [|n] eqn:E; [done|].
  destruct (ws_blank _ HT src (pos + whitespaces src pos) 0) as (c & Hc & Hb);
    [lia|].
  rewrite Nat.add_0_r in Hc. apply (ws_stop _ HT) in Hc. congruence.
Qed.

Lemma ws_zero src pos c :
  char_is src pos c = true -> is_blank c = false -> whitespaces src pos = 0.
Proof.
  intros Hc Hb. apply char_is_charAt in Hc.
  destruct (whitespaces src pos) as [|n] eqn:E; [done|].
  destruct (ws_blank _ HT src pos 0) as (d & Hd & Hbd); [lia|].
  rewrite Nat.add_0_r in Hd. congruence.
Qed.

Lemma char_is_other src pos c d :
  char_is src pos c = true -> c <> d -> char_is src pos d = false.
Proof.
  intros Hc Hne. destruct (char_is src pos d) eqn:E; [|done].
  by pose proof (char_is_inj _ _ _ _ Hc E).
Qed.

Lemma parseOptionValue_ok src pv q :
  operand_at src pv q \/ nmtoken_at src pv q ->
  exists v, parseOptionValue src pv = (v, []) /\ vend v = q.
Proof.
  unfold parseOptionValue.
  intros [[(Hc & v & Hv & He) | (Hc & v & Hv & He)] | (Hc1 & Hc2 & v & Hv & He)].
  - rewrite Hc. eauto.
  - rewrite (char_is_other _ _ _ "(" Hc), Hc by done. eauto.
  - rewrite Hc1, Hc2. eauto.
Qed.

Lemma name_at_length src p q :
  name_at src p q -> String.eqb (parseNameValue src p) "" = false /\ p < q.
Proof.
  intros [Hne ->]. split; [by apply String.eqb_neq|].
  destruct (parseNameValue src p); [done|simpl; lia].
Qed.

Lemma parseOption_ok src p q errors :
  option_at src p q ->
  exists opt, parseOption src p errors = (opt, errors) /\
              oend opt = q /\ p < q <= String.length src.
Proof.
  intros (p1 & Hn & Heq & Hv). unfold parseOption.
  destruct (name_at_length _ _ _ Hn) as [_ Hlt].
  destruct Hn as [_ ->]. rewrite Heq.
  apply parseOptionValue_ok in Hv as (v & Hv & He).
  set (pe := p + String.length (parseNameValue src p)
             + whitespaces src (p + String.length (parseNameValue src p))) in *.
  assert (Hpe : pe + 1 <= String.length src) by (apply char_is_lt in Heq; lia).
  pose proof (ws_in_bounds _ HL src _ Hpe) as Hpv.
  pose proof (parseOptionValue_bounds HL src _ Hpv) as Hb.
  rewrite Hv in *. simpl in *. rewrite app_nil_r.
  eexists. split; [done|]. simpl. subst pe. lia.
Qed.

Lemma operand_at_le src p q :
  operand_at src p q -> p <= q <= String.length src.
Proof.
  intros [(Hc & v & Hv & <-) | (Hc & v & Hv & <-)]; apply char_is_lt in Hc.
  - pose proof (literal_in_bounds _ HL src p Hc) as H. by rewrite Hv in H.
  - pose proof (variable_in_bounds _ HL src p Hc) as H. by rewrite Hv in H.
Qed.

Lemma options_at_le src p q n : options_at src p q n -> p <= q.
Proof.
  induction 1 as [|p q r n Hw Ho _ IH]; [done|].
  destruct (parseOption_ok src _ q [] Ho) as (_ & _ & _ & ?). lia.
Qed.

(** The option loop on a run of well-formed options: it takes all of them,
    stops in front of the whitespace before the brace, and adds no error. *)
Lemma parseOptions_ok src p q n :
  options_at src p q n ->
  char_is src (q + whitespaces src q) "}" = true ->
  forall fuel errors options,
    String.length src - p <= fuel ->
    exists new,
      parseOptions fuel src p errors options = Some (q, errors, options ++ new)
      /\ length new = n.
Proof.
  induction 1 as [q|p q r n Hw Ho Hrest IH]; intros Hclose fuel errors options Hf.
  - pose proof (char_is_lt _ _ _ Hclose) as Hlt.
    destruct fuel as [|fuel]; [lia|]. simpl.
    assert (E : (q <? String.length src) = true) by (apply Nat.ltb_lt; lia).
    rewrite E, Hclose. exists []. by rewrite app_nil_r.
  - destruct (parseOption_ok src _ q errors Ho) as (opt & Hopt & Hend & Hq).
    destruct fuel as [|fuel]; [lia|]. simpl.
    assert (E : (p <? String.length src) = true) by (apply Nat.ltb_lt; lia).
    rewrite E.
    assert (Hnb : char_is src (p + whitespaces src p) "}" = false).
    { destruct (char_is src (p + whitespaces src p) "}") eqn:Eb; [|done].
      apply (name_not_brace _ HT) in Eb.
      destruct Ho as (p1 & [Hne _] & _). done. }
    rewrite Hnb.
    assert (Ew : (whitespaces src p =? 0) = false) by (apply Nat.eqb_neq; lia).
    rewrite Ew, Hopt.
    assert (Ee : (oend opt =? p + whitespaces src p) = false)
      by (apply Nat.eqb_neq; lia).
    rewrite Ee, Hend.
    destruct (IH Hclose fuel errors (options ++ [opt])) as (new & Hr & Hlen);
      [lia|].
    exists (opt :: new). rewrite Hr. split; [|simpl; lia].
    by rewrite <- app_assoc.
Qed.

(** A tail that starts with a sigil: name and options, no error. *)
Lemma parseExpressionOrMarkup_ok fuel src p q n operand errors :
  String.length src <= fuel ->
  (exists p1, name_at src (p + 1) p1 /\ options_at src p1 q n) ->
  char_is src (q + whitespaces src q) "}" = true ->
  exists new, length new = n /\
    parseExpressionOrMarkup fuel src p operand errors =
    Some
      (if char_is src p ":" then
         (BExpression operand p q (parseNameValue src (p + 1)) new, errors)
       else if char_is src p "+" then
         (BMarkupStart p q (parseNameValue src (p + 1)) new,
          unshifted src p operand ++ errors)
       else
         (BMarkupEnd p q (parseNameValue src (p + 1)),
          match new with
          | [] => unshifted src p operand ++ errors
          | o :: _ => (unshifted src p operand ++ errors)
                      ++ [ExtraContent (ostart o) (oend (List.last new o))]
          end)).
Proof.
  intros Hf (p1 & Hn & Ho) Hclose. unfold parseExpressionOrMarkup, unshifted.
  destruct (name_at_length _ _ _ Hn) as [-> _].
  destruct Hn as [_ ->].
  destruct (parseOptions_ok src _ q n Ho Hclose fuel errors []) as (new & -> & Hl);
    [lia|].
  exists new. split; [done|]. simpl.
  destruct (char_is src p ":"); [done|].
  destruct (char_is src p "+"); destruct operand; done.
Qed.

Lemma parseOperand_operand src p1 p2 errors :
  operand_at src p1 p2 ->
  exists v, parseOperand src p1 errors = (Some v, p2, errors).
Proof.
  unfold parseOperand. intros [(Hc & v & Hv & He) | (Hc & v & Hv & He)].
  - rewrite Hc, Hv, app_nil_r, He. eauto.
  - rewrite (char_is_other _ _ _ "(" Hc), Hc, Hv, app_nil_r, He by done. eauto.
Qed.

Lemma parseOperand_none src p1 c errors :
  char_is src p1 c = true -> c <> "("%char -> c <> "$"%char ->
  parseOperand src p1 errors = (None, p1, errors).
Proof.
  intros Hc H1 H2. unfold parseOperand.
  by rewrite !(char_is_other _ _ _ _ Hc).
Qed.

Lemma closePlaceholder_closed src start body pos errors junk :
  char_is src pos "}" = true ->
  closePlaceholder src start (body, pos, errors, junk) =
  (mkPlaceholder start (pos + 1) body, errors).
Proof.
  intros Hc. unfold closePlaceholder.
  pose proof (char_is_lt _ _ _ Hc) as Hlt. apply Nat.leb_gt in Hlt.
  by rewrite Hlt, Hc.
Qed.

Lemma tail_sigil src p q t :
  t <> NoTail -> tail_at src p q t ->
  exists c, char_is src p c = true /\ is_sigil src p = true /\
            c <> "("%char /\ c <> "$"%char /\ is_blank c = false /\
            exists n p1, name_at src (p + 1) p1 /\ options_at src p1 q n /\
              t = match t with
                  | AnnotationTail _ => AnnotationTail n
                  | MarkupStartTail _ => MarkupStartTail n
                  | _ => MarkupEndTail n
                  end.
Proof.
  unfold is_sigil.
  destruct t as [|n|n|n]; [done|..]; intros _ (Hc & p1 & Hn & Ho);
    eexists; (split; [exact Hc|]); rewrite Hc, ?orb_true_r;
    repeat split; try done; eauto.
Qed.

End WellFormed.

(** C5 (amended).  For every placeholder of the grammar that is an operand
    alone, an annotation with or without an operand, a markup start without
    an operand, or a markup end without operand and options,
    [parsePlaceholder] returns an empty error list and a node that starts at
    the opening brace and ends just after the closing brace. *)
Theorem parsePlaceholder_well_formed
    {L : Lexer} (HL : LexerInBounds L) (HT : LexerTokens L)
    (fuel : nat) (src : string) (start end_ : nat) (operand : bool) (t : Tail) :
  String.length src <= fuel ->
  conforms src start end_ operand t ->
  accepted operand t = true ->
  exists body,
    parsePlaceholder fuel src start [] =
      Some (mkPlaceholder start end_ body, []) /\
    char_is src start "{" = true /\
    char_is src (end_ - 1) "}" = true /\
    start < end_.
Proof.
  intros Hf (Hopen & p2 & q & Hop & Htail & Hclose & ->) Hacc.
  replace (q + whitespaces src q + 1 - 1) with (q + whitespaces src q) by lia.
  assert (Hp2 : operandStart src start <= p2).
  { destruct operand; [|lia]. apply (operand_at_le HL) in Hop. lia. }
  assert (Hst : start < operandStart src start) by (unfold operandStart; lia).
  unfold parsePlaceholder, parseBody. fold (operandStart src start).
  assert (Hdec : t = NoTail \/ t <> NoTail) by (destruct t; auto).
  destruct Hdec as [->|Hne].
  - (* an operand alone *)
    simpl in Hacc, Htail. subst operand q.
    destruct (parseOperand_operand src _ p2 [] Hop) as (v & ->).
    rewrite ws_idem in * by done. rewrite Nat.add_0_r in Hclose.
    assert (Hs : is_sigil src (p2 + whitespaces src p2) = false).
    { unfold is_sigil. by rewrite !(char_is_other _ _ _ _ Hclose). }
    rewrite Hs, ws_idem, Nat.add_0_r by done.
    rewrite closePlaceholder_closed by done.
    eexists. repeat split; try done. lia.
  - (* a tail, with or without an operand *)
    destruct (tail_sigil src _ q t Hne Htail)
      as (c & Hc & Hsig & Hc1 & Hc2 & Hcb & n & p1 & Hn & Ho & Ht).
    assert (Hq : p2 + whitespaces src p2 < q).
    { apply name_at_length in Hn as [_ Hn].
      apply (options_at_le HL) in Ho. lia. }
    assert (Harg : exists arg,
      parseOperand src (operandStart src start) [] = (arg, p2, []) /\
      (operand = false -> arg = None)).
    { destruct operand.
      - destruct (parseOperand_operand src _ p2 [] Hop) as (v & ->).
        eexists. split; done.
      - subst p2. unfold operandStart in Hc. rewrite ws_idem in Hc by done.
        rewrite Nat.add_0_r in Hc. fold (operandStart src start) in Hc.
        rewrite (parseOperand_none _ _ _ _ Hc Hc1 Hc2).
        eexists. split; done. }
    destruct Harg as (arg & -> & Harg). rewrite Hsig.
    destruct (parseExpressionOrMarkup_ok HL HT fuel src
                (p2 + whitespaces src p2) q n arg [] Hf)
      as (new & Hlen & ->); [eauto|done|].
    unfold unshifted.
    destruct t as [|m|m|m]; [done|..]; destruct Htail as [Hc' _];
      injection Ht as ->; simpl in Hacc.
    + rewrite Hc'. cbv beta iota zeta delta [body_end].
      rewrite closePlaceholder_closed by done.
      eexists. repeat split; try done. lia.
    + rewrite (char_is_other _ _ _ ":" Hc'), Hc' by done.
      rewrite Harg by by destruct operand.
      cbv beta iota zeta delta [body_end app].
      rewrite closePlaceholder_closed by done.
      eexists. repeat split; try done. lia.
    + rewrite (char_is_other _ _ _ ":" Hc'), (char_is_other _ _ _ "+" Hc') by done.
      apply andb_true_iff in Hacc as [Hnop Hz%Nat.eqb_eq]. subst n.
      rewrite Harg by by destruct operand.
      destruct new; [|done].
      cbv beta iota zeta delta [body_end app].
      rewrite closePlaceholder_closed by done.
      eexists. repeat split; try done. lia.
Qed.

(** *** The reference lexer meets the expectations *)
Import RefLexer.

Section RefLexerOk.

Lemma length_skipn_str n s :
  String.length (skipn_str n s) = String.length s - n.
Proof.
  revert s. induction n as [|n IH]; intros [|c s]; simpl; try done.
Qed.

Lemma length_take_while p s :
  String.length (take_while p s) <= String.length s.
Proof.
  induction s as [|c s IH]; simpl; [done|].
  destruct (p c); simpl; lia.
Qed.

Lemma ref_name_length src pos :
  String.length (ref_parseNameValue src pos) <= String.length src - pos.
Proof.
  unfold ref_parseNameValue.
  pose proof (length_skipn_str pos src) as Hl.
  destruct (skipn_str pos src) as [|c rest]; simpl in *; [lia|].
  destruct (is_name_start c); simpl; [|lia].
  pose proof (length_take_while is_name_char rest). lia.
Qed.

Lemma ref_lexer_in_bounds : LexerInBounds ref_lexer.
Proof.
  split; simpl.
  - intros src pos Hp. unfold ref_whitespaces.
    pose proof (length_take_while is_blank (skipn_str pos src)).
    rewrite length_skipn_str in *. lia.
  - intros src pos Hp. pose proof (ref_name_length src pos). lia.
  - intros src pos Hp. unfold ref_parseNmtoken. simpl.
    pose proof (length_take_while is_name_char (skipn_str pos src)).
    rewrite length_skipn_str in *. lia.
  - intros src pos Hp. unfold ref_parseLiteral.
    pose proof (length_take_while (fun c => negb (Ascii.eqb c ")"))
                  (skipn_str (pos + 1) src)) as Ht.
    rewrite length_skipn_str in Ht.
    destruct (char_is src _ ")") eqn:E; simpl; [|lia].
    apply char_is_lt in E. lia.
  - intros src pos Hp. unfold ref_parseVariable. simpl.
    pose proof (ref_name_length src (pos + 1)). lia.
Qed.

Lemma ref_lexer_errors_local : LexerErrorsLocal ref_lexer.
Proof.
  split; simpl; intros src pos.
  - unfold ref_parseNmtoken. simpl.
    destruct (String.eqb _ ""); [|constructor].
    constructor; [simpl; lia|constructor].
  - unfold ref_parseLiteral.
    destruct (char_is src _ ")"); simpl; (split; [done|]); [constructor|].
    constructor; [simpl; lia|constructor].
  - unfold ref_parseVariable. simpl. split; [done|].
    destruct (String.eqb _ ""); [|constructor].
    constructor; [simpl; lia|constructor].
Qed.

Lemma ref_lexer_leaves_brace : LexerLeavesBrace ref_lexer.
Proof.
  split; simpl; intros src pos.
  - unfold ref_parseNmtoken. simpl.
    destruct (String.eqb _ ""); repeat constructor.
  - unfold ref_parseLiteral.
    destruct (char_is src _ ")"); simpl; repeat constructor.
  - unfold ref_parseVariable. simpl.
    destruct (String.eqb _ ""); repeat constructor.
Qed.

Lemma get_skipn_str n i s :
  String.get i (skipn_str n s) = String.get (n + i) s.
Proof.
  revert s. induction n as [|n IH]; intros [|c s]; simpl; try done.
Qed.

Lemma get_take_while p s i :
  i < String.length (take_while p s) ->
  exists c, String.get i s = Some c /\ p c = true.
Proof.
  revert i. induction s as [|c s IH]; intros i; simpl; [lia|].
  destruct (p c) eqn:E; simpl; [|lia].
  destruct i as [|i]; [eauto|]. intros Hi. apply IH. lia.
Qed.

Lemma get_take_while_stop p s c :
  String.get (String.length (take_while p s)) s = Some c -> p c = false.
Proof.
  induction s as [|d s IH]; simpl; [done|].
  destruct (p d) eqn:E; simpl; [done|]. by intros [= <-].
Qed.

Lemma ref_lexer_tokens : LexerTokens ref_lexer.
Proof.
  split; simpl.
  - intros src pos i Hi. unfold ref_whitespaces in Hi.
    apply get_take_while in Hi as (c & Hc & Hb).
    rewrite get_skipn_str in Hc. eauto.
  - intros src pos c. unfold ref_whitespaces, charAt.
    rewrite <- get_skipn_str. apply get_take_while_stop.
  - intros src pos Hc. apply char_is_charAt in Hc. unfold charAt in Hc.
    unfold ref_parseNameValue.
    replace pos with (pos + 0) in Hc by lia. rewrite <- get_skipn_str in Hc.
    destruct (skipn_str pos src); [done|]. simpl in Hc. by injection Hc as ->.
Qed.

End RefLexerOk.

(** *** Termination, the end offset and the missing brace *)

(** C4 (amended).  For a start offset inside the source (as the offset of an
    opening brace is) and helpers that stay inside the source,
    [parsePlaceholder] returns, and the node it returns starts at [start] and
    ends after [start] and at most at the source length.  The body records no
    [missing-char] error for the closing brace; the call records exactly one,
    last and positioned at end-of-input, when the scan after the body stops
    at end-of-input, and none when another character follows the body
    (that run is extra content or junk).  [missing-char] errors for [=] and
    for the blank between options may stand before it. *)
Theorem parsePlaceholder_terminates_in_bounds
    {L : Lexer} (HL : LexerInBounds L) (HB : LexerLeavesBrace L)
    (fuel : nat) (src : string) (start : nat) (errors : list ParseError) :
  start < String.length src ->
  String.length src <= fuel ->
  exists body pos es junk node errors',
    parseBody fuel src start errors = Some (body, pos, es, junk) /\
    parsePlaceholder fuel src start errors = Some (node, errors') /\
    pstart node = start /\
    start < pend node <= String.length src /\
    count_missing "}" es = count_missing "}" errors /\
    (pos = String.length src ->
       pend node = String.length src /\
       errors' = es ++ [MissingChar "}" (String.length src)]) /\
    (pos < String.length src ->
       count_missing "}" errors' = count_missing "}" errors).
Proof.
  intros Hs Hf.
  destruct (parseBody_bounds HL fuel src start errors Hs Hf)
    as (body & pos & es & junk & Hb & Hpos & _).
  exists body, pos, es, junk.
  unfold parsePlaceholder. rewrite Hb.
  pose proof (closePlaceholder_bounds src start body pos es junk Hpos) as Hc.
  pose proof (closePlaceholder_missing src start body pos es junk) as Hm.
  destruct (closePlaceholder src start (body, pos, es, junk)) as [node errors'].
  simpl in *. exists node, errors'.
  assert (Hcount : count_missing "}" es = count_missing "}" errors).
  { eapply (parseBody_recorded HL (fun e => is_missing_char "}" e = false) 0)
      in Hb as (added & -> & HQ); try done; try lia.
    - rewrite !count_missing_app, (count_missing_zero _ added HQ).
      destruct (is_sigil src _); [|simpl; lia].
      unfold unshifted. destruct (char_is src _ ":"); [simpl; lia|].
      destruct (parsedOperand src start); simpl; lia.
    - intros. apply (nmtoken_leaves_brace _ HB).
    - intros. apply (literal_leaves_brace _ HB).
    - intros. apply (variable_leaves_brace _ HB). }
  destruct Hm as [Hm1 Hm2]; [lia|].
  repeat split; try done; try lia.
  all: try (intros Hlt; rewrite Hm2; done).
  all: intros; apply Hm1; done.
Qed.

(** The theorem at the truncated placeholder [{:foo a=b] of length 9. *)
Lemma parsePlaceholder_terminates_in_bounds_witness :
  exists body pos es junk node errors',
    parseBody 9 "{:foo a=b" 0 [] = Some (body, pos, es, junk) /\
    parsePlaceholder 9 "{:foo a=b" 0 [] = Some (node, errors') /\
    pstart node = 0 /\
    0 < pend node <= 9 /\
    count_missing "}" es = 0 /\
    (pos = 9 -> pend node = 9 /\ errors' = es ++ [MissingChar "}" 9]) /\
    (pos < 9 -> count_missing "}" errors' = 0).
Proof.
  apply (parsePlaceholder_terminates_in_bounds
           ref_lexer_in_bounds ref_lexer_leaves_brace 9 "{:foo a=b" 0 []);
    simpl; lia.
Defined.

(** C4 as stated fails.  A start offset past the end gives a node that ends
    past the end; the truncated placeholder [{:a ] gets two [missing-char]
    errors, and the truncated [{$foo bar] gets none. *)
Lemma parsePlaceholder_truncated_counterexample :
  (exists node errors,
     parsePlaceholder 2 "ab" 5 [] = Some (node, errors) /\
     String.length "ab" < pend node) /\
  (exists node errors,
     parsePlaceholder 4 "{:a " 0 [] = Some (node, errors) /\
     length (List.filter is_any_missing_char errors) = 2) /\
  (exists node errors,
     parsePlaceholder 9 "{$foo bar" 0 [] = Some (node, errors) /\
     length (List.filter is_any_missing_char errors) = 0).
Proof.
  repeat split; eexists _, _; (split; [vm_compute; reflexivity|]);
    vm_compute; lia.
Qed.

(** *** The theorems at concrete placeholders *)

Lemma conforms_annotation :
  conforms "{$x :f a=b}" 0 11 true (AnnotationTail 1).
Proof.
  split; [done|]. exists 3, 10. repeat split.
  - right. split; [done|]. by eexists.
  - exists 6. repeat split; [done|].
    eapply (options_more _ 6 10 10 0); [vm_compute; lia| |constructor].
    exists 8. repeat split; [done|]. right. repeat split. by eexists.
Qed.

(** The theorem at [{$x :f a=b}]. *)
Lemma parsePlaceholder_well_formed_witness :
  exists body,
    parsePlaceholder 11 "{$x :f a=b}" 0 [] =
      Some (mkPlaceholder 0 11 body, []) /\
    char_is "{$x :f a=b}" 0 "{" = true /\
    char_is "{$x :f a=b}" (11 - 1) "}" = true /\
    0 < 11.
Proof.
  apply (parsePlaceholder_well_formed ref_lexer_in_bounds ref_lexer_tokens
           11 "{$x :f a=b}" 0 11 true (AnnotationTail 1));
    [simpl; lia|exact conforms_annotation|reflexivity].
Defined.

(** C5 as stated fails: [{$x +b}] and [{-b c=d}] are placeholders of the
    grammar, and the parser reports [extra-content] for both. *)
Lemma parsePlaceholder_grammar_counterexample :
  (conforms "{$x +b}" 0 7 true (MarkupStartTail 0) /\
   exists node, parsePlaceholder 7 "{$x +b}" 0 [] =
                Some (node, [ExtraContent 1 3])) /\
  (conforms "{-b c=d}" 0 8 false (MarkupEndTail 1) /\
   exists node, parsePlaceholder 8 "{-b c=d}" 0 [] =
                Some (node, [ExtraContent 4 7])).
Proof.
  split; split.
  - split; [done|]. exists 3, 6. repeat split.
    + right. split; [done|]. by eexists.
    + exists 6. repeat split; [done|constructor].
  - by eexists.
  - split; [done|]. exists 1, 7. repeat split.
    exists 3. repeat split; [done|].
    eapply (options_more _ 3 7 7 0); [vm_compute; lia| |constructor].
    exists 5. repeat split; [done|]. right. repeat split. by eexists.
  - by eexists.
Qed.

(** The theorem at [{$x +b}]. *)
Lemma markup_operand_extra_content_witness :
  exists node rest,
    parsePlaceholder 7 "{$x +b}" 0 [] =
      Some (node, ExtraContent 1 3 :: [] ++ rest) /\
    1 = operandStart "{$x +b}" 0 /\
    is_markup (pbody node) = true /\
    body_operand (pbody node) = None /\
    Forall (fun e => 1 <= err_start e) rest.
Proof.
  apply (markup_operand_extra_content ref_lexer_in_bounds ref_lexer_errors_local
           7 "{$x +b}" 0 [] (mkValue KVariable 1 3 "x"));
    [simpl; lia|reflexivity|left; reflexivity].
Defined.

(** C9 as stated fails: the list is not ordered by offset.  In [{$x -b c}]
    the option [c] lacks its [=] and its value, recorded at offset 8, and
    the options of a markup-end are then reported as a whole from offset 7:
    the offsets are 1, 8, 8, 7.  In [{$x +b c}] after an error of the caller
    at offset 0 they are 1, 0, 8, 8. *)
Lemma markup_operand_order_counterexample :
  (exists node errors,
     parsePlaceholder 9 "{$x -b c}" 0 [] = Some (node, errors) /\
     errors = [ExtraContent 1 3; MissingChar "=" 8; EmptyToken 8;
               ExtraContent 7 8] /\
     earliest_first errors = false) /\
  (exists node errors,
     parsePlaceholder 9 "{$x +b c}" 0 [EmptyToken 0] = Some (node, errors) /\
     errors = [ExtraContent 1 3; EmptyToken 0; MissingChar "=" 8;
               EmptyToken 8] /\
     earliest_first errors = false).
Proof.
  split; eexists _, _; (split; [vm_compute; reflexivity|]); split; reflexivity.
Qed.

End ParserProps.

(** * Properties of the resolution engine *)

Module ResolveProps.
Import Resolve.

(** *** Metadata *)
Section Metadata.
Context {N : JSNumber} {O : JSObjects}.

Lemma addMetaEntry_lookup (fm : gmap string MetaValue) k v key :
  addMetaEntry fm (k, v) !! key =
  match fm !! key with
  | Some x => Some x
  | None =>
    if decide (inherited_name key) then None
    else if String.eqb k key then retained v else None
  end.
Proof.
  unfold addMetaEntry, inherited_name.
  destruct (bool_decide (is_Some (fm !! k) \/ is_Some (object_prototype k)))
    eqn:Hskip.
  { apply bool_decide_eq_true in Hskip.
    destruct (fm !! key) eqn:E; [done|].
    destruct (decide (is_Some (object_prototype key))) as [|Hni]; [done|].
    destruct (String.eqb_spec k key) as [->|]; [|done].
    destruct Hskip as [[x Hx]|Hin]; [congruence|done]. }
  apply bool_decide_eq_false in Hskip.
  assert (Hno : fm !! k = None).
  { apply eq_None_not_Some. tauto. }
  assert (Hni : ~ is_Some (object_prototype k)) by tauto.
  assert (Hins : forall m : MetaValue,
    <[k:=m]> fm !! key =
    match fm !! key with
    | Some x => Some x
    | None =>
      if decide (is_Some (object_prototype key)) then None
      else if String.eqb k key then Some m else None
    end).
  { intros m. destruct (String.eqb_spec k key) as [->|Hne].
    - rewrite lookup_insert_eq, Hno. by rewrite decide_False.
    - rewrite lookup_insert_ne by done. destruct (fm !! key); [done|].
      by destruct (decide _). }
  assert (Hkeep : fm !! key =
    match fm !! key with
    | Some x => Some x
    | None =>
      if decide (is_Some (object_prototype key)) then None
      else if String.eqb k key then None else None
    end).
  { destruct (fm !! key); [done|]. destruct (decide _); [done|].
    by destruct (String.eqb k key). }
  destruct v as [| |b|n|s|items|fields|inner|source]; simpl;
    try apply Hins; try exact Hkeep.
  destruct inner; simpl; try apply Hins; exact Hkeep.
Qed.

Lemma fold_addMetaEntry_lookup meta (fm : gmap string MetaValue) key :
  fold_left addMetaEntry meta fm !! key =
  match fm !! key with
  | Some x => Some x
  | None =>
    if decide (inherited_name key) then None else first_retained key meta
  end.
Proof.
  revert fm. induction meta as [|[k v] meta IH]; intros fm; cbn [fold_left].
  { simpl. destruct (fm !! key); [done|]. by destruct (decide _). }
  rewrite IH, addMetaEntry_lookup. cbn [first_retained].
  destruct (fm !! key); [done|].
  destruct (decide (inherited_name key)); [done|].
  destruct (String.eqb k key); [|done].
  by destruct (retained v).
Qed.

(** Merging one list of entries after another is merging their
    concatenation. *)
Lemma addMeta_init_lookup (meta : option Meta) (more : Meta) key :
  addMeta (init_meta meta) more !! key =
  if decide (inherited_name key) then None
  else first_retained key (default [] meta ++ more).
Proof.
  destruct meta as [m|]; unfold init_meta, addMeta; simpl.
  - rewrite <- fold_left_app.
    rewrite fold_addMetaEntry_lookup. by rewrite lookup_empty.
  - rewrite fold_addMetaEntry_lookup. by rewrite lookup_empty.
Qed.

Lemma init_meta_lookup (meta : option Meta) key :
  default ∅ (init_meta meta) !! key =
  if decide (inherited_name key) then None
  else first_retained key (default [] meta).
Proof.
  destruct meta as [m|]; unfold init_meta, addMeta; simpl.
  - rewrite fold_addMetaEntry_lookup. by rewrite lookup_empty.
  - rewrite lookup_empty. by destruct (decide _).
Qed.

(** C6 (amended).  Merging metadata into a bag never overwrites a key that
    is present.  A key that is not present and that the bag does not inherit
    as a plain object does ([constructor], [toString], ...) gets the first of
    its entries that is kept: [null] as [null], a boolean, a number or a
    string as it is, an object through its [valueOf()] when that is a
    boolean, a number or a string; any other entry is dropped.  A name the
    bag inherits is never stored. *)
Theorem addMeta_first_write_wins
    (fm : option (gmap string MetaValue)) (meta : Meta) (key : string) :
  addMeta fm meta !! key =
  match default ∅ fm !! key with
  | Some present => Some present
  | None =>
    if decide (inherited_name key) then None else first_retained key meta
  end.
Proof. apply fold_addMetaEntry_lookup. Qed.

End Metadata.

(** *** Options *)
Section OptionsPolicy.
Context {N : JSNumber} {O : JSObjects}.

Lemma assoc_assoc_set {A} (k key : string) (v : A) entries :
  assoc key (assoc_set k v entries) =
  if String.eqb k key then Some v else assoc key entries.
Proof.
  induction entries as [|[k' w] entries IH]; simpl.
  - by destruct (String.eqb k key).
  - destruct (String.eqb_spec k' k) as [->|Hne]; simpl.
    + by destruct (String.eqb k key).
    + rewrite IH. destruct (String.eqb_spec k key) as [->|]; [|done].
      by apply String.eqb_neq in Hne as ->.
Qed.

Lemma option_kept_spec exp res :
  option_kept exp res = true <-> kept_by_type exp res.
Proof.
  unfold option_kept, kept_by_type. destruct exp as [name|allowed].
  - rewrite orb_true_iff, !String.eqb_eq. split.
    + intros [->| ->]; eauto.
    + intros [[= ->]|[[= ->]|(a & s & ? & _)]]; [by right|by left|done].
  - split.
    + destruct res; try done. intros (s' & Hin & ->%String.eqb_eq)%existsb_exists.
      right. right. eexists _, _. by rewrite list_elem_of_In.
    + intros [?|[?|(a & s & [= <-] & -> & Hin)]]; [done|done|].
      apply existsb_exists. exists s.
      by rewrite <- list_elem_of_In, String.eqb_refl.
Qed.

Lemma type_skipped_not_kept exp res :
  negb (type_truthy exp) || is_type exp "never" = true ->
  ~ (exp <> TypeName "never" /\ kept_by_type exp res).
Proof.
  intros H [Hne Hk]. apply orb_true_iff in H as [H|H].
  - destruct exp as [name|]; [|done]. simpl in H.
    apply negb_true_iff, negb_false_iff, String.eqb_eq in H as ->.
    destruct Hk as [[= Ht]|[?|(? & ? & ? & _)]]; try done. by destruct res.
  - destruct exp as [name|]; [|done]. simpl in H.
    by apply String.eqb_eq in H as ->.
Qed.

Lemma assoc_app_fresh {A} (k : string) (l1 l2 : list (string * A)) :
  assoc k (l1 ++ l2) =
  match assoc k l1 with Some v => Some v | None => assoc k l2 end.
Proof.
  induction l1 as [|[k' w] l1 IH]; simpl; [done|].
  by destruct (String.eqb k' k).
Qed.

Lemma assoc_None_fmap {A} (k : string) (l : list (string * A)) :
  k ∉ l.*1 -> assoc k l = None.
Proof.
  induction l as [|[k' w] l IH]; simpl; [done|].
  intros Hn. apply not_elem_of_cons in Hn as [Hne Hn].
  apply not_eq_sym in Hne. apply String.eqb_neq in Hne as ->. auto.
Qed.

Lemma assoc_Some_split {A} (k : string) (l : list (string * A)) v :
  assoc k l = Some v ->
  exists before after, l = before ++ (k, v) :: after /\ k ∉ before.*1.
Proof.
  induction l as [|[k' w] l IH]; simpl; [done|].
  destruct (String.eqb_spec k' k) as [->|Hne].
  - intros [= ->]. exists [], l. split; [done|]. apply not_elem_of_nil.
  - intros (before & after & -> & Hn)%IH.
    exists ((k', w) :: before), after. split; [done|].
    simpl. apply not_elem_of_cons. split; [congruence|done].
Qed.

(** The schema's type for an option, as the code reads it and as the
    specification words it. *)
Lemma getExpected_declared expected key exp :
  declared_type expected key exp -> getExpected expected key = Some exp.
Proof.
  intros [->|(fields & -> & before & after & -> & Hn)]; [done|].
  cbn [getExpected].
  rewrite assoc_app_fresh, (assoc_None_fmap key before) by done.
  cbn [assoc]. by rewrite String.eqb_refl.
Qed.

Lemma getExpected_kept expected key exp res :
  getExpected expected key = Some exp -> kept_by_type exp res ->
  declared_type expected key exp.
Proof.
  destruct expected as [[t|fields]|]; simpl; [|..|done].
  - intros [= ->] _. by left.
  - intros Hexp Hkept. right. exists fields. split; [done|].
    destruct (assoc key fields) as [t|] eqn:Ha.
    + injection Hexp as ->. by apply assoc_Some_split.
    + destruct (bool_decide _); [|done]. injection Hexp as <-.
      destruct Hkept as [?|[?|(allowed & s & [= <-] & _ & Hin)]]; try done.
      by apply elem_of_nil in Hin.
Qed.

Local Ltac coercion_cases :=
  split;
  [ intros <-;
    first [ left; split_and!; congruence
          | right; left; split_and!; congruence
          | right; right; left; split_and!; congruence
          | right; right; right; left; split_and!; congruence
          | right; right; right; right; split_and!; congruence ]
  | let H := fresh in intros H; decompose [and or] H; congruence ].

(** The coercion of a literal, as the code does it and as the specification
    words it. *)
Lemma coerceOption_coerced exp (v : LiteralValue) res :
  coerceOption exp (lit_to_js v) = res <-> coerced exp v res.
Proof.
  unfold coerceOption, coerced. destruct exp as [name|allowed]; simpl.
  - destruct (String.eqb_spec name "boolean") as [->|Hb].
    + destruct v as [s|n]; simpl.
      * destruct (String.eqb_spec s "true") as [->|Ht]; [coercion_cases|].
        destruct (String.eqb_spec s "false") as [->|Hf]; coercion_cases.
      * coercion_cases.
    + destruct (String.eqb_spec name "number") as [->|Hn].
      * destruct v as [s|n]; simpl; coercion_cases.
      * coercion_cases.
  - coercion_cases.
Qed.

Lemma resolveOptionValue_result resolveArg exp value res :
  resolveOptionValue resolveArg exp value = Ok res <->
  option_result resolveArg exp value res.
Proof.
  destruct value as [v|path meta|items]; simpl; [| done |].
  - rewrite <- coerceOption_coerced. split; [by intros [= ->]|by intros ->].
  - assert (Hc : coerceOption exp (VArr (List.map lit_to_js items)) = res <->
      (exp = TypeName "number" /\
       res = VNum (str_to_num (js_join "," (List.map lit_to_js items)))) \/
      (exp <> TypeName "number" /\ res = VArr (List.map lit_to_js items))).
    { unfold coerceOption. destruct exp as [name|allowed]; simpl.
      - destruct (String.eqb_spec name "boolean") as [->|Hb].
        + split; [intros <-; by right|intros [[? _]|[_ ->]]; done].
        + destruct (String.eqb_spec name "number") as [->|Hn].
          * split; [intros <-; by left|intros [[_ ->]|[? _]]; done].
          * split; [intros <-; right; split; congruence
                   |intros [[? _]|[_ ->]]; congruence].
      - split; [intros <-; by right|intros [[? _]|[_ ->]]; done]. }
    rewrite <- Hc. split; [by intros [= ->]|by intros ->].
Qed.

(** The loop keeps what the accumulator has under other keys and adds the
    options that pass. *)
Lemma resolveOptionsLoop_spec resolveArg expected (entries : Options)
    (acc opt : list (string * JSValue)) :
  NoDup entries.*1 ->
  (forall k, k ∈ entries.*1 -> assoc k acc = None) ->
  resolveOptionsLoop resolveArg expected entries acc = Ok opt ->
  forall key res,
    assoc key opt = Some res <->
    assoc key acc = Some res \/
    key <> "__proto__" /\
    exists value exp,
      (key, value) ∈ entries /\ getExpected expected key = Some exp /\
      exp <> TypeName "never" /\
      resolveOptionValue resolveArg exp value = Ok res /\
      kept_by_type exp res.
Proof.
  revert acc. induction entries as [|[k value] entries IH];
    intros acc Hnd Hfresh; simpl.
  { intros [= <-] key res. split; [by left|].
    by intros [?|(_ & ? & ? & ?%elem_of_nil & _)]. }
  apply NoDup_cons in Hnd as [Hk Hnd]. simpl in Hfresh.
  assert (Hfresh0 : forall k', k' ∈ entries.*1 -> assoc k' acc = None).
  { intros k' Hk'. apply Hfresh. by right. }
  assert (Hskip :
    (forall res exp, getExpected expected k = Some exp ->
       resolveOptionValue resolveArg exp value = Ok res ->
       exp <> TypeName "never" -> kept_by_type exp res -> k = "__proto__") ->
    resolveOptionsLoop resolveArg expected entries acc = Ok opt ->
    forall key res,
      assoc key opt = Some res <->
      assoc key acc = Some res \/
      key <> "__proto__" /\
      exists value0 exp,
        (key, value0) ∈ (k, value) :: entries /\
        getExpected expected key = Some exp /\
        exp <> TypeName "never" /\
        resolveOptionValue resolveArg exp value0 = Ok res /\
        kept_by_type exp res).
  { intros Hno Hr key res. rewrite (IH acc Hnd Hfresh0 Hr).
    split;
      (intros [?|(Hp & v0 & exp & Hin & Hexp & Hne & Hres & Hkept)];
       [by left|]).
    - right. split; [done|]. exists v0, exp. rewrite elem_of_cons. eauto 10.
    - apply elem_of_cons in Hin as [[= -> ->]|Hin]; [|right; eauto 10].
      by destruct Hp; apply (Hno res exp). }
  destruct (getExpected expected k) as [exp|] eqn:Hexp; [|by apply Hskip].
  destruct (negb (type_truthy exp) || is_type exp "never") eqn:Hs.
  { apply Hskip. intros res e [= <-] _ Hn Hkp.
    by destruct (type_skipped_not_kept exp res Hs). }
  destruct (resolveOptionValue resolveArg exp value) as [r| |] eqn:Hval;
    simpl; [|done|done].
  assert (Hnever : exp <> TypeName "never").
  { intros ->. by rewrite orb_true_r in Hs. }
  intros Hr.
  destruct (option_kept exp r) eqn:Hkept.
  - unfold set_option in Hr.
    destruct (String.eqb_spec k "__proto__") as [Hp|Hp];
      [by apply Hskip|].
    intros key res.
    assert (Hfresh' : forall k', k' ∈ entries.*1 ->
                        assoc k' (assoc_set k r acc) = None).
    { intros k' Hk'. rewrite assoc_assoc_set.
      destruct (String.eqb_spec k k') as [->|]; [done|eauto]. }
    rewrite (IH _ Hnd Hfresh' Hr).
    rewrite assoc_assoc_set. apply option_kept_spec in Hkept.
    destruct (String.eqb_spec k key) as [->|Hne].
    + split.
      * intros [[= <-]|(_ & v0 & e & Hin & _)].
        -- right. split; [done|]. exists value, exp.
           rewrite elem_of_cons. eauto 10.
        -- destruct Hk. apply list_elem_of_fmap. by exists (key, v0).
      * intros [Hacc|(_ & v0 & e & Hin & He & _ & Hres & _)].
        -- rewrite Hfresh in Hacc by left. done.
        -- apply elem_of_cons in Hin as [[= <-]|Hin]; [left; congruence|].
           destruct Hk. apply list_elem_of_fmap. by exists (key, v0).
    + split;
        (intros [?|(Hp' & v0 & e & Hin & ?)];
         [by left|right; split; [done|]]).
      * exists v0, e. rewrite elem_of_cons. eauto 10.
      * apply elem_of_cons in Hin as [[= ? ?]|Hin]; [done|eauto 10].
  - apply Hskip; [|done]. intros res e [= <-] Hres _ Hkp.
    apply option_kept_spec in Hkp. congruence.
Qed.

Lemma resolveOptionsLoop_total resolveArg expected (entries : Options) acc :
  (forall key path meta,
     (key, OVar path meta) ∈ entries ->
     exists v, resolveArg (VariablePart path meta) = Ok v) ->
  exists opt, resolveOptionsLoop resolveArg expected entries acc = Ok opt.
Proof.
  revert acc. induction entries as [|[k value] entries IH]; intros acc Hvars;
    simpl; [eauto|].
  assert (Hrest : forall acc', exists opt,
            resolveOptionsLoop resolveArg expected entries acc' = Ok opt).
  { intros acc'. apply IH. intros key path meta Hin.
    apply (Hvars key path meta). by right. }
  destruct (getExpected expected k) as [exp|]; [|apply Hrest].
  destruct (negb (type_truthy exp) || is_type exp "never"); [apply Hrest|].
  assert (Hval : exists r, resolveOptionValue resolveArg exp value = Ok r).
  { destruct value as [v|path meta|items]; simpl; eauto.
    apply (Hvars k path meta). by left. }
  destruct Hval as [r ->]. simpl. apply Hrest.
Qed.

End OptionsPolicy.

(** C3 (amended).  An option is in the resolved options exactly when it is
    not named [__proto__], the schema (a fixed type name, an enumerated set,
    or a mapping from option names to types) gives its name a type other
    than ["never"], and the value it resolves to passes the rule: its runtime
    type is the expected type, or the expected type is ["any"], or the
    expected type is a list of strings that has it.  The value of a variable
    is what the variable resolves to; a literal expected to be a boolean
    becomes [true] or [false] when it is the text of one and stays as it is
    otherwise, a literal expected to be a number is parsed as one.  No error
    is raised on the way: when the variables among the option values
    resolve, so do the options. *)
Theorem resolveOptions_policy {N : JSNumber} {O : JSObjects}
    (resolveArg : Part -> Outcome JSValue) (entries : Options)
    (expected : option Expected) :
  NoDup entries.*1 ->
  ((forall key path meta,
      (key, OVar path meta) ∈ entries ->
      exists v, resolveArg (VariablePart path meta) = Ok v) ->
   exists opt, resolveOptions resolveArg (Some entries) expected = Ok opt) /\
  (forall opt,
     resolveOptions resolveArg (Some entries) expected = Ok opt ->
     forall key res,
       assoc key opt = Some res <->
       key <> "__proto__" /\
       exists value exp,
         (key, value) ∈ entries /\ declared_type expected key exp /\
         exp <> TypeName "never" /\
         option_result resolveArg exp value res /\
         kept_by_type exp res).
Proof.
  intros Hnd. split.
  - intros Hvars. unfold resolveOptions.
    destruct (expected_truthy expected); [|eauto].
    by apply resolveOptionsLoop_total.
  - intros opt H key res. unfold resolveOptions in H.
    destruct (expected_truthy expected) eqn:Ht.
    + pose proof (resolveOptionsLoop_spec _ _ _ [] _ Hnd
                    (fun _ _ => eq_refl) H key res) as Hs.
      rewrite Hs. split.
      * intros [?|(Hp & value & exp & Hin & Hexp & Hne & Hres & Hk)]; [done|].
        split; [done|]. exists value, exp.
        split_and!; try done;
          [by eapply getExpected_kept|by apply resolveOptionValue_result].
      * intros (Hp & value & exp & Hin & Hexp & Hne & Hres & Hk).
        right. split; [done|]. exists value, exp.
        split_and!; try done;
          [by apply getExpected_declared|by apply resolveOptionValue_result].
    + injection H as <-. split; [done|].
      intros (_ & value & exp & Hin & Hexp & Hne & _ & Hk). exfalso.
      apply getExpected_declared in Hexp.
      destruct expected as [[t|fields]|]; try done. simpl in Ht, Hexp.
      injection Hexp as ->.
      apply (type_skipped_not_kept exp res); [by rewrite Ht|done].
Qed.


(** *** Selection *)
Section Selection.
Context {N : JSNumber} {O : JSObjects} {E : Externals}.

Lemma key_matches_spec (res : list ResolvedSelector) i k r :
  res !! i = Some r ->
  exists b, key_matches res i k = Ok b /\ (b = true <-> key_fits k r).
Proof.
  intros Hr. unfold key_matches. rewrite Hr. eexists. split; [done|].
  unfold key_fits, key_equals, key_member.
  rewrite !orb_true_iff. destruct k as [x|x], r as [v d]; simpl.
  - assert (strict_eq_lit (LStr x) d = true <->
            match lit_to_js d with VStr y => x = y | _ => False end) as ->.
    { destruct d; simpl; [apply String.eqb_eq|done]. }
    assert (strict_eq_js (LStr x) v = true <->
            match v with VStr y => x = y | _ => False end) as ->.
    { destruct v; simpl; try done. apply String.eqb_eq. }
    assert (match v with VArr items => includes items (LStr x) | _ => false end
            = true <->
            exists items, v = VArr items /\
              exists w, w ∈ items /\ match w with VStr y => x = y | _ => False end)
      as ->; [|tauto].
    destruct v; try (split; [done|by intros (? & ? & _)]).
    unfold includes. rewrite existsb_exists. split.
    + intros (w & Hin & Hw). eexists. split; [done|]. exists w.
      rewrite list_elem_of_In. split; [done|].
      destruct w; try done. by apply String.eqb_eq.
    + intros (its & [= <-] & w & Hin & Hw). exists w.
      rewrite <- list_elem_of_In. split; [done|].
      destruct w; try done. by apply String.eqb_eq.
  - assert (strict_eq_lit (LNum x) d = true <->
            match lit_to_js d with VNum y => num_strict_eq x y = true
                              | _ => False end) as ->.
    { by destruct d. }
    assert (strict_eq_js (LNum x) v = true <->
            match v with VNum y => num_strict_eq x y = true | _ => False end)
      as ->.
    { by destruct v. }
    assert (match v with VArr items => includes items (LNum x) | _ => false end
            = true <->
            exists items, v = VArr items /\
              exists w, w ∈ items /\
                match w with VNum y => num_same_value_zero x y = true
                        | _ => False end)
      as ->; [|tauto].
    destruct v; try (split; [done|by intros (? & ? & _)]).
    unfold includes. rewrite existsb_exists. split.
    + intros (w & Hin & Hw). eexists. split; [done|]. exists w.
      rewrite list_elem_of_In. split; [done|]. by destruct w.
    + intros (its & [= <-] & w & Hin & Hw). exists w.
      rewrite <- list_elem_of_In. split; [done|]. by destruct w.
Qed.

(** [every] on a key as long as the selectors that are left: it returns,
    and says whether every key fits. *)
Lemma every_key_spec (res : list ResolvedSelector) i key :
  length key = length (drop i res) ->
  exists b, every_key res i key = Ok b /\
            (b = true <-> Forall2 key_fits key (drop i res)).
Proof.
  revert i. induction key as [|k key IH]; intros i Hlen; simpl.
  - exists true. split; [done|]. split; [|done]. intros _.
    destruct (drop i res); [constructor|done].
  - destruct (drop i res) as [|r rest] eqn:Hd; [done|].
    assert (Hi : res !! i = Some r).
    { rewrite <- (Nat.add_0_r i), <- lookup_drop, Hd. done. }
    assert (Hrest : drop (S i) res = rest).
    { pose proof (drop_S res r i Hi) as Hs. rewrite Hd in Hs. congruence. }
    destruct (key_matches_spec res i k r Hi) as (b & -> & Hb). simpl.
    destruct b.
    + destruct (IH (S i)) as (b' & -> & Hb'); [rewrite Hrest; simpl in *; lia|].
      exists b'. split; [done|]. rewrite Hb', Hrest. split.
      * intros. constructor; [by apply Hb|done].
      * by inversion 1.
    + exists false. split; [done|]. split; [done|].
      inversion 1; subst. by apply Hb.
Qed.

(** The loop over the variants returns the first one that matches fully. *)
Lemma selectCase_spec (res : list ResolvedSelector) (cs : list SelectCase) :
  Forall (fun c => length (case_key c) = length res) cs ->
  (exists before c after,
     cs = before ++ c :: after /\ full_match res c /\
     Forall (fun c' => ~ full_match res c') before /\
     selectCase res cs = Ok (Some c)) \/
  (Forall (fun c => ~ full_match res c) cs /\ selectCase res cs = Ok None).
Proof.
  induction 1 as [|c cs Hlen _ IH]; simpl; [by right|].
  destruct (every_key_spec res 0 (case_key c)) as (b & -> & Hb); [done|].
  rewrite drop_0 in Hb. simpl. destruct b.
  - left. exists [], c, cs. repeat split; [by apply Hb|constructor].
  - destruct IH as [(before & c' & after & -> & Hm & Hbefore & ->)|[Hnone ->]].
    + left. exists (c :: before), c', after. repeat split; [done|].
      constructor; [|done]. intros Hc. by apply Hb in Hc.
    + right. split; [|done]. constructor; [|done].
      intros Hc. by apply Hb in Hc.
Qed.

End Selection.

(** C1.  Once the selectors of a Select are resolved, [resolveSelect] returns
    the pattern of the first variant, in the order of declaration, whose key
    tuple matches fully: every key equals the default of the selector at its
    index, or its resolved value, or is a member of the resolved value when
    that is an array.  A variant that also matches but comes later is not
    chosen; with no matching variant the pattern is empty.  Key tuples are as
    long as the list of selectors, as the data model has them. *)
Theorem resolveSelect_first_match {N : JSNumber} {O : JSObjects} {E : Externals}
    (fuel : nat) (ctx : Context) (sel : Select)
    (res : list ResolvedSelector) :
  mapM (resolveSelector (resolveSelectFunction fuel ctx)
          (resolvePart fuel ctx) ctx) (select sel) = Ok res ->
  Forall (fun c => length (case_key c) = length res) (cases sel) ->
  exists pattern meta,
    resolveSelect (S fuel) ctx sel = Ok (pattern, meta) /\
    ((exists before c after,
        cases sel = before ++ c :: after /\
        full_match res c /\
        Forall (fun c' => ~ full_match res c') before /\
        pattern = case_value c) \/
     (Forall (fun c => ~ full_match res c) (cases sel) /\ pattern = [])).
Proof.
  intros Hres Hlen. simpl. rewrite Hres. simpl.
  destruct (selectCase_spec res (cases sel) Hlen)
    as [(before & c & after & Hc & Hm & Hb & ->)|[Hnone ->]]; simpl.
  - eexists _, _. split; [done|]. left. eauto 10.
  - eexists _, _. split; [done|]. by right.
Qed.

(** *** Property keys *)
Section PropertyKeys.
Context {N : JSNumber} {O : JSObjects}.

(** Reading digits is reading a decimal numeral. *)
Lemma digits_value_uint (s : string) (acc : nat) :
  digits_value acc s =
  (fun d => Nat.of_uint_acc d acc) <$> NilEmpty.uint_of_string s.
Proof.
  revert acc. induction s as [|c s IH]; intros acc; [done|].
  cbn [digits_value NilEmpty.uint_of_string].
  destruct (NilEmpty.uint_of_string s) as [d|] eqn:Hd.
  - destruct c as [[] [] [] [] [] [] [] []];
      cbn [is_digit nat_of_ascii]; try (vm_compute; done);
      (etransitivity; [apply IH|]); cbn [fmap option_fmap option_map uint_of_char
        Nat.of_uint_acc]; rewrite Nat.tail_mul_spec; f_equal; f_equal;
      vm_compute (nat_of_ascii _ - 48); lia.
  - destruct (is_digit c); [|by destruct c as [[] [] [] [] [] [] [] []]].
    rewrite IH.
    by destruct c as [[] [] [] [] [] [] [] []].
Qed.

Lemma unorm_D0_nil (d d' : Decimal.uint) :
  Decimal.unorm d = Decimal.D0 d' -> d' = Decimal.Nil.
Proof.
  induction d; simpl; try done. by intros [= <-].
Qed.

Lemma to_uint_normal (i : nat) : Decimal.unorm (Nat.to_uint i) = Nat.to_uint i.
Proof.
  rewrite <- (DecimalNat.Unsigned.of_to i) at 2.
  by rewrite DecimalNat.Unsigned.to_of.
Qed.

(** The keys that are array indices are the decimal numerals. *)
Lemma array_index_numeral (key : string) (i : nat) :
  array_index key = Some i <-> key = numeral i.
Proof.
  unfold numeral. split.
  - destruct key as [|c rest]; [done|]. cbn [array_index].
    destruct (Ascii.eqb_spec c "0") as [->|Hc].
    + destruct (String.eqb_spec rest "") as [->|]; [|done].
      by intros [= <-].
    + rewrite digits_value_uint.
      destruct (NilEmpty.uint_of_string (String c rest)) as [d|] eqn:Hd;
        [|done].
      intros [= <-]. change (Nat.of_uint_acc d 0) with (Nat.of_uint d).
      rewrite DecimalNat.Unsigned.to_of.
      assert (Hn : Decimal.unorm d = d).
      { cbn [NilEmpty.uint_of_string] in Hd.
        destruct (NilEmpty.uint_of_string rest); [|by destruct c as [[] [] [] [] [] [] [] []]].
        destruct c as [[] [] [] [] [] [] [] []]; try done;
          cbn in Hd; by injection Hd as <-. }
      rewrite Hn. symmetry. by apply NilEmpty.sus.
  - intros ->. pose proof (to_uint_normal i) as Hn.
    pose proof (NilEmpty.usu (Nat.to_uint i)) as Hu.
    pose proof (DecimalNat.Unsigned.of_to i) as Hi.
    destruct (Nat.to_uint i) as [|d|d|d|d|d|d|d|d|d|d] eqn:Hd;
      [by destruct (DecimalFacts.unorm_nonnil Decimal.Nil)| |..].
    { rewrite DecimalFacts.unorm_D0 in Hn. apply unorm_D0_nil in Hn as ->.
      by rewrite <- Hi. }
    all: cbn [NilEmpty.string_of_uint array_index];
      match goal with
      | |- context [Ascii.eqb ?c "0"] =>
        change (Ascii.eqb c "0") with false
      end; cbv iota;
      cbn [NilEmpty.string_of_uint] in Hu;
      rewrite digits_value_uint, Hu; cbn [fmap option_fmap option_map];
      by rewrite <- Hi.
Qed.

Lemma element_named_index (items : list JSValue) (key : string) (i : nat) :
  element_named i items key =
  match array_index key with
  | Some j => if i <=? j then items !! (j - i) else None
  | None => None
  end.
Proof.
  revert i. induction items as [|x items IH]; intros i; cbn [element_named].
  { destruct (array_index key) as [j|]; [|done]. by destruct (i <=? j). }
  destruct (String.eqb_spec (numeral i) key) as [<-|Hne].
  - rewrite (proj2 (array_index_numeral _ i) eq_refl).
    rewrite Nat.leb_refl, Nat.sub_diag. done.
  - rewrite IH. destruct (array_index key) as [j|] eqn:Hj; [|done].
    assert (j <> i).
    { intros ->. by apply array_index_numeral in Hj. }
    destruct (Nat.leb_spec (S i) j), (Nat.leb_spec i j); try lia; [|done].
    by replace (j - i) with (S (j - S i)) by lia.
Qed.

Lemma assoc_list_find (key : string) (fields : list (string * JSValue)) :
  assoc key fields =
  (fun r => r.2.2) <$> list_find (fun e => e.1 = key) fields.
Proof.
  induction fields as [|[k v] fields IH]; [done|].
  cbn [assoc list_find]. cbn [fst].
  destruct (String.eqb_spec k key) as [->|Hne].
  - by rewrite decide_True.
  - rewrite decide_False by done. rewrite IH.
    by destruct (list_find _ fields) as [[? [? ?]]|].
Qed.

(** [val[key]] reads what the specification calls the member of [val]
    named [key]. *)
Lemma get_prop_member (val : JSValue) (key : string) :
  get_prop val key = member val key.
Proof.
  destruct val as [| |b|n|s|items|fields|inner|source]; try done.
  - unfold get_prop, member. rewrite element_named_index.
    destruct (array_index key) as [j|] eqn:Hj.
    + cbn [Nat.leb]. rewrite Nat.sub_0_r.
      destruct (Nat.ltb_spec j (length items)) as [Hlt|Hge].
      * destruct (lookup_lt_is_Some_2 items j Hlt) as [x Hx].
        rewrite Hx. by apply nth_lookup_Some.
      * rewrite (lookup_ge_None_2 items j) by done.
        rewrite decide_False; [done|].
        intros ->. by vm_compute in Hj.
    + destruct (String.eqb_spec key "length") as [->|Hne].
      * by rewrite decide_True.
      * by rewrite decide_False.
  - unfold get_prop, member. rewrite assoc_list_find.
    by destruct (list_find _ fields) as [[? [? ?]]|].
Qed.

End PropertyKeys.

(** *** Variables *)
Section Variables.
Context {N : JSNumber} {O : JSObjects} {E : Externals}.

Lemma resolvePart_S fuel ctx part :
  resolvePart (S fuel) ctx part =
  match part with
  | LiteralPart value meta =>
    Ok (FormattedLiteral (locales ctx) value (init_meta meta))
  | VariablePart var_path meta => resolveVariable fuel ctx var_path meta
  | FunctionPart func args options meta =>
    resolveFormatFunction fuel ctx func args options meta
  | TermPart res_id msg_path scope meta =>
    resolveTerm fuel ctx res_id msg_path scope meta
  end.
Proof. reflexivity. Qed.

Lemma resolveArgument_S fuel ctx part :
  resolveArgument (S fuel) ctx part =
  match part with
  | LiteralPart value _ => Ok (lit_to_js value)
  | VariablePart var_path meta =>
    bind (resolveVariable fuel ctx var_path meta) (fun f => Ok (fmt_valueOf f))
  | _ => Throw unsupported_argument
  end.
Proof. reflexivity. Qed.

Lemma resolveVariable_S fuel ctx var_path meta :
  resolveVariable (S fuel) ctx var_path meta =
  bind (walkPath (resolveArgument fuel ctx)
          (match var_path with [] => VUndefined | _ => scope ctx end) var_path)
    (fun val =>
       match val with
       | VUndefined => resolveFallback fuel ctx (VariablePart var_path meta)
       | _ => Ok (FormattedDynamic (locales ctx) val (init_meta meta))
       end).
Proof. reflexivity. Qed.

Lemma resolveFallback_S fuel ctx part :
  resolveFallback (S fuel) ctx part =
  bind (fallbackValue fuel ctx part) (fun text =>
  Ok (FormattedFallback (locales ctx) text (init_meta (part_meta part)))).
Proof. reflexivity. Qed.

Lemma fallbackValue_variable fuel ctx var_path meta :
  fallbackValue (S fuel) ctx (VariablePart var_path meta) =
  bind (mapM (fun p => bind (resolvePart fuel ctx p)
                         (fun f => Ok (fmt_valueOf f))) var_path)
    (fun path => Ok (String.append "$" (js_join "." path))).
Proof. reflexivity. Qed.

Lemma mapM_ext_Ok {A B} (f : A -> Outcome B) (g : A -> B) (l : list A) :
  Forall (fun x => f x = Ok (g x)) l -> mapM f l = Ok (List.map g l).
Proof.
  induction 1 as [|x l Hx _ IH]; simpl; [done|]. by rewrite Hx, IH.
Qed.

(** The loop of [resolveVariable] is the walk of the specification. *)
Lemma walkPath_lookup (resolveArg : Part -> Outcome JSValue)
    (value : Part -> JSValue) val path :
  Forall (fun p => resolveArg p = Ok (value p)) path ->
  walkPath resolveArg val path =
  Ok (default VUndefined
        (lookup_path val (List.map (fun p => to_string (value p)) path))).
Proof.
  intros Hall. revert val.
  induction Hall as [|p path Hp _ IH]; intros val; simpl.
  { by destruct val. }
  unfold indexable.
  destruct (truthy val); simpl; [|done].
  destruct (String.eqb (typeof val) "object"); simpl; [|done].
  rewrite Hp. simpl. rewrite get_prop_member. apply IH.
Qed.

Lemma lookup_path_defined val keys v :
  lookup_path val keys = Some v -> v <> VUndefined.
Proof.
  revert val. induction keys as [|k keys IH]; intros val; simpl.
  - destruct val; by intros [= <-].
  - destruct (indexable val); [apply IH|done].
Qed.

Lemma forallb_Forall {A} (f : A -> bool) l :
  forallb f l = true -> Forall (fun x => f x = true) l.
Proof.
  induction l as [|x l IH]; simpl; [constructor|].
  intros [? ?]%andb_true_iff. constructor; auto.
Qed.

Lemma path_depth_le path n :
  path_depth path <= n -> Forall (fun p => part_depth p <= n) path.
Proof.
  unfold path_depth.
  induction path as [|p path IH]; simpl; [constructor|].
  intros H. constructor; [lia|]. apply IH. lia.
Qed.

(** A variable resolves as the specification says, once its segments do. *)
Lemma resolveVariable_result fuel ctx path meta :
  Forall (fun p =>
    resolveArgument (S (S (S fuel))) ctx p = Ok (part_value ctx p) /\
    exists f, resolvePart (S fuel) ctx p = Ok f /\
              fmt_valueOf f = part_value ctx p) path ->
  resolveVariable (S (S (S (S fuel)))) ctx path meta =
  Ok (variable_result ctx (List.map (part_value ctx) path) meta).
Proof.
  intros Hall. rewrite resolveVariable_S.
  rewrite (walkPath_lookup _ (part_value ctx))
    by (eapply Forall_impl; [exact Hall|]; by intros p [? _]).
  unfold variable_result.
  assert (Hfb :
    resolveFallback (S (S (S fuel))) ctx (VariablePart path meta) =
    Ok (FormattedFallback (locales ctx)
          (String.append "$" (js_join "." (List.map (part_value ctx) path)))
          (init_meta meta))).
  { rewrite resolveFallback_S, fallbackValue_variable.
    rewrite (mapM_ext_Ok _ (part_value ctx)); [done|].
    eapply Forall_impl; [exact Hall|].
    intros p [_ (f & -> & <-)]. done. }
  destruct path as [|p path]; [exact Hfb|].
  cbn [List.map]. rewrite map_map.
  destruct (lookup_path (scope ctx) _) as [v|] eqn:Hl; simpl; [|exact Hfb].
  apply lookup_path_defined in Hl. by destruct v.
Qed.

(** Supported parts resolve to their value, with fuel for their depth. *)
Lemma supported_arg_resolves ctx n :
  forall p, supported_arg p = true -> part_depth p <= n ->
  forall fuel, 4 * n + 1 <= fuel ->
    resolveArgument fuel ctx p = Ok (part_value ctx p) /\
    exists f, resolvePart fuel ctx p = Ok f /\
              fmt_valueOf f = part_value ctx p.
Proof.
  induction n as [|n IH]; intros p Hs Hd fuel Hf.
  - destruct fuel as [|fuel]; [lia|].
    destruct p; simpl in Hs, Hd; try done; try lia.
    rewrite resolveArgument_S, resolvePart_S. eauto.
  - destruct fuel as [|fuel]; [lia|].
    destruct p as [v m|path m| |]; simpl in Hs; try done.
    { rewrite resolveArgument_S, resolvePart_S. eauto. }
    simpl in Hd. apply le_S_n in Hd. fold (path_depth path) in Hd.
    do 4 (destruct fuel as [|fuel]; [lia|]).
    assert (Hall : Forall (fun p =>
      resolveArgument (S (S (S fuel))) ctx p = Ok (part_value ctx p) /\
      exists f, resolvePart (S fuel) ctx p = Ok f /\
                fmt_valueOf f = part_value ctx p) path).
    { apply path_depth_le in Hd. apply forallb_Forall in Hs.
      rewrite Forall_forall in *. intros q Hq. split.
      - apply IH; [by apply Hs|by apply Hd|lia].
      - apply IH; [by apply Hs|by apply Hd|lia]. }
    pose proof (resolveVariable_result fuel ctx path m Hall) as Hv.
    rewrite resolveArgument_S, resolvePart_S, Hv. simpl. eauto.
Qed.

End Variables.

(** C7.  A variable whose path segments are literals or variables resolves,
    given fuel for the depth of the path: to a Dynamic with the value at the
    end of the path when every value on the way can be indexed and the last
    lookup finds something, and otherwise (also for an empty path) to a
    Fallback with the text [$] and the resolved path joined by dots.  A
    lookup finds the entry of an object, the element or the length of an
    array, or what the value inherits under the name.  The path
    [["a", "b"]] against the scope [{a: {}}] gives the Fallback with the
    text [$a.b], no object inheriting a member named [b]. *)
Theorem resolveVariable_walks_path {N : JSNumber} {O : JSObjects} {E : Externals}
    (fuel : nat) (ctx : Context) (path : list Part) (meta : option Meta) :
  forallb supported_arg path = true ->
  4 * path_depth path + 4 <= fuel ->
  let keys := List.map (part_value ctx) path in
  resolveVariable fuel ctx path meta =
    Ok (match path, lookup_path (scope ctx) (List.map to_string keys) with
        | _ :: _, Some v => FormattedDynamic (locales ctx) v (init_meta meta)
        | _, _ =>
          FormattedFallback (locales ctx)
            (String.append "$" (js_join "." keys)) (init_meta meta)
        end) /\
  (scope ctx = VObj [("a", VObj [])] -> object_prototype "b" = None ->
   resolveVariable fuel ctx
     [LiteralPart (LStr "a") None; LiteralPart (LStr "b") None] None =
   Ok (FormattedFallback (locales ctx) "$a.b" None)).
Proof.
  intros Hs Hf keys.
  assert (Hgen : forall path' meta',
    forallb supported_arg path' = true -> path_depth path' <= path_depth path ->
    resolveVariable fuel ctx path' meta' =
    Ok (variable_result ctx (List.map (part_value ctx) path') meta')).
  { intros path' meta' Hs' Hd'.
    do 4 (destruct fuel as [|fuel]; [lia|]).
    apply resolveVariable_result.
    apply path_depth_le in Hd'. apply forallb_Forall in Hs'.
    rewrite Forall_forall in *. intros q Hq. split.
    - apply (supported_arg_resolves ctx (path_depth path));
        [by apply Hs'|by apply Hd'|lia].
    - apply (supported_arg_resolves ctx (path_depth path));
        [by apply Hs'|by apply Hd'|lia]. }
  split.
  - rewrite (Hgen path meta Hs) by done. unfold variable_result.
    subst keys. by destruct path.
  - intros Hscope Hb. rewrite Hgen; [|done|simpl; lia].
    unfold variable_result. simpl. rewrite Hscope. simpl.
    by rewrite Hb.
Qed.

(** *** Functions that fail *)
Section Failures.
Context {N : JSNumber} {O : JSObjects} {E : Externals}.

Lemma resolveFormatFunction_S fuel ctx func args options meta :
  resolveFormatFunction (S fuel) ctx func args options meta =
  let rf := format (runtime ctx) !! func in
  bind (mapM (resolveArgument fuel ctx) args) (fun fnArgs =>
  bind (resolveOptions (resolveArgument fuel ctx) options (rf ≫= fn_options))
    (fun fnOpt =>
  match call_function rf (locales ctx) fnOpt fnArgs with
  | Ok value =>
    match value with
    | RetFormatted f =>
      if is_literal_formatted f
      then Ok (wrapDynamic (locales ctx) value meta)
      else Ok (match meta with
               | Some m => fmt_addMeta f m
               | None => f
               end)
    | RetValue _ => Ok (wrapDynamic (locales ctx) value meta)
    end
  | Throw error =>
    bind (resolveFallback fuel ctx (FunctionPart func args options meta))
      (fun fb =>
    bind (error_meta error) (fun em => Ok (fmt_addMeta fb em)))
  | OutOfFuel => OutOfFuel
  end)).
Proof. reflexivity. Qed.

Lemma fallbackValue_function fuel ctx func args options meta :
  fallbackValue (S fuel) ctx (FunctionPart func args options meta) =
  bind (mapM (fun p => bind (resolvePart fuel ctx p)
                         (fun f => Ok (fmt_valueOf f))) args)
    (fun args =>
       Ok (String.append func
             (String.append "("
                (String.append
                   (js_join ", "
                      (match options with
                       | Some entries => args ++ List.map option_text entries
                       | None => args
                       end)) ")")))).
Proof. reflexivity. Qed.

Lemma error_meta_defined error :
  error <> VUndefined -> error <> VNull ->
  error_meta error = Ok (failure_meta error).
Proof.
  intros H1 H2. unfold failure_meta. rewrite <- !get_prop_member.
  by destruct error.
Qed.

(** With supported variables the options resolve as with the values of the
    specification. *)
Lemma resolveOptionsLoop_supported fuel ctx expected (entries : Options) acc :
  Forall (fun entry =>
    match entry.2 with
    | OVar path meta =>
      resolveArgument fuel ctx (VariablePart path meta) =
      Ok (part_value ctx (VariablePart path meta))
    | _ => True
    end) entries ->
  resolveOptionsLoop (resolveArgument fuel ctx) expected entries acc =
  resolveOptionsLoop (fun p => Ok (part_value ctx p)) expected entries acc.
Proof.
  intros Hall. revert acc.
  induction Hall as [|[k value] entries Hv _ IH]; intros acc; simpl; [done|].
  destruct (getExpected expected k) as [exp|]; [|apply IH].
  destruct (negb (type_truthy exp) || is_type exp "never"); [apply IH|].
  assert (Hval : resolveOptionValue (resolveArgument fuel ctx) exp value =
                 resolveOptionValue (fun p => Ok (part_value ctx p)) exp value).
  { destruct value; simpl in *; done. }
  rewrite Hval.
  destruct (resolveOptionValue (fun p => Ok (part_value ctx p)) exp value);
    simpl; [apply IH|done|done].
Qed.

Lemma supported_options_resolve fuel ctx options expected :
  supported_options options = true ->
  4 * options_depth options + 1 <= fuel ->
  resolveOptions (resolveArgument fuel ctx) options expected =
  resolved_options ctx options expected.
Proof.
  intros Hs Hf. unfold resolved_options, resolveOptions.
  destruct options as [entries|]; [|done].
  destruct (expected_truthy expected); [|done].
  apply resolveOptionsLoop_supported.
  simpl in Hs, Hf. apply forallb_Forall in Hs.
  induction Hs as [|[k value] entries Hv _ IH]; [constructor|].
  simpl in Hf. constructor; [|apply IH; lia].
  destruct value as [|path meta|]; cbn [snd] in *; try done.
  apply (supported_arg_resolves ctx (S (path_depth path)));
    [done|done|simpl in Hf; lia].
Qed.

Lemma supported_args_resolve fuel ctx args :
  forallb supported_arg args = true ->
  4 * path_depth args + 1 <= fuel ->
  mapM (resolveArgument fuel ctx) args = Ok (List.map (part_value ctx) args) /\
  mapM (fun p => bind (resolvePart fuel ctx p) (fun f => Ok (fmt_valueOf f)))
    args = Ok (List.map (part_value ctx) args).
Proof.
  intros Hs Hf. apply forallb_Forall in Hs.
  pose proof (path_depth_le args _ (Nat.le_refl _)) as Hd.
  split; apply mapM_ext_Ok; rewrite Forall_forall in *; intros p Hp.
  - apply (supported_arg_resolves ctx (path_depth args)); auto.
  - destruct (supported_arg_resolves ctx (path_depth args) p) with (fuel := fuel)
      as [_ (f & -> & <-)]; auto.
Qed.

(** The failure of a call, once arguments and options are resolved, ends in
    the Fallback of the function with the failure's fields merged into the
    metadata. *)
Lemma resolveFormatFunction_caught fuel ctx func args options meta fnOpt error :
  forallb supported_arg args = true ->
  4 * path_depth args + 1 <= fuel ->
  resolveOptions (resolveArgument (S (S fuel)) ctx) options
    (format (runtime ctx) !! func ≫= fn_options) = Ok fnOpt ->
  call_function (format (runtime ctx) !! func) (locales ctx) fnOpt
    (List.map (part_value ctx) args) = Throw error ->
  error <> VUndefined -> error <> VNull ->
  resolveFormatFunction (S (S (S fuel))) ctx func args options meta =
  Ok (FormattedFallback (locales ctx) (function_text ctx func args options)
        (Some (addMeta (init_meta meta) (failure_meta error)))).
Proof.
  intros Hs Hf Hopt Hcall Hu Hn.
  rewrite resolveFormatFunction_S. cbv zeta.
  destruct (supported_args_resolve (S (S fuel)) ctx args Hs) as [-> _]; [lia|].
  cbn [bind]. rewrite Hopt. cbn [bind]. rewrite Hcall.
  rewrite resolveFallback_S, fallbackValue_function.
  destruct (supported_args_resolve fuel ctx args Hs Hf) as [_ ->].
  cbn [bind]. rewrite (error_meta_defined error Hu Hn). cbn [bind].
  unfold fmt_addMeta, function_text. cbn [fmt_meta set_fmt_meta part_meta].
  destruct options; [done|]. by rewrite app_nil_r.
Qed.

Lemma append_empty_r (s : string) : String.append s "" = s.
Proof.
  induction s as [|c s IH]; [done|].
  change (String c (String.append s "") = String c s). by rewrite IH.
Qed.

Lemma append_append (a b c : string) :
  String.append (String.append a b) c = String.append a (String.append b c).
Proof.
  induction a as [|x a IH]; [done|].
  change (String x (String.append (String.append a b) c) =
          String x (String.append a (String.append b c))).
  by rewrite IH.
Qed.

Lemma fold_toString_literals (texts : list (string * option Meta))
    (locales : list string) (acc : string) :
  fold_left (fun res fp => String.append res (fmt_toString fp))
    (List.map (fun t => FormattedLiteral locales (LStr t.1) (init_meta t.2))
       texts) acc =
  String.append acc (fold_right String.append "" (List.map fst texts)).
Proof.
  revert acc. induction texts as [|[s m] texts IH]; intros acc;
    cbn [List.map fold_left fold_right fst snd].
  - by rewrite append_empty_r.
  - rewrite IH. cbn [fmt_toString value_toString lit_to_js to_locale_string].
    apply append_append.
Qed.

End Failures.


(** C10 (amended).  For a function part under whose name the format
    registry gives nothing, neither a registered function nor a member the
    registry inherits, and whose arguments are literals or variables,
    [resolveFormatFunction] raises nothing: the failed call is caught, and
    the result is the Fallback with the canonical rendering as its text.
    Its metadata is the part's own metadata followed by [error_name],
    [error_message] and [error_stack] with the name [TypeError], the message
    the engine has for reading [call] from [undefined], and the stack of
    that error, merged as metadata is. *)
Theorem missing_function_falls_back {N : JSNumber} {O : JSObjects} {E : Externals}
    (fuel : nat) (ctx : Context) (func : string) (args : list Part)
    (options : option Options) (meta : option Meta) :
  format (runtime ctx) !! func = None ->
  forallb supported_arg args = true ->
  4 * path_depth args + 4 <= fuel ->
  exists m,
    resolveFormatFunction fuel ctx func args options meta =
      Ok (FormattedFallback (locales ctx)
            (function_text ctx func args options) (Some m)) /\
    let message := nullish_read_message VUndefined "call" in
    forall key,
      m !! key =
      if decide (inherited_name key) then None
      else first_retained key
             (default [] meta ++
              [("error_name", VStr "TypeError");
               ("error_message", VStr message);
               ("error_stack", VStr (error_stack "TypeError" message))]).
Proof.
  intros Hrf Hargs Hf.
  exists (addMeta (init_meta meta) (failure_meta missing_function_error)).
  do 3 (destruct fuel as [|fuel]; [lia|]).
  split.
  - apply (resolveFormatFunction_caught _ _ _ _ _ _ []); try done; try lia.
    + rewrite Hrf. unfold resolveOptions. by destruct options.
    + by rewrite Hrf.
  - intros message key. by rewrite addMeta_init_lookup.
Qed.

(** C8 (amended).  A pattern of literal parts whose values are strings
    renders as the concatenation of the values, whatever the context: two
    contexts, with any locales and scopes, give the same string. *)
Theorem literal_pattern_verbatim {N : JSNumber} {O : JSObjects} {E : Externals}
    (fuel : nat) (ctx1 ctx2 : Context) (meta : option Meta)
    (texts : list (string * option Meta)) :
  2 <= fuel ->
  let pattern := List.map (fun t => LiteralPart (LStr t.1) t.2) texts in
  let msg := mkMessage meta (BodyPattern pattern) in
  formatToString fuel ctx1 msg =
    Ok (fold_right String.append "" (List.map fst texts)) /\
  formatToString fuel ctx2 msg = formatToString fuel ctx1 msg.
Proof.
  intros Hf pattern msg.
  assert (Hone : forall ctx,
    formatToString fuel ctx msg =
    Ok (fold_right String.append "" (List.map fst texts))).
  { intros ctx. do 2 (destruct fuel as [|fuel]; [lia|]).
    unfold formatToString.
    assert (Hparts : mapM (resolvePart (S fuel) ctx) pattern =
      Ok (List.map (fun t => FormattedLiteral (locales ctx) (LStr t.1)
                               (init_meta t.2)) texts)).
    { subst pattern. clear. induction texts as [|t texts IH]; [done|].
      cbn [List.map mapM]. rewrite resolvePart_S. cbn [bind].
      by rewrite IH. }
    change (formatToParts (S (S fuel)) ctx msg) with
      (bind (Ok (pattern, None : option Meta)) (fun '(pattern, fsm) =>
       bind (mapM (resolvePart (S fuel) ctx) pattern) (fun res =>
       match msg_meta msg, fsm with
       | None, None => Ok res
       | meta, _ =>
         let fm := FormattedMessage (locales ctx) res (init_meta meta) in
         Ok [match fsm with
             | Some m => fmt_addMeta fm m
             | None => fm
             end]
       end))).
    cbn [bind]. rewrite Hparts. cbn [bind]. subst msg. cbn [msg_meta].
    destruct meta; cbn [bind fold_left fmt_toString];
      by rewrite fold_toString_literals. }
  split; [apply Hone|]. by rewrite !Hone.
Qed.

Import RefRuntime.

(** *** The theorems at concrete messages *)

(** The theorem at the selector [1] with [plural] giving ["one"], and the
    variants [one] and [other]: the first variant is chosen. *)
Lemma resolveSelect_first_match_witness :
  exists pattern meta,
    resolveSelect 3 plural_context one_other = Ok (pattern, meta) /\
    ((exists before c after,
        cases one_other = before ++ c :: after /\
        full_match [mkResolved (VStr "one") (LStr "other")] c /\
        Forall (fun c' => ~ full_match [mkResolved (VStr "one") (LStr "other")] c')
          before /\
        pattern = case_value c) \/
     (Forall (fun c => ~ full_match [mkResolved (VStr "one") (LStr "other")] c)
        (cases one_other) /\ pattern = [])).
Proof.
  apply (resolveSelect_first_match 2 plural_context one_other
           [mkResolved (VStr "one") (LStr "other")]).
  - reflexivity.
  - repeat constructor.
Defined.

(** Both orders of the two variants: each time the first declared variant
    that matches is the result. *)
Example resolveSelect_tie_break :
  resolveSelect 3 plural_context one_other = Ok ([text "X"], None) /\
  resolveSelect 3 plural_context other_one = Ok ([text "Y"], None).
Proof. split; reflexivity. Qed.

(** The theorem at paths of two segments: an entry of an object, an
    element of an array, a member that an object inherits, and the path
    [["a", "b"]] against the scope [{a: {}}]. *)
Lemma resolveVariable_walks_path_witness :
  resolveVariable 4
    (ref_context ["en"] (VObj [("a", VObj [("b", VStr "x")])]) ∅ ∅)
    [text "a"; text "b"] None =
  Ok (FormattedDynamic ["en"] (VStr "x") None) /\
  resolveVariable 4
    (ref_context ["en"] (VObj [("a", VArr [VStr "p"; VStr "q"])]) ∅ ∅)
    [text "a"; text "1"] None =
  Ok (FormattedDynamic ["en"] (VStr "q") None) /\
  resolveVariable 4 (ref_context ["en"] (VObj [("a", VObj [])]) ∅ ∅)
    [text "a"; text "toString"] None =
  Ok (FormattedDynamic ["en"] (native_function "toString") None) /\
  resolveVariable 4 (ref_context ["en"] (VObj [("a", VObj [])]) ∅ ∅)
    [text "a"; text "b"] None =
  Ok (FormattedFallback ["en"] "$a.b" None).
Proof.
  split_and!.
  - exact (proj1 (resolveVariable_walks_path 4
                    (ref_context ["en"] (VObj [("a", VObj [("b", VStr "x")])])
                       ∅ ∅)
                    [text "a"; text "b"] None eq_refl ltac:(simpl; lia))).
  - exact (proj1 (resolveVariable_walks_path 4
                    (ref_context ["en"]
                       (VObj [("a", VArr [VStr "p"; VStr "q"])]) ∅ ∅)
                    [text "a"; text "1"] None eq_refl ltac:(simpl; lia))).
  - exact (proj1 (resolveVariable_walks_path 4
                    (ref_context ["en"] (VObj [("a", VObj [])]) ∅ ∅)
                    [text "a"; text "toString"] None eq_refl
                    ltac:(simpl; lia))).
  - exact (proj2 (resolveVariable_walks_path 4
                    (ref_context ["en"] (VObj [("a", VObj [])]) ∅ ∅)
                    [text "a"; text "b"] None eq_refl
                    ltac:(simpl; lia)) eq_refl eq_refl).
Defined.


(** A pattern around the failing function: the parts before and after
    resolve, and the message renders with the fallback text in braces. *)
Example failing_function_in_pattern :
  formatToString 6 failing_context
    (mkMessage None
       (BodyPattern
          [text "Hello ";
           FunctionPart "fail" [text "a"] (Some [("opt", OLit (LStr "x"))])
             None;
           text "!"])) =
  Ok "Hello {fail(a, opt: x)}!".
Proof. reflexivity. Qed.


(** The theorem at [nope(a)] with an empty registry. *)
Lemma missing_function_falls_back_witness :
  exists m,
    resolveFormatFunction 4 (ref_context ["en"] (VObj []) ∅ ∅) "nope"
      [text "a"] None None =
    Ok (FormattedFallback ["en"] "nope(a)" (Some m)) /\
    m !! "error_name" = Some (MStr "TypeError") /\
    m !! "error_message" =
      Some (MStr "Cannot read properties of undefined (reading 'call')").
Proof.
  destruct (missing_function_falls_back 4 (ref_context ["en"] (VObj []) ∅ ∅)
              "nope" [text "a"] None None)
    as (m & Hres & Hmeta);
    [reflexivity|reflexivity|simpl; lia|].
  exists m. split; [exact Hres|].
  split; [exact (Hmeta "error_name")|exact (Hmeta "error_message")].
Defined.

(** C10 as stated fails.  A name that is not registered can still be found:
    a registry that is a plain object inherits [toString], and the part
    [toString()] resolves to what that function returns for the locales,
    not to a Fallback.  An argument that is itself a function makes the
    resolution raise before the lookup is tried; a part whose own metadata
    has [error_name] keeps it, and the name of the failure is not
    recorded. *)
Lemma missing_function_counterexample :
  resolveFormatFunction 4 (ref_context ["en"] (VObj []) ∅ ∅) "toString"
    [] None None =
  Ok (FormattedDynamic ["en"] (VStr "[object Array]") None) /\
  resolveFormatFunction 4 (ref_context ["en"] (VObj []) ∅ ∅) "nope"
    [FunctionPart "g" [] None None] None None =
  Throw unsupported_argument /\
  exists m,
    resolveFormatFunction 4 (ref_context ["en"] (VObj []) ∅ ∅) "nope" [] None
      (Some [("error_name", VStr "mine")]) =
    Ok (FormattedFallback ["en"] "nope()" (Some m)) /\
    m !! "error_name" = Some (MStr "mine").
Proof.
  split; [reflexivity|]. split; [reflexivity|].
  eexists. split; [reflexivity|reflexivity].
Qed.

(** The theorem at [Hello world] and the locales [en] and [de]. *)
Lemma literal_pattern_verbatim_witness :
  formatToString 2 (ref_context ["en"] (VObj []) ∅ ∅)
    (mkMessage None (BodyPattern [text "Hello "; text "world"])) =
  Ok "Hello world" /\
  formatToString 2 (ref_context ["de"] (VObj []) ∅ ∅)
    (mkMessage None (BodyPattern [text "Hello "; text "world"])) =
  formatToString 2 (ref_context ["en"] (VObj []) ∅ ∅)
    (mkMessage None (BodyPattern [text "Hello "; text "world"])).
Proof.
  apply (literal_pattern_verbatim 2 (ref_context ["en"] (VObj []) ∅ ∅)
           (ref_context ["de"] (VObj []) ∅ ∅) None
           [("Hello ", None); ("world", None)]).
  lia.
Defined.

(** C8 as stated fails: a literal part can have a number as its value, and
    a number is rendered for the locale.  The literal 1234567 is neither
    rendered verbatim nor the same for [en] and [de]. *)
Lemma literal_pattern_counterexample :
  let msg := mkMessage None
               (BodyPattern [LiteralPart (LNum (Some 1234567%Z)) None]) in
  to_string (VNum (Some 1234567%Z)) = "1234567" /\
  formatToString 2 (ref_context ["en"] (VObj []) ∅ ∅) msg = Ok "1,234,567" /\
  formatToString 2 (ref_context ["de"] (VObj []) ∅ ∅) msg = Ok "1.234.567".
Proof. repeat split; reflexivity. Qed.

(** The theorem at three options against a schema that maps names to
    types, a schema that is one type name, and a schema that is an
    enumerated set. *)
Lemma resolveOptions_policy_witness :
  let entries := [("a", OLit (LStr "true")); ("b", OLit (LStr "7"));
                  ("c", OLit (LStr "z"))] in
  let resolveArg := fun _ : Part => Ok VUndefined in
  let enumerated := Some (ExpectedType (TypeEnum ["z"; "7"])) in
  NoDup entries.*1 /\
  resolveOptions resolveArg (Some entries)
    (Some (ExpectedRecord
             [("a", TypeName "boolean"); ("b", TypeName "number");
              ("c", TypeEnum ["x"; "y"])])) =
    Ok [("a", VBool true); ("b", VNum (Some 7%Z))] /\
  resolveOptions resolveArg (Some entries)
    (Some (ExpectedType (TypeName "string"))) =
    Ok [("a", VStr "true"); ("b", VStr "7"); ("c", VStr "z")] /\
  resolveOptions resolveArg (Some entries) enumerated =
    Ok [("b", VStr "7"); ("c", VStr "z")] /\
  (forall opt,
     resolveOptions resolveArg (Some entries) enumerated = Ok opt ->
     assoc "c" opt = Some (VStr "z")).
Proof.
  intros entries resolveArg enumerated.
  assert (Hnd : NoDup entries.*1) by (by vm_compute; apply (bool_decide_unpack _)).
  split; [exact Hnd|]. do 3 (split; [reflexivity|]).
  intros opt Hopt.
  apply (proj2 (resolveOptions_policy resolveArg entries enumerated Hnd)
           opt Hopt "c" (VStr "z")).
  split; [discriminate|].
  exists (OLit (LStr "z")), (TypeEnum ["z"; "7"]).
  split; [apply list_elem_of_In; simpl; tauto|].
  split; [by left|]. split; [discriminate|].
  split.
  - right. right. right. right. split; [discriminate|].
    split; [discriminate|reflexivity].
  - right. right. exists ["z"; "7"], "z".
    split; [reflexivity|]. split; [reflexivity|]. apply list_elem_of_here.
Defined.

(** C3 as stated fails for one name: an option named [__proto__] passes the
    rule under the schema ["any"], and the options the function is handed
    have no such entry; the assignment went to the accessor of
    [Object.prototype]. *)
Lemma resolveOptions_proto_counterexample :
  kept_by_type (TypeName "any") (VStr "x") /\
  resolveOptions (fun _ : Part => Ok VUndefined)
    (Some [("__proto__", OLit (LStr "x")); ("k", OLit (LStr "x"))])
    (Some (ExpectedType (TypeName "any"))) =
  Ok [("k", VStr "x")].
Proof. split; [by right; left|reflexivity]. Qed.

(** Merging at concrete entries: what the bag has stays, the first of two
    entries for a key wins, a wrapped number is kept as a number, an array
    is dropped, [null] is kept, and nothing is stored under [toString]. *)
Example addMeta_merges :
  addMeta (Some {["a" := MStr "old"]})
    [("a", VStr "new"); ("b", VWrapper (VNum (Some 5%Z))); ("c", VArr []);
     ("d", VNull); ("b", VStr "late"); ("toString", VStr "t")] =
  <["a" := MStr "old"]> (<["b" := MNum (Some 5%Z)]> {["d" := MNull]}).
Proof. reflexivity. Qed.

(** C6 as stated fails: an entry whose value is [null] is an object without
    a scalar projection, and it is kept, as [null]; an entry named
    [constructor], a name that the bag inherits, is a string and is not
    kept, while the entry after it is. *)
Lemma addMeta_null_counterexample :
  addMeta None [("k", VNull)] !! "k" = Some MNull /\
  addMeta None [("constructor", VStr "c"); ("ok", VStr "o")] !! "constructor"
    = None /\
  addMeta None [("constructor", VStr "c"); ("ok", VStr "o")] !! "ok"
    = Some (MStr "o").
Proof. split_and!; reflexivity. Qed.

End ResolveProps.

(** * Further properties of the resolution engine *)
Module ResolveExtra.
Import Resolve ResolveSpec ResolveProps.

Section Rendering.
Context {N : JSNumber} {O : JSObjects} {E : Externals}.

Lemma formatToParts_S fuel ctx msg :
  formatToParts (S fuel) ctx msg =
  bind (match msg_value msg with
        | BodySelect sel => resolveSelect fuel ctx sel
        | BodyPattern pattern => Ok (pattern, None)
        end)
    (fun '(pattern, fsm) =>
  bind (mapM (resolvePart fuel ctx) pattern) (fun res =>
  match msg_meta msg, fsm with
  | None, None => Ok res
  | meta, _ =>
    let fm := FormattedMessage (locales ctx) res (init_meta meta) in
    Ok [match fsm with
        | Some m => fmt_addMeta fm m
        | None => fm
        end]
  end)).
Proof. reflexivity. Qed.

Lemma fold_toString_acc (parts : list Formatted) (acc : string) :
  fold_left (fun res fp => String.append res (fmt_toString fp)) parts acc =
  String.append acc (render parts).
Proof.
  unfold render. revert acc.
  induction parts as [|p parts IH]; intros acc; cbn [fold_left List.map fold_right].
  - by rewrite append_empty_r.
  - rewrite IH. apply append_append.
Qed.

Lemma fmt_toString_message locales parts meta :
  fmt_toString (FormattedMessage locales parts meta) = render parts.
Proof.
  change (fmt_toString (FormattedMessage locales parts meta)) with
    (fold_left (fun res fp => String.append res (fmt_toString fp)) parts "").
  by rewrite fold_toString_acc.
Qed.

End Rendering.

(** X1.  The metadata of a message never changes what it renders to: with
    and without metadata, [formatToString] gives the same outcome. *)
Theorem formatToString_ignores_metadata {N : JSNumber} {O : JSObjects} {E : Externals}
    (fuel : nat) (ctx : Context) (meta : option Meta) (body : MessageBody) :
  formatToString fuel ctx (mkMessage meta body) =
  formatToString fuel ctx (mkMessage None body).
Proof.
  unfold formatToString. destruct fuel as [|fuel]; [done|].
  rewrite !formatToParts_S. cbn [msg_value msg_meta].
  destruct (match body with
            | BodySelect sel => resolveSelect fuel ctx sel
            | BodyPattern pattern => Ok (pattern, None)
            end) as [[pattern fsm]| |]; cbn [bind]; [|done|done].
  destruct (mapM (resolvePart fuel ctx) pattern) as [res| |]; cbn [bind];
    [|done|done].
  destruct meta as [m|], fsm as [s|]; cbn [bind]; try done;
    rewrite !fold_toString_acc; unfold render; cbn [List.map fold_right];
    unfold fmt_addMeta; cbn [set_fmt_meta fmt_meta];
    rewrite ?fmt_toString_message; done.
Qed.

(** X2.  Merging metadata only adds entries: what the bag had, it still has
    with the same values; and merging the same metadata a second time
    changes nothing. *)
Theorem addMeta_extends_and_is_idempotent {N : JSNumber} {O : JSObjects}
    (fm : option (gmap string MetaValue)) (meta : Meta) :
  default ∅ fm ⊆ addMeta fm meta /\
  addMeta (Some (addMeta fm meta)) meta = addMeta fm meta.
Proof.
  split.
  - apply map_subseteq_spec. intros key v Hv.
    unfold addMeta. rewrite fold_addMetaEntry_lookup.
    destruct fm; simpl in *; [by rewrite Hv|by rewrite lookup_empty in Hv].
  - apply map_eq. intros key. unfold addMeta at 1.
    rewrite fold_addMetaEntry_lookup. cbn [default id].
    destruct (addMeta fm meta !! key) eqn:Hk; [done|].
    unfold addMeta in Hk. rewrite fold_addMetaEntry_lookup in Hk.
    destruct fm; simpl in *.
    + by destruct (g !! key).
    + by rewrite lookup_empty in Hk.
Qed.

Section Patterns.
Context {N : JSNumber} {O : JSObjects} {E : Externals}.

(** A supported part resolves to the result the specification gives it. *)
Lemma supported_part_result ctx p fuel :
  supported_arg p = true ->
  4 * part_depth p + 1 <= fuel ->
  resolvePart fuel ctx p = Ok (part_result ctx p).
Proof.
  intros Hs Hf. destruct fuel as [|fuel]; [lia|]. rewrite resolvePart_S.
  destruct p as [v m|path m| |]; try done.
  simpl in Hs, Hf. fold (path_depth path) in Hf.
  do 4 (destruct fuel as [|fuel]; [lia|]).
  apply resolveVariable_result.
  pose proof (path_depth_le path _ (Nat.le_refl _)) as Hd.
  apply forallb_Forall in Hs. rewrite Forall_forall in *. intros q Hq. split.
  - apply (supported_arg_resolves ctx (path_depth path)); [by apply Hs|by apply Hd|lia].
  - apply (supported_arg_resolves ctx (path_depth path)); [by apply Hs|by apply Hd|lia].
Qed.

Lemma supported_pattern_results ctx pattern fuel :
  forallb supported_arg pattern = true ->
  4 * path_depth pattern + 1 <= fuel ->
  mapM (resolvePart fuel ctx) pattern = Ok (List.map (part_result ctx) pattern).
Proof.
  intros Hs Hf. apply mapM_ext_Ok.
  pose proof (path_depth_le pattern _ (Nat.le_refl _)) as Hd.
  apply forallb_Forall in Hs. rewrite Forall_forall in *. intros p Hp.
  apply supported_part_result; [by apply Hs|]. specialize (Hd p Hp). lia.
Qed.

End Patterns.

(** X3.  A pattern of literals and variables resolves part by part, in
    order, and renders as the concatenation of the parts' strings: the value
    of a literal or of a variable that is found, and the fallback text in
    braces, such as [{$a.b}], for a variable that is not. *)
Theorem pattern_renders_part_by_part {N : JSNumber} {O : JSObjects} {E : Externals}
    (fuel : nat) (ctx : Context) (pattern : Pattern) :
  forallb supported_arg pattern = true ->
  4 * path_depth pattern + 2 <= fuel ->
  formatToParts fuel ctx (mkMessage None (BodyPattern pattern)) =
    Ok (List.map (part_result ctx) pattern) /\
  formatToString fuel ctx (mkMessage None (BodyPattern pattern)) =
    Ok (fold_right String.append "" (List.map (part_text ctx) pattern)).
Proof.
  intros Hs Hf. destruct fuel as [|fuel]; [lia|].
  assert (Hparts :
    formatToParts (S fuel) ctx (mkMessage None (BodyPattern pattern)) =
    Ok (List.map (part_result ctx) pattern)).
  { rewrite formatToParts_S. cbn [msg_value msg_meta bind].
    rewrite supported_pattern_results by (done || lia). done. }
  split; [exact Hparts|].
  unfold formatToString. rewrite Hparts. cbn [bind].
  rewrite fold_toString_acc. unfold render.
  match goal with
  | |- Ok (String.append "" ?x) = _ => change (String.append "" x) with x
  end.
  rewrite map_map. do 2 f_equal. apply map_ext_in.
  intros p Hp. apply forallb_Forall in Hs. rewrite Forall_forall in Hs.
  apply list_elem_of_In in Hp. specialize (Hs p Hp).
  destruct p as [v m|path m| |]; try done.
  unfold part_result, variable_result, part_text.
  destruct path as [|q path]; [done|]. cbn [List.map].
  by destruct (lookup_path (scope ctx) _).
Qed.

Section Selectors.
Context {N : JSNumber} {O : JSObjects} {E : Externals}.

Lemma resolveSelect_S fuel ctx sel :
  resolveSelect (S fuel) ctx sel =
  bind (mapM (resolveSelector (resolveSelectFunction fuel ctx)
                (resolvePart fuel ctx) ctx) (select sel))
    (fun res =>
  bind (selectCase res (cases sel)) (fun found =>
  match found with
  | Some c => Ok (case_value c, getFormattedSelectMeta sel res (case_key c))
  | None => Ok ([], None)
  end)).
Proof. reflexivity. Qed.

Lemma resolveSelectFunction_S fuel ctx func args options :
  resolveSelectFunction (S fuel) ctx func args options =
  let fn := select_fns (runtime ctx) !! func in
  bind (mapM (resolveArgument fuel ctx) args) (fun fnArgs =>
  bind (resolveOptions (resolveArgument fuel ctx) options (fn ≫= fn_options))
    (fun fnOpt =>
  match call_function fn (locales ctx) fnOpt fnArgs with
  | Ok r => Ok r
  | Throw _ =>
    let first := nth 0 fnArgs VUndefined in
    Ok (RetValue (if isLiteral first then first else VStr (to_string first)))
  | OutOfFuel => OutOfFuel
  end)).
Proof. reflexivity. Qed.

(** [s.default || 'other'] is the default key of the specification. *)
Lemma selector_default_key (part : Part) (default_ : option LiteralValue) :
  selector_default (mkSelector part default_) =
  match default_ with
  | Some (LStr d) => if decide (d = "") then LStr "other" else LStr d
  | Some (LNum n) => if num_truthy n then LNum n else LStr "other"
  | None => LStr "other"
  end.
Proof.
  unfold selector_default. cbn [sel_default].
  destruct default_ as [[d|n]|]; [|done|done]. cbn [lit_to_js truthy].
  destruct (String.eqb_spec d "") as [->|Hne].
  - by rewrite decide_True.
  - by rewrite decide_False.
Qed.

(** Every resolved selector has the default of its selector. *)
Lemma resolveSelector_defaults
    (selectFunction : string -> list Part -> option Options -> Outcome Returned)
    (part : Part -> Outcome Formatted) ctx sels res :
  mapM (resolveSelector selectFunction part ctx) sels = Ok res ->
  Forall2 (fun s r => rs_default r = selector_default s) sels res.
Proof.
  revert res. induction sels as [|s sels IH]; intros res; simpl.
  { intros [= <-]. constructor. }
  destruct (resolveSelector selectFunction part ctx s) as [r| |] eqn:Hr;
    simpl; try done.
  destruct (mapM _ sels) as [rs| |]; simpl; try done.
  intros [= <-]. constructor; [|by apply IH].
  unfold resolveSelector in Hr.
  destruct (match sel_value s with
            | FunctionPart func args options _ => selectFunction func args options
            | _ => _
            end) as [ret| |]; simpl in Hr; try done.
  destruct (match returned_valueOf ret with VNum _ => _ | _ => _ end)
    as [v| |]; simpl in Hr; try done.
  by injection Hr as <-.
Qed.

End Selectors.

(** X4.  A Select that has a variant whose keys are the defaults of its
    selectors (["other"] for a selector that names none) always selects a
    variant: that one or a matching one declared before it, never the empty
    pattern of the no-match case. *)
Theorem catch_all_variant_is_selected {N : JSNumber} {O : JSObjects} {E : Externals}
    (fuel : nat) (ctx : Context) (sel : Select)
    (res : list ResolvedSelector) (c : SelectCase) :
  mapM (resolveSelector (resolveSelectFunction fuel ctx)
          (resolvePart fuel ctx) ctx) (select sel) = Ok res ->
  Forall (fun c => length (case_key c) = length res) (cases sel) ->
  c ∈ cases sel ->
  Forall2 (fun k s => exists d, k = LStr d /\ selector_default s = LStr d)
    (case_key c) (select sel) ->
  exists c' meta,
    resolveSelect (S fuel) ctx sel = Ok (case_value c', meta) /\
    c' ∈ cases sel /\ full_match res c'.
Proof.
  intros Hres Hlen Hin Hkeys.
  rewrite resolveSelect_S, Hres. cbn [bind].
  assert (Hc : full_match res c).
  { apply resolveSelector_defaults in Hres. unfold full_match.
    revert Hkeys Hres. generalize (case_key c), (select sel). clear.
    intros keys sels Hk. revert res.
    induction Hk as [|k s keys sels (d & -> & Hd) _ IH]; intros res Hr;
      inversion Hr as [|? r ? rs Hdr Hrest]; subst; constructor; [|by apply IH].
    left. rewrite Hdr, Hd. done. }
  destruct (selectCase_spec res (cases sel) Hlen)
    as [(before & c' & after & Hsplit & Hm & _ & ->)|[Hnone _]]; cbn [bind].
  - eexists _, _. split; [done|]. split; [|done].
    rewrite Hsplit. apply elem_of_app. right. by left.
  - rewrite Forall_forall in Hnone. by destruct (Hnone c Hin).
Qed.

(** X5.  A selector function that throws, or under whose name the select
    registry gives nothing, does not make the selection fail: the selector's
    value is then its first resolved argument.  For a first argument that is
    a string the value is that string.  The default is the key the selector
    names, unless that is the empty string, zero or [NaN], and ["other"]
    otherwise. *)
Theorem selector_failure_falls_back_to_argument
    {N : JSNumber} {O : JSObjects} {E : Externals}
    (fuel : nat) (ctx : Context) (func : string) (args : list Part)
    (options : option Options) (meta : option Meta)
    (default_ : option LiteralValue) (fnOpt : list (string * JSValue))
    (s : string) :
  forallb supported_arg args = true ->
  supported_options options = true ->
  4 * Nat.max (path_depth args) (options_depth options) + 2 <= fuel ->
  resolved_options ctx options (select_fns (runtime ctx) !! func ≫= fn_options)
    = Ok fnOpt ->
  (select_fns (runtime ctx) !! func = None \/
   exists fn error,
     select_fns (runtime ctx) !! func = Some fn /\
     call fn (locales ctx) (Some fnOpt) (List.map (part_value ctx) args) =
     Throw error) ->
  nth 0 (List.map (part_value ctx) args) VUndefined = VStr s ->
  resolveSelector (resolveSelectFunction fuel ctx) (resolvePart fuel ctx) ctx
    (mkSelector (FunctionPart func args options meta) default_) =
  Ok (mkResolved (VStr s)
        (match default_ with
         | Some (LStr d) => if decide (d = "") then LStr "other" else LStr d
         | Some (LNum n) => if num_truthy n then LNum n else LStr "other"
         | None => LStr "other"
         end)).
Proof.
  intros Hargs Hopts Hf Hopt Hcall Hfirst.
  destruct fuel as [|fuel]; [lia|].
  unfold resolveSelector. cbn [sel_value].
  rewrite resolveSelectFunction_S. cbv zeta.
  destruct (supported_args_resolve fuel ctx args Hargs) as [-> _]; [lia|].
  cbn [bind]. rewrite supported_options_resolve by (done || lia).
  rewrite Hopt. cbn [bind].
  assert (Hthrows : exists e,
    call_function (select_fns (runtime ctx) !! func) (locales ctx) fnOpt
      (List.map (part_value ctx) args) = Throw e).
  { unfold call_function.
    destruct Hcall as [->|(fn & error & -> & ->)]; eauto. }
  destruct Hthrows as [e ->]. rewrite Hfirst. cbn [bind].
  rewrite selector_default_key.
  by destruct (isLiteral (VStr s)).
Qed.

Section Functions.
Context {N : JSNumber} {O : JSObjects} {E : Externals}.

Lemma mapM_throw {A B} (f : A -> Outcome B) before x after rs e :
  mapM f before = Ok rs -> f x = Throw e ->
  mapM f (before ++ x :: after) = Throw e.
Proof.
  revert rs. induction before as [|b before IH]; intros rs; simpl.
  - by intros _ ->.
  - destruct (f b); simpl; try done.
    destruct (mapM f before) eqn:Hb; simpl; try done.
    intros _ Hx. by rewrite (IH _ eq_refl Hx).
Qed.

(** With arguments and options resolved, the part is what the call makes
    of it. *)
Lemma resolveFormatFunction_called fuel ctx func args options meta fnOpt :
  forallb supported_arg args = true ->
  supported_options options = true ->
  4 * Nat.max (path_depth args) (options_depth options) + 2 <= fuel ->
  resolved_options ctx options (format (runtime ctx) !! func ≫= fn_options)
    = Ok fnOpt ->
  resolveFormatFunction fuel ctx func args options meta =
  match call_function (format (runtime ctx) !! func) (locales ctx) fnOpt
          (List.map (part_value ctx) args) with
  | Ok value =>
    match value with
    | RetFormatted f =>
      if is_literal_formatted f
      then Ok (wrapDynamic (locales ctx) value meta)
      else Ok (match meta with
               | Some m => fmt_addMeta f m
               | None => f
               end)
    | RetValue _ => Ok (wrapDynamic (locales ctx) value meta)
    end
  | Throw error =>
    bind (resolveFallback (pred fuel) ctx (FunctionPart func args options meta))
      (fun fb =>
    bind (error_meta error) (fun em => Ok (fmt_addMeta fb em)))
  | OutOfFuel => OutOfFuel
  end.
Proof.
  intros Hargs Hopts Hf Hopt. destruct fuel as [|fuel]; [lia|].
  rewrite resolveFormatFunction_S. cbv zeta.
  destruct (supported_args_resolve fuel ctx args Hargs) as [-> _]; [lia|].
  cbn [bind]. rewrite supported_options_resolve by (done || lia).
  rewrite Hopt. done.
Qed.

End Functions.


(** X7.  An argument that is itself a function or a term is refused: the
    resolution of the function part raises "Unsupported function argument"
    whatever the registry holds, once the arguments before it are resolved. *)
Theorem nested_call_argument_is_refused {N : JSNumber} {O : JSObjects} {E : Externals}
    (fuel : nat) (ctx : Context) (func : string)
    (before : list Part) (bad : Part) (after : list Part)
    (options : option Options) (meta : option Meta) :
  forallb supported_arg before = true ->
  is_nested_call bad = true ->
  4 * path_depth before + 2 <= fuel ->
  resolveFormatFunction fuel ctx func (before ++ bad :: after) options meta =
    Throw unsupported_argument /\
  resolveArgument fuel ctx bad = Throw unsupported_argument.
Proof.
  intros Hs Hbad Hf. destruct fuel as [|fuel]; [lia|].
  assert (Hb : forall fuel', resolveArgument (S fuel') ctx bad =
                             Throw unsupported_argument).
  { intros fuel'. rewrite resolveArgument_S. by destruct bad. }
  split; [|apply Hb].
  rewrite resolveFormatFunction_S. cbv zeta.
  destruct fuel as [|fuel]; [lia|].
  destruct (supported_args_resolve (S fuel) ctx before Hs) as [Hpre _]; [lia|].
  by rewrite (mapM_throw _ _ _ _ _ _ Hpre (Hb fuel)).
Qed.

Section Terms.
Context {N : JSNumber} {O : JSObjects} {E : Externals}.

Lemma resolveTerm_S fuel ctx res_id msg_path scope_ meta :
  resolveTerm (S fuel) ctx res_id msg_path scope_ meta =
  bind (mapM (fun part => bind (resolvePart fuel ctx part)
                            (fun f => Ok (fmt_toString f))) msg_path)
    (fun strPath =>
  match getMessage ctx res_id strPath with
  | None => resolveFallback fuel ctx (TermPart res_id msg_path scope_ meta)
  | Some msg =>
    bind (if res_id_truthy res_id || bool_decide (is_Some scope_) then
            bind (match scope_ with
                  | Some _ =>
                    resolveOptions (resolveArgument fuel ctx) scope_
                      (Some (ExpectedType (TypeName "any")))
                  | None => Ok []
                  end)
              (fun opt =>
                 Ok (extendContext ctx res_id (object_assign (scope ctx) opt)))
          else Ok ctx)
      (fun ctx =>
    bind (formatToParts fuel ctx msg) (fun parts =>
    Ok (FormattedMessage (locales ctx) parts (init_meta meta))))
  end).
Proof. reflexivity. Qed.

Lemma fallbackValue_term_plain fuel ctx res_id msg_path meta :
  fallbackValue (S fuel) ctx
    (TermPart res_id msg_path (None : option Options) meta) =
  bind (mapM (fun p => bind (resolvePart fuel ctx p)
                         (fun f => Ok (fmt_valueOf f))) msg_path)
    (fun path =>
       Ok (String.append "-"
             (let name := js_join "." path in
              match res_id with
              | Some id =>
                if res_id_truthy res_id
                then String.append id (String.append "::" name)
                else name
              | None => name
              end))).
Proof. reflexivity. Qed.

Lemma part_result_valueOf ctx p :
  supported_arg p = true -> fmt_valueOf (part_result ctx p) = part_value ctx p.
Proof. by destruct p. Qed.

Lemma supported_path_strings ctx path fuel :
  forallb supported_arg path = true ->
  4 * path_depth path + 1 <= fuel ->
  mapM (fun part => bind (resolvePart fuel ctx part)
                      (fun f => Ok (fmt_toString f))) path =
  Ok (term_path ctx path).
Proof.
  intros Hs Hf. unfold term_path. apply mapM_ext_Ok.
  pose proof (path_depth_le path _ (Nat.le_refl _)) as Hd.
  apply forallb_Forall in Hs. rewrite Forall_forall in *. intros p Hp.
  rewrite supported_part_result; [done|by apply Hs|].
  specialize (Hd p Hp). lia.
Qed.

End Terms.

(** X8.  A term whose message is not found resolves to a Fallback, and
    nothing is raised: for a term without scope the text is [-] and the
    resolved path joined by dots, with the resource id and [::] in front
    when the term names a resource. *)
Theorem missing_term_falls_back {N : JSNumber} {O : JSObjects} {E : Externals}
    (fuel : nat) (ctx : Context) (res_id : option string)
    (msg_path : list Part) (meta : option Meta) :
  forallb supported_arg msg_path = true ->
  4 * path_depth msg_path + 4 <= fuel ->
  getMessage ctx res_id (term_path ctx msg_path) = None ->
  resolveTerm fuel ctx res_id msg_path None meta =
  Ok (FormattedFallback (locales ctx)
        (String.append "-" (term_name ctx res_id msg_path)) (init_meta meta)).
Proof.
  intros Hs Hf Hmsg. do 3 (destruct fuel as [|fuel]; [lia|]).
  rewrite resolveTerm_S, supported_path_strings by (done || lia).
  cbn [bind]. rewrite Hmsg.
  rewrite resolveFallback_S, fallbackValue_term_plain.
  destruct (supported_args_resolve fuel ctx msg_path Hs) as [_ ->]; [lia|].
  done.
Qed.

(** X9.  A term renders as the message it names: its string is the string
    [formatToString] gives for that message in the term's context, and a
    failure of that message is the failure of the term.  Stated for a term
    of the same resource without scope, whose context is the caller's. *)
Theorem local_term_renders_as_its_message {N : JSNumber} {O : JSObjects} {E : Externals}
    (fuel : nat) (ctx : Context) (msg_path : list Part) (meta : option Meta)
    (msg : Message) :
  forallb supported_arg msg_path = true ->
  4 * path_depth msg_path + 1 <= fuel ->
  getMessage ctx None (term_path ctx msg_path) = Some msg ->
  bind (resolveTerm (S fuel) ctx None msg_path None meta)
    (fun t => Ok (fmt_toString t)) =
  formatToString fuel ctx msg.
Proof.
  intros Hs Hf Hmsg.
  rewrite resolveTerm_S, supported_path_strings by (done || lia).
  cbn [bind]. rewrite Hmsg. cbn [res_id_truthy orb bind].
  assert (Hd : bool_decide (is_Some (None : option Options)) = false).
  { apply bool_decide_eq_false. by intros [? ?]. }
  rewrite Hd. cbn [bind]. unfold formatToString.
  destruct (formatToParts fuel ctx msg) as [parts| |]; cbn [bind]; try done.
Qed.

Section AnySchema.
Context {N : JSNumber} {O : JSObjects} {E : Externals}.

Lemma assoc_set_fresh {A} (k : string) (v : A) entries :
  assoc k entries = None -> assoc_set k v entries = entries ++ [(k, v)].
Proof.
  induction entries as [|[k' w] entries IH]; simpl; [done|].
  destruct (String.eqb k' k); [done|]. intros H. by rewrite IH.
Qed.

Lemma filter_proto_keys {A} (entries : list (string * A)) :
  "__proto__" ∉ entries.*1 ->
  List.filter (fun e => negb (String.eqb e.1 "__proto__")) entries = entries.
Proof.
  induction entries as [|[k v] entries IH]; [done|]. simpl.
  intros [Hne Hn]%not_elem_of_cons.
  apply not_eq_sym in Hne. apply String.eqb_neq in Hne as ->. simpl.
  by rewrite IH.
Qed.

(** Under the schema ["any"] the loop appends every option, in order, but
    for an option named [__proto__]. *)
Lemma resolveOptionsLoop_any ctx (entries : Options) acc :
  NoDup entries.*1 ->
  (forall k, k ∈ entries.*1 -> assoc k acc = None) ->
  resolveOptionsLoop (fun p => Ok (part_value ctx p))
    (Some (ExpectedType (TypeName "any"))) entries acc =
  Ok (acc ++ List.map (fun e => (e.1, option_entry_value ctx e.2))
                (List.filter (fun e => negb (String.eqb e.1 "__proto__"))
                   entries)).
Proof.
  revert acc. induction entries as [|[k value] entries IH]; intros acc Hnd Hfresh.
  { simpl. by rewrite app_nil_r. }
  apply NoDup_cons in Hnd as [Hk Hnd].
  cbn [resolveOptionsLoop getExpected type_truthy is_type String.eqb
       Ascii.eqb Bool.eqb negb orb].
  assert (Hval : resolveOptionValue (fun p => Ok (part_value ctx p))
                   (TypeName "any") value =
                 Ok (option_entry_value ctx value)).
  { by destruct value. }
  rewrite Hval. cbn [bind]. unfold option_kept.
  change (String.eqb "any" "any") with true. cbn [orb].
  assert (Hfresh0 : forall k', k' ∈ entries.*1 -> assoc k' acc = None).
  { intros k' Hk'. apply Hfresh. by right. }
  unfold set_option. cbn [List.filter fst].
  destruct (String.eqb k "__proto__"); cbn [negb].
  { by apply IH. }
  rewrite assoc_set_fresh by (apply Hfresh; left).
  rewrite IH; [by rewrite <- app_assoc|done|].
  intros k' Hk'. rewrite assoc_app_fresh, Hfresh0 by done.
  simpl. destruct (String.eqb_spec k k') as [->|]; done.
Qed.

(** [Object.assign({}, scope, opt)]: an override wins, the rest of the
    scope stays. *)
Lemma object_assign_lookup (fields opt : list (string * JSValue)) k :
  NoDup opt.*1 -> "__proto__" ∉ opt.*1 ->
  assoc k (fold_left (fun fields '(k, v) => set_option k v fields) opt fields) =
  match assoc k opt with Some v => Some v | None => assoc k fields end.
Proof.
  revert fields. induction opt as [|[k0 v0] opt IH]; intros fields Hnd Hp;
    [done|].
  apply NoDup_cons in Hnd as [Hk Hnd].
  apply not_elem_of_cons in Hp as [Hne Hp]. cbn [fst] in Hne.
  cbn [fold_left assoc].
  rewrite IH by done. unfold set_option.
  apply not_eq_sym in Hne. apply String.eqb_neq in Hne as ->.
  rewrite assoc_assoc_set.
  destruct (String.eqb_spec k0 k) as [->|]; [|done].
  by rewrite (assoc_None_fmap k opt).
Qed.

Lemma any_schema_options fuel ctx (entries : Options) :
  NoDup entries.*1 ->
  supported_options (Some entries) = true ->
  4 * options_depth (Some entries) + 1 <= fuel ->
  resolveOptions (resolveArgument fuel ctx) (Some entries)
    (Some (ExpectedType (TypeName "any"))) =
  Ok (List.map (fun e => (e.1, option_entry_value ctx e.2))
        (List.filter (fun e => negb (String.eqb e.1 "__proto__")) entries)).
Proof.
  intros Hnd Hs Hf. rewrite supported_options_resolve by done.
  unfold resolved_options, resolveOptions.
  cbn [expected_truthy type_truthy].
  change (negb (String.eqb "any" "")) with true. cbv iota.
  by rewrite resolveOptionsLoop_any.
Qed.

Lemma map_values_keys {A B} (f : A -> B) (l : list (string * A)) :
  (List.map (fun e => (e.1, f e.2)) l).*1 = l.*1.
Proof.
  induction l as [|[k w] l IH]; [done|].
  change ((k :: (List.map (fun e => (e.1, f e.2)) l).*1) = k :: l.*1).
  by rewrite IH.
Qed.

Lemma assoc_map_values {A B} (f : A -> B) (l : list (string * A)) k :
  assoc k (List.map (fun e => (e.1, f e.2)) l) = f <$> assoc k l.
Proof.
  induction l as [|[k' w] l IH]; simpl; [done|].
  by destruct (String.eqb k' k).
Qed.

End AnySchema.

(** X10.  Under the schema ["any"], which a term uses for its scope, every
    option is kept, in order and without coercion: a literal with its
    value, a variable with what it resolves to.  The one exception is an
    option named [__proto__], which an assignment does not store. *)
Theorem any_schema_keeps_every_option {N : JSNumber} {O : JSObjects} {E : Externals}
    (fuel : nat) (ctx : Context) (entries : Options) :
  NoDup entries.*1 ->
  supported_options (Some entries) = true ->
  4 * options_depth (Some entries) + 1 <= fuel ->
  resolveOptions (resolveArgument fuel ctx) (Some entries)
    (Some (ExpectedType (TypeName "any"))) =
  Ok (List.map (fun e => (e.1, option_entry_value ctx e.2))
        (List.filter (fun e => negb (String.eqb e.1 "__proto__")) entries)).
Proof.
  intros Hnd Hs Hf. by apply any_schema_options.
Qed.

(** X11.  The message a term names is resolved in a context whose scope has
    the term's overrides on top of the caller's scope: a key the term gives
    has the term's value, any other key the caller's.  The term renders as
    that message does in that context.  Neither the scope nor the overrides
    have an entry named [__proto__], which would be assigned to the
    prototype of the new scope. *)
Theorem term_scope_overrides_caller {N : JSNumber} {O : JSObjects} {E : Externals}
    (fuel : nat) (ctx : Context) (res_id : option string)
    (msg_path : list Part) (entries : Options) (meta : option Meta)
    (msg : Message) (fields : list (string * JSValue)) :
  forallb supported_arg msg_path = true ->
  supported_options (Some entries) = true ->
  NoDup entries.*1 ->
  "__proto__" ∉ entries.*1 ->
  "__proto__" ∉ fields.*1 ->
  4 * Nat.max (path_depth msg_path) (options_depth (Some entries)) + 1 <= fuel ->
  scope ctx = VObj fields ->
  getMessage ctx res_id (term_path ctx msg_path) = Some msg ->
  exists fields',
    bind (resolveTerm (S fuel) ctx res_id msg_path (Some entries) meta)
      (fun t => Ok (fmt_toString t)) =
    formatToString fuel (extendContext ctx res_id (VObj fields')) msg /\
    forall k,
      assoc k fields' =
      match assoc k entries with
      | Some value => Some (option_entry_value ctx value)
      | None => assoc k fields
      end.
Proof.
  intros Hs Hopts Hnd Hpe Hpf Hf Hscope Hmsg.
  set (opt := List.map (fun e => (e.1, option_entry_value ctx e.2)) entries).
  exists (fold_left (fun fields '(k, v) => set_option k v fields) opt fields).
  split.
  - rewrite resolveTerm_S, supported_path_strings by (done || lia).
    cbn [bind]. rewrite Hmsg.
    assert (Hd : bool_decide (is_Some (Some entries)) = true).
    { apply bool_decide_eq_true. by eexists. }
    rewrite Hd, orb_true_r.
    rewrite any_schema_options by (done || lia).
    rewrite (filter_proto_keys entries Hpe).
    cbn [bind]. unfold object_assign. rewrite Hscope.
    rewrite (filter_proto_keys fields Hpf). fold opt.
    unfold formatToString.
    by destruct (formatToParts fuel _ msg) as [parts| |].
  - intros k. rewrite object_assign_lookup.
    + subst opt. rewrite assoc_map_values. by destruct (assoc k entries).
    + subst opt. by rewrite (map_values_keys (option_entry_value ctx)).
    + subst opt. by rewrite (map_values_keys (option_entry_value ctx)).
Qed.

(** X18.  A message that is a Select renders as the pattern that
    [resolveSelect] picks: its string is the string of that pattern as a
    message of its own, whatever metadata the message or the selection
    carry, and a failure of the selection is the failure of the message. *)
Theorem select_message_renders_chosen_pattern {N : JSNumber} {O : JSObjects} {E : Externals}
    (fuel : nat) (ctx : Context) (meta : option Meta) (sel : Select) :
  formatToString (S fuel) ctx (mkMessage meta (BodySelect sel)) =
  bind (resolveSelect fuel ctx sel)
    (fun '(pattern, _) =>
       formatToString (S fuel) ctx (mkMessage None (BodyPattern pattern))).
Proof.
  unfold formatToString. rewrite formatToParts_S. cbn [msg_value msg_meta].
  destruct (resolveSelect fuel ctx sel) as [[pattern fsm]| |]; cbn [bind];
    [|done|done].
  rewrite formatToParts_S. cbn [msg_value msg_meta bind].
  destruct (mapM (resolvePart fuel ctx) pattern) as [res| |]; cbn [bind];
    [|done|done].
  destruct meta as [m|], fsm as [s|]; cbn [bind]; try done;
    rewrite !fold_toString_acc; unfold render; cbn [List.map fold_right];
    unfold fmt_addMeta; cbn [set_fmt_meta fmt_meta];
    rewrite ?fmt_toString_message; done.
Qed.

Section Rewrap.
Context {N : JSNumber} {O : JSObjects} {E : Externals}.

Lemma retained_meta_to_js (x : MetaValue) : retained (meta_to_js x) = Some x.
Proof. by destruct x. Qed.

Lemma first_retained_unique key (meta : Meta) :
  NoDup meta.*1 ->
  first_retained key meta = assoc key meta ≫= retained.
Proof.
  induction meta as [|[k v] meta IH]; [done|]. intros Hnd.
  apply NoDup_cons in Hnd as [Hk Hnd]. cbn [first_retained assoc].
  destruct (String.eqb_spec k key) as [->|Hne]; [|by apply IH].
  cbn [mbind option_bind]. destruct (retained v); [done|].
  rewrite IH by done. by rewrite (assoc_None_fmap key meta).
Qed.

Lemma assoc_elem_of {A} key (l : list (string * A)) (v : A) :
  NoDup l.*1 -> (key, v) ∈ l -> assoc key l = Some v.
Proof.
  induction l as [|[k w] l IH]; intros Hnd Hin; [by apply elem_of_nil in Hin|].
  apply NoDup_cons in Hnd as [Hk Hnd]. cbn [assoc].
  apply elem_of_cons in Hin as [[= <- <-]|Hin].
  - by rewrite String.eqb_refl.
  - destruct (String.eqb_spec k key) as [->|]; [|by apply IH].
    destruct Hk. apply list_elem_of_fmap. by exists (key, v).
Qed.

(** The metadata of a [Formatted], merged into an empty bag, is that
    metadata again, but for the names a bag inherits. *)
Lemma addMeta_own (own : gmap string MetaValue) key :
  addMeta None (map_to_list (meta_to_js <$> own)) !! key =
  if decide (inherited_name key) then None else own !! key.
Proof.
  unfold addMeta.
  rewrite fold_addMetaEntry_lookup. cbn [default]. rewrite lookup_empty.
  destruct (decide (inherited_name key)); [done|].
  rewrite first_retained_unique by apply NoDup_fst_map_to_list.
  destruct (own !! key) as [x|] eqn:Hx.
  - rewrite (assoc_elem_of key _ (meta_to_js x)).
    + apply retained_meta_to_js.
    + apply NoDup_fst_map_to_list.
    + apply elem_of_map_to_list. by rewrite lookup_fmap, Hx.
  - rewrite assoc_None_fmap; [done|].
    intros Hin. apply list_elem_of_fmap in Hin as ([k v] & -> & Hin).
    apply elem_of_map_to_list in Hin. rewrite lookup_fmap in Hin.
    simpl in Hx. by rewrite Hx in Hin.
Qed.

End Rewrap.

(** X19.  A Literal that a format function returns is not returned itself:
    the part resolves to a Dynamic with the locales of the context, the
    value of the literal and the metadata of the literal, into which the
    metadata of the part is merged.  Under a key the Dynamic has what the
    literal had, else the first entry of the part's metadata that is kept;
    under a name that a bag inherits it has nothing, whatever the literal
    had.  Without metadata on either side the Dynamic has none. *)
Theorem returned_literal_becomes_dynamic {N : JSNumber} {O : JSObjects} {E : Externals}
    (fuel : nat) (ctx : Context) (func : string) (args : list Part)
    (options : option Options) (meta : option Meta)
    (fnOpt : list (string * JSValue)) (locales' : list string)
    (value : LiteralValue) (own : option (gmap string MetaValue)) :
  forallb supported_arg args = true ->
  supported_options options = true ->
  4 * Nat.max (path_depth args) (options_depth options) + 2 <= fuel ->
  resolved_options ctx options (format (runtime ctx) !! func ≫= fn_options)
    = Ok fnOpt ->
  call_function (format (runtime ctx) !! func) (locales ctx) fnOpt
    (List.map (part_value ctx) args)
    = Ok (RetFormatted (FormattedLiteral locales' value own)) ->
  exists m,
    resolveFormatFunction fuel ctx func args options meta =
      Ok (FormattedDynamic (locales ctx) (lit_to_js value) m) /\
    (own = None -> meta = None -> m = None) /\
    forall key,
      default ∅ m !! key =
      if decide (inherited_name key) then None
      else match default ∅ own !! key with
           | Some present => Some present
           | None => first_retained key (default [] meta)
           end.
Proof.
  intros Hargs Hopts Hf Hopt Hcall.
  rewrite (resolveFormatFunction_called _ _ _ _ _ _ fnOpt) by done.
  rewrite Hcall. cbn [is_literal_formatted wrapDynamic fmt_meta fmt_valueOf].
  eexists. split; [done|]. split.
  - by intros -> ->.
  - intros key.
    destruct own as [own|], meta as [m|]; cbn [default id].
    + unfold addMeta at 1. rewrite fold_addMetaEntry_lookup. cbn [default id].
      rewrite addMeta_own.
      destruct (decide (inherited_name key)); [done|].
      by destruct (own !! key).
    + rewrite addMeta_own. destruct (decide (inherited_name key)); [done|].
      by destruct (own !! key).
    + unfold addMeta. rewrite fold_addMetaEntry_lookup. cbn [default].
      by rewrite lookup_empty.
    + rewrite lookup_empty. by destruct (decide _).
Qed.

Section TermScope.
Context {N : JSNumber} {O : JSObjects} {E : Externals}.

Lemma fallbackValue_term_scope fuel ctx res_id msg_path (entries : Options) meta :
  fallbackValue (S fuel) ctx (TermPart res_id msg_path (Some entries) meta) =
  let resolve (p : Part) :=
    bind (resolvePart fuel ctx p) (fun f => Ok (fmt_valueOf f)) in
  bind (mapM resolve msg_path) (fun path =>
  let name := js_join "." path in
  let name :=
    match res_id with
    | Some id =>
      if res_id_truthy res_id
      then String.append id (String.append "::" name)
      else name
    | None => name
    end in
  bind (mapM (fun '(key, value) =>
          bind (match value with
                | OArr items =>
                  Ok (String.append "["
                        (String.append
                           (js_join ", " (List.map lit_to_js items)) "]"))
                | OVar var_path meta =>
                  bind (resolve (VariablePart var_path meta))
                    (fun v => Ok (to_string v))
                | OLit v => Ok (to_string (lit_to_js v))
                end)
            (fun vs =>
          Ok (VStr (String.append key (String.append ": " vs)))))
          entries)
    (fun scope_texts =>
  Ok (String.append "-"
        (String.append name
           (String.append "("
              (String.append (js_join ", " scope_texts) ")")))))).
Proof. reflexivity. Qed.

Lemma scope_texts_resolve fuel ctx (entries : Options) :
  supported_options (Some entries) = true ->
  4 * options_depth (Some entries) + 1 <= fuel ->
  mapM (fun '(key, value) =>
          bind (match value with
                | OArr items =>
                  Ok (String.append "["
                        (String.append
                           (js_join ", " (List.map lit_to_js items)) "]"))
                | OVar var_path meta =>
                  bind (bind (resolvePart fuel ctx (VariablePart var_path meta))
                          (fun f => Ok (fmt_valueOf f)))
                    (fun v => Ok (to_string v))
                | OLit v => Ok (to_string (lit_to_js v))
                end)
            (fun vs =>
          Ok (VStr (String.append key (String.append ": " vs)))))
    entries =
  Ok (List.map (scope_entry_text ctx) entries).
Proof.
  intros Hs Hf. apply mapM_ext_Ok.
  simpl in Hs, Hf. apply forallb_Forall in Hs.
  induction Hs as [|[k value] entries Hv _ IH]; [constructor|].
  simpl in Hf. constructor; [|apply IH; lia].
  destruct value as [v|path m|items]; [done| |done].
  simpl in Hv, Hf.
  destruct (supported_arg_resolves ctx (S (path_depth path))
              (VariablePart path m)) with (fuel := fuel)
    as [_ (f & Hr & Hval)]; [done|done|lia|].
  cbv beta iota. rewrite Hr. cbn [bind].
  unfold scope_entry_text. cbn [fst snd]. by rewrite Hval.
Qed.

End TermScope.

(** X20.  The fallback of a term with a scope that is not found names the
    scope: the text is [-], the name of the term and, in parentheses and
    separated by commas, every scope entry as [key: value], where a list is
    shown in brackets and a variable by the value it resolves to. *)
Theorem missing_scoped_term_falls_back {N : JSNumber} {O : JSObjects} {E : Externals}
    (fuel : nat) (ctx : Context) (res_id : option string)
    (msg_path : list Part) (entries : Options) (meta : option Meta) :
  forallb supported_arg msg_path = true ->
  supported_options (Some entries) = true ->
  4 * Nat.max (path_depth msg_path) (options_depth (Some entries)) + 4
    <= fuel ->
  getMessage ctx res_id (term_path ctx msg_path) = None ->
  resolveTerm fuel ctx res_id msg_path (Some entries) meta =
  Ok (FormattedFallback (locales ctx)
        (String.append "-"
           (String.append (term_name ctx res_id msg_path)
              (String.append "("
                 (String.append
                    (js_join ", " (List.map (scope_entry_text ctx) entries))
                    ")"))))
        (init_meta meta)).
Proof.
  intros Hs Hopts Hf Hmsg. do 3 (destruct fuel as [|fuel]; [lia|]).
  rewrite resolveTerm_S, supported_path_strings by (done || lia).
  cbn [bind]. rewrite Hmsg.
  rewrite resolveFallback_S, fallbackValue_term_scope. cbv zeta.
  destruct (supported_args_resolve fuel ctx msg_path Hs) as [_ ->]; [lia|].
  cbn [bind]. rewrite scope_texts_resolve by (done || lia).
  done.
Qed.

(** X21.  A selector whose value is a number is categorised by the
    [plural] select function: when the select registry gives an object
    under [plural] and its call returns, what it returns is the value of the
    selector, a formatted value by its [valueOf()].  When the registry gives
    nothing under [plural], or no object, or when the call throws, the
    selection does not fail and the number itself is the value.  The default
    is the key the selector names, unless that is the empty string, zero or
    [NaN], and ["other"] otherwise.  The selector is a part other than a
    function, which resolves to the number. *)
Theorem numeric_selector_uses_plural
    {N : JSNumber} {O : JSObjects} {E : Externals}
    (selectFunction : string -> list Part -> option Options -> Outcome Returned)
    (fuel : nat) (ctx : Context) (p : Part) (f : Formatted) (value : number)
    (default_ : option LiteralValue) :
  is_function_part p = false ->
  resolvePart fuel ctx p = Ok f ->
  fmt_valueOf f = VNum value ->
  let resolved :=
    resolveSelector selectFunction (resolvePart fuel ctx) ctx
      (mkSelector p default_) in
  let default_key :=
    match default_ with
    | Some (LStr d) => if decide (d = "") then LStr "other" else LStr d
    | Some (LNum n) => if num_truthy n then LNum n else LStr "other"
    | None => LStr "other"
    end in
  (forall plural r,
     select_fns (runtime ctx) !! "plural" = Some plural ->
     fn_object plural = true ->
     call plural (locales ctx) None [VNum value] = Ok r ->
     resolved = Ok (mkResolved (returned_valueOf r) default_key)) /\
  ((select_fns (runtime ctx) !! "plural" = None \/
    exists plural,
      select_fns (runtime ctx) !! "plural" = Some plural /\
      (fn_object plural = false \/
       exists error,
         call plural (locales ctx) None [VNum value] = Throw error)) ->
   resolved = Ok (mkResolved (VNum value) default_key)).
Proof.
  intros Hp Hf Hv resolved default_key.
  assert (Hsel : resolved =
    bind (match select_fns (runtime ctx) !! "plural" with
          | Some plural =>
            if fn_object plural then
              match call plural (locales ctx) None [VNum value] with
              | Ok r => Ok (returned_valueOf r)
              | Throw _ => Ok (VNum value)
              | OutOfFuel => OutOfFuel
              end
            else Ok (VNum value)
          | None => Ok (VNum value)
          end)
      (fun v => Ok (mkResolved v default_key))).
  { subst resolved default_key. unfold resolveSelector. cbn [sel_value].
    rewrite selector_default_key.
    destruct p; try done; rewrite Hf; cbn [bind returned_valueOf];
      by rewrite Hv. }
  rewrite Hsel. split.
  - intros plural r -> -> ->. done.
  - intros [->|(plural & -> & [->|(error & Hcall)])]; [done|done|].
    destruct (fn_object plural); [|done]. by rewrite Hcall.
Qed.

(** *** The theorems at concrete messages *)

Import RefRuntime RefExamples.

Lemma pattern_renders_part_by_part_witness :
  formatToString 6 greeting_context
    (mkMessage None
       (BodyPattern [text "Hello "; VariablePart [text "name"] None;
                     VariablePart [text "a"; text "b"] None;
                     VariablePart [text "toString"] None])) =
  Ok "Hello Ada{$a.b}function toString() { [native code] }".
Proof.
  exact (proj2 (pattern_renders_part_by_part 6 greeting_context
                  [text "Hello "; VariablePart [text "name"] None;
                   VariablePart [text "a"; text "b"] None;
                   VariablePart [text "toString"] None]
                  eq_refl ltac:(simpl; lia))).
Defined.

Lemma catch_all_variant_is_selected_witness :
  exists c' meta,
    resolveSelect 3 plural_context one_other = Ok (case_value c', meta) /\
    c' ∈ cases one_other /\
    full_match [mkResolved (VStr "one") (LStr "other")] c'.
Proof.
  apply (catch_all_variant_is_selected 2 plural_context one_other
           [mkResolved (VStr "one") (LStr "other")]
           (mkCase [LStr "other"] [text "Y"])).
  - reflexivity.
  - repeat constructor.
  - right. left.
  - repeat constructor. exists "other". split; reflexivity.
Defined.

Lemma selector_failure_falls_back_to_argument_witness :
  resolveSelector
    (resolveSelectFunction 4 (ref_context ["en"] (VObj []) ∅ ∅))
    (resolvePart 4 (ref_context ["en"] (VObj []) ∅ ∅))
    (ref_context ["en"] (VObj []) ∅ ∅)
    (mkSelector (FunctionPart "nope" [text "few"] None None) None) =
  Ok (mkResolved (VStr "few") (LStr "other")) /\
  resolveSelector
    (resolveSelectFunction 4 function_context)
    (resolvePart 4 function_context) function_context
    (mkSelector (FunctionPart "plural" [text "few"] None None)
       (Some (LStr ""))) =
  Ok (mkResolved (VStr "few") (LStr "other")).
Proof.
  split.
  - apply (selector_failure_falls_back_to_argument 4
             (ref_context ["en"] (VObj []) ∅ ∅) "nope" [text "few"] None None
             None [] "few").
    + reflexivity.
    + reflexivity.
    + simpl; lia.
    + reflexivity.
    + left. reflexivity.
    + reflexivity.
  - apply (selector_failure_falls_back_to_argument 4
             function_context "plural" [text "few"] None None
             (Some (LStr "")) [] "few").
    + reflexivity.
    + reflexivity.
    + simpl; lia.
    + reflexivity.
    + right. exists always_throws, (mk_error "Error" "boom").
      split; reflexivity.
    + reflexivity.
Defined.


Lemma nested_call_argument_is_refused_witness :
  resolveFormatFunction 6 function_context "upper"
    ([text "a"] ++ TermPart None [text "greeting"] None None :: [text "b"])
    None None =
    Throw unsupported_argument /\
  resolveArgument 6 function_context
    (TermPart None [text "greeting"] None None) =
    Throw unsupported_argument.
Proof.
  apply (nested_call_argument_is_refused 6 function_context "upper"
           [text "a"] (TermPart None [text "greeting"] None None) [text "b"]
           None None).
  - reflexivity.
  - reflexivity.
  - simpl; lia.
Defined.

Lemma missing_term_falls_back_witness :
  resolveTerm 8 greeting_context (Some "res") [text "farewell"] None None =
  Ok (FormattedFallback ["en"] "-res::farewell" None).
Proof.
  apply (missing_term_falls_back 8 greeting_context (Some "res")
           [text "farewell"] None).
  - reflexivity.
  - simpl; lia.
  - reflexivity.
Defined.

Lemma local_term_renders_as_its_message_witness :
  bind (resolveTerm 7 greeting_context None [text "greeting"] None None)
    (fun t => Ok (fmt_toString t)) =
  formatToString 6 greeting_context greeting.
Proof.
  apply (local_term_renders_as_its_message 6 greeting_context
           [text "greeting"] None greeting).
  - reflexivity.
  - simpl; lia.
  - reflexivity.
Defined.

Lemma any_schema_keeps_every_option_witness :
  resolveOptions (resolveArgument 6 greeting_context)
    (Some [("flag", OLit (LStr "true")); ("who", OVar [text "name"] None)])
    (Some (ExpectedType (TypeName "any"))) =
  Ok [("flag", VStr "true"); ("who", VStr "Ada")].
Proof.
  apply (any_schema_keeps_every_option 6 greeting_context
           [("flag", OLit (LStr "true")); ("who", OVar [text "name"] None)]).
  - by vm_compute; apply (bool_decide_unpack _).
  - reflexivity.
  - simpl; lia.
Defined.

Lemma term_scope_overrides_caller_witness :
  exists fields',
    bind (resolveTerm 7 greeting_context None [text "greeting"]
            (Some [("name", OLit (LStr "Bob"))]) None)
      (fun t => Ok (fmt_toString t)) =
    formatToString 6
      (extendContext greeting_context None (VObj fields')) greeting /\
    assoc "name" fields' = Some (VStr "Bob") /\
    assoc "city" fields' = Some (VStr "Rome").
Proof.
  destruct (term_scope_overrides_caller 6 greeting_context None
              [text "greeting"] [("name", OLit (LStr "Bob"))] None greeting
              [("name", VStr "Ada"); ("city", VStr "Rome")])
    as (fields' & Hres & Hfields).
  - reflexivity.
  - reflexivity.
  - by vm_compute; apply (bool_decide_unpack _).
  - apply (bool_decide_unpack _). vm_compute. exact I.
  - apply (bool_decide_unpack _). vm_compute. exact I.
  - simpl; lia.
  - reflexivity.
  - reflexivity.
  - exists fields'. split; [exact Hres|].
    split; [exact (Hfields "name")|exact (Hfields "city")].
Defined.

Lemma returned_literal_becomes_dynamic_witness :
  exists m,
    resolveFormatFunction 4 function_context "lit" [] None
      (Some [("own", VStr "late"); ("added", VStr "new")]) =
      Ok (FormattedDynamic ["en"] (VStr "lit") m) /\
    default ∅ m !! "own" = Some (MStr "kept") /\
    default ∅ m !! "added" = Some (MStr "new").
Proof.
  destruct (returned_literal_becomes_dynamic 4 function_context "lit" [] None
              (Some [("own", VStr "late"); ("added", VStr "new")]) []
              ["en"] (LStr "lit") (Some {["own" := MStr "kept"]})
              eq_refl eq_refl ltac:(simpl; lia) eq_refl eq_refl)
    as (m & Hres & _ & Hmeta).
  exists m. split; [exact Hres|].
  split; [exact (Hmeta "own")|exact (Hmeta "added")].
Defined.

Lemma missing_scoped_term_falls_back_witness :
  resolveTerm 12 greeting_context None [text "farewell"]
    (Some [("name", OLit (LStr "Bob")); ("who", OVar [text "name"] None);
           ("tags", OArr [LStr "a"; LStr "b"])]) None =
  Ok (FormattedFallback ["en"] "-farewell(name: Bob, who: Ada, tags: [a, b])"
        None).
Proof.
  apply (missing_scoped_term_falls_back 12 greeting_context None
           [text "farewell"]
           [("name", OLit (LStr "Bob")); ("who", OVar [text "name"] None);
            ("tags", OArr [LStr "a"; LStr "b"])] None).
  - reflexivity.
  - reflexivity.
  - simpl; lia.
  - reflexivity.
Defined.

Lemma numeric_selector_uses_plural_witness :
  resolveSelector (resolveSelectFunction 1 plural_context)
    (resolvePart 1 plural_context) plural_context
    (mkSelector (LiteralPart (LNum (Some 1%Z)) None) None) =
  Ok (mkResolved (VStr "one") (LStr "other")) /\
  resolveSelector (resolveSelectFunction 1 function_context)
    (resolvePart 1 function_context) function_context
    (mkSelector (LiteralPart (LNum (Some 3%Z)) None) (Some (LStr "many"))) =
  Ok (mkResolved (VNum (Some 3%Z)) (LStr "many")).
Proof.
  split.
  - apply (proj1 (numeric_selector_uses_plural (N := ref_numbers)
                    (resolveSelectFunction 1 plural_context) 1 plural_context
                    (LiteralPart (LNum (Some 1%Z : @number ref_numbers)) None)
                    (FormattedLiteral ["en"] (LNum (Some 1%Z : @number ref_numbers)) None)
                    (Some 1%Z : @number ref_numbers) None eq_refl eq_refl eq_refl)
             plural_one (RetValue (VStr "one")));
      reflexivity.
  - apply (proj2 (numeric_selector_uses_plural (N := ref_numbers)
                    (resolveSelectFunction 1 function_context) 1
                    function_context
                    (LiteralPart (LNum (Some 3%Z : @number ref_numbers)) None)
                    (FormattedLiteral ["en"] (LNum (Some 3%Z : @number ref_numbers)) None)
                    (Some 3%Z : @number ref_numbers) (Some (LStr "many")) eq_refl eq_refl eq_refl)).
    right. exists always_throws. split; [reflexivity|].
    right. exists (mk_error "Error" "boom"). reflexivity.
Defined.

End ResolveExtra.

(** * More about the placeholder parser *)

Module ParserExtra.
Import Parser ParserSpec ParserProps.

(** *** The error list is only written to *)
Section Frame.
Context {L : Lexer}.

Lemma parseOption_frame src start errors :
  parseOption src start errors =
  ((parseOption src start []).1, errors ++ (parseOption src start []).2).
Proof.
  unfold parseOption.
  destruct (char_is src _ "="); destruct (parseOptionValue src _) as [v es];
    simpl; [done|].
  by rewrite <- app_assoc.
Qed.

Lemma parseOptions_frame fuel src pos errors options :
  parseOptions fuel src pos errors options =
  match parseOptions fuel src pos [] [] with
  | None => None
  | Some (p, es, os) => Some (p, errors ++ es, options ++ os)
  end.
Proof.
  revert pos errors options.
  induction fuel as [|fuel IH]; intros pos errors options; simpl.
  - destruct (pos <? String.length src); [done|]. by rewrite !app_nil_r.
  - destruct (pos <? String.length src); [|by rewrite !app_nil_r].
    destruct (char_is src _ "}"); [by rewrite !app_nil_r|].
    set (e1 := if whitespaces src pos =? 0 then errors ++ [_] else errors).
    set (e0 := if whitespaces src pos =? 0 then [_] else []).
    assert (He : e1 = errors ++ e0).
    { subst e1 e0. destruct (_ =? 0); [done|by rewrite app_nil_r]. }
    rewrite (parseOption_frame src _ e1), (parseOption_frame src _ e0).
    destruct (parseOption src _ []) as [opt es]. simpl.
    destruct (oend opt =? _).
    + by rewrite He, app_nil_r, app_assoc.
    + rewrite (IH _ (e1 ++ es)), (IH _ (e0 ++ es) [opt]).
      destruct (parseOptions fuel src (oend opt) [] []) as [[[p es'] os']|];
        [|done].
      rewrite He. by rewrite <- !app_assoc.
Qed.

Lemma parseExpressionOrMarkup_frame fuel src start operand body es0 :
  parseExpressionOrMarkup fuel src start operand [] = Some (body, es0) ->
  exists added, forall errors,
    parseExpressionOrMarkup fuel src start operand errors =
    Some (body, unshifted src start operand ++ errors ++ added).
Proof.
  unfold parseExpressionOrMarkup, unshifted.
  set (name := parseNameValue src (start + 1)).
  set (a0 := if String.eqb name "" then [EmptyToken (start + 1)] else []).
  assert (Ha : forall errors,
             (if String.eqb name "" then errors ++ [EmptyToken (start + 1)]
              else errors) = errors ++ a0).
  { intros errors. subst a0. destruct (String.eqb name "");
      [done|by rewrite app_nil_r]. }
  rewrite (Ha []). simpl.
  rewrite (parseOptions_frame fuel src _ a0 []).
  destruct (parseOptions fuel src _ [] []) as [[[p es] os]|] eqn:Hr; [|done].
  simpl. intros Hres.
  destruct (char_is src start ":").
  { injection Hres as <- <-. exists (a0 ++ es). intros errors.
    rewrite Ha, parseOptions_frame, Hr. simpl. by rewrite <- app_assoc. }
  set (tail_ :=
         match os with
         | [] => []
         | o :: _ => [ExtraContent (ostart o) (oend (List.last os o))]
         end).
  exists (a0 ++ es ++ if char_is src start "+" then [] else tail_).
  intros errors. rewrite Ha, parseOptions_frame, Hr. simpl.
  destruct (char_is src start "+").
  - injection Hres as <- <-. rewrite app_nil_r.
    destruct operand; simpl; by rewrite <- app_assoc.
  - injection Hres as <- <-. subst tail_.
    destruct operand, os; simpl; rewrite <- ?app_assoc, ?app_nil_r; done.
Qed.

Lemma parseExpressionOrMarkup_stuck fuel src start operand errors :
  parseExpressionOrMarkup fuel src start operand [] = None ->
  parseExpressionOrMarkup fuel src start operand errors = None.
Proof.
  unfold parseExpressionOrMarkup.
  rewrite (parseOptions_frame fuel src _ (if String.eqb _ "" then _ else _) []).
  rewrite (parseOptions_frame fuel src _
             (if String.eqb _ "" then errors ++ _ else errors) []).
  destruct (parseOptions fuel src _ [] []) as [[[p es] os]|]; [|done].
  simpl. destruct (char_is src start ":"); [done|].
  by destruct (char_is src start "+").
Qed.

Lemma parseOperand_None src pos errors :
  (parseOperand src pos []).1.1 = None ->
  parseOperand src pos errors = (None, pos, errors).
Proof.
  unfold parseOperand.
  destruct (char_is src pos "("); [by destruct (parseLiteral src pos)|].
  destruct (char_is src pos "$"); [by destruct (parseVariable src pos)|done].
Qed.

Lemma alter_last {A} (f : A -> A) (l : list A) (x : A) :
  alter f (length l) (l ++ [x]) = l ++ [f x].
Proof.
  rewrite <- (Nat.add_0_r (length l)). by rewrite alter_app_r.
Qed.

(** The body and the position do not depend on the errors passed in, and
    these errors stay together and in order. *)
Lemma parseBody_frame fuel src start body pos es0 junk0 :
  parseBody fuel src start [] = Some (body, pos, es0, junk0) ->
  exists pre added (isjunk : bool),
    (pre = [] \/
     exists op, parsedOperand src start = Some op /\
                pre = [ExtraContent (vstart op) (vend op)]) /\
    (isjunk = true -> pre = [] /\ exists x, added = [x]) /\
    forall errors,
      parseBody fuel src start errors =
      Some (body, pos, pre ++ errors ++ added,
            if isjunk then Some (length errors) else None).
Proof.
  unfold parseBody, parsedOperand, operandStart.
  set (p1 := start + 1 + whitespaces src (start + 1)).
  destruct (parseOperand src p1 []) as [[arg p2] es1] eqn:Hop. simpl.
  assert (Hframe : forall errors,
             parseOperand src p1 errors = (arg, p2, errors ++ es1)).
  { intros errors. by rewrite parseOperand_frame, Hop. }
  destruct (is_sigil src (p2 + whitespaces src p2)) eqn:Es.
  - destruct (parseExpressionOrMarkup fuel src _ arg es1) as [[b e]|] eqn:Hr;
      [|done].
    intros [= <- <- <- <-].
    destruct (parseExpressionOrMarkup fuel src (p2 + whitespaces src p2) arg [])
      as [[b0 e0]|] eqn:Hr0.
    2:{ by rewrite (parseExpressionOrMarkup_stuck _ _ _ _ _ Hr0) in Hr. }
    destruct (parseExpressionOrMarkup_frame _ _ _ _ _ _ Hr0) as (added & Hall).
    rewrite Hall in Hr. injection Hr as <- <-.
    exists (unshifted src (p2 + whitespaces src p2) arg), (es1 ++ added), false.
    split; [|split; [done|]].
    + unfold unshifted. destruct (char_is src _ ":"); [by left|].
      destruct arg as [op|]; [right; by exists op|by left].
    + intros errors. rewrite Hframe, Es, Hall. by rewrite <- app_assoc.
  - destruct arg as [a|].
    + intros [= <- <- <- <-]. exists [], es1, false.
      split; [by left|]. split; [done|].
      intros errors. by rewrite Hframe, Es.
    + intros [= <- <- <- <-].
      assert (Hn : (parseOperand src p1 []).1.1 = None) by by rewrite Hop.
      pose proof (parseOperand_None src p1 [] Hn) as Hop'.
      rewrite Hop in Hop'. injection Hop' as -> ->.
      exists [], [ParseErrorE (p1 + whitespaces src p1) (p1 + whitespaces src p1)], true.
      split; [by left|]. split; [by eauto|].
      intros errors. rewrite Hframe, Es, !app_nil_r. done.
Qed.

Lemma closePlaceholder_frame src start body pos pre added (isjunk : bool) :
  (isjunk = true -> pre = [] /\ exists x, added = [x]) ->
  exists node added', forall errors,
    closePlaceholder src start
      (body, pos, pre ++ errors ++ added,
       if isjunk then Some (length errors) else None) =
    (node, pre ++ errors ++ added').
Proof.
  intros Hj. unfold closePlaceholder.
  destruct (String.length src <=? pos).
  { eexists _, (added ++ [_]). intros errors. by rewrite <- !app_assoc. }
  destruct (char_is src pos "}"); simpl; [by eexists _, added|].
  destruct body; try by (eexists _, (added ++ [_]); intros errors;
                         rewrite <- !app_assoc).
  destruct isjunk; [|by eexists _, added].
  destruct Hj as [-> [x ->]]; [done|].
  eexists _, [_]. intros errors. simpl. by rewrite alter_last.
Qed.

End Frame.

(** X12.  The [errors] array is only written to.  For a given source and
    start the node, the errors added behind the caller's and the one error
    that may be put in front (the operand of a markup node) are the same
    whatever the caller passes in, and the caller's errors stay as they
    are, together and in order. *)
Theorem caller_errors_are_kept
    {L : Lexer} (HL : LexerInBounds L)
    (fuel : nat) (src : string) (start : nat) :
  start < String.length src ->
  String.length src <= fuel ->
  exists node pre added,
    (pre = [] \/
     exists op, parsedOperand src start = Some op /\
                pre = [ExtraContent (vstart op) (vend op)]) /\
    forall errors,
      parsePlaceholder fuel src start errors =
      Some (node, pre ++ errors ++ added).
Proof.
  intros Hs Hf.
  destruct (parseBody_bounds HL fuel src start [] Hs Hf)
    as (body & pos & es0 & junk0 & Hb & _).
  destruct (parseBody_frame _ _ _ _ _ _ _ Hb)
    as (pre & added & isjunk & Hpre & Hj & Hall).
  destruct (closePlaceholder_frame src start body pos pre added isjunk Hj)
    as (node & added' & Hclose).
  exists node, pre, added'. split; [done|].
  intros errors. unfold parsePlaceholder. by rewrite Hall, Hclose.
Qed.

(** *** Junk *)
Section Junk.
Context {L : Lexer}.

Lemma skipToClose_spec src pos n :
  String.length src - pos <= n -> pos <= String.length src ->
  (skipToClose src pos n = String.length src \/
   char_is src (skipToClose src pos n) "}" = true) /\
  forall i, pos <= i < skipToClose src pos n -> char_is src i "}" = false.
Proof.
  revert pos. induction n as [|n IH]; intros pos Hn Hp; simpl.
  { split; [left; lia|intros i; lia]. }
  destruct (pos <? String.length src) eqn:E; simpl.
  - apply Nat.ltb_lt in E.
    destruct (char_is src pos "}") eqn:Ec; simpl.
    + split; [by right|intros i; lia].
    + destruct (IH (pos + 1)) as [H1 H2]; [lia|lia|].
      split; [done|]. intros i Hi.
      destruct (decide (i = pos)) as [->|]; [done|]. apply H2. lia.
  - apply Nat.ltb_ge in E. split; [left; lia|intros i; lia].
Qed.

Lemma skipToClose_moves src pos n :
  pos < String.length src -> char_is src pos "}" = false -> 0 < n ->
  pos < skipToClose src pos n.
Proof.
  intros Hp Hc Hn. destruct n as [|n]; [lia|]. simpl.
  apply Nat.ltb_lt in Hp as E. rewrite E, Hc. simpl.
  assert (Hb : pos + 1 <= skipToClose src (pos + 1) n); [|lia].
  clear. generalize (pos + 1). induction n as [|n IH]; intros q; simpl; [lia|].
  destruct (_ && _); [|lia]. specialize (IH (q + 1)). lia.
Qed.

End Junk.

(** X13.  A placeholder that starts with neither an operand nor a sigil has
    a junk body, and the junk node and its [parse-error] cover the same
    span: both start where the operand was looked for and both end where
    the scan for the closing brace stopped.  The caller's errors come
    first, the [parse-error] next, no [extra-content] is reported, and the
    only other error is the missing brace at end-of-input.  The source of
    the junk is the text of its span, and one character when the span is
    empty. *)
Theorem junk_and_its_error_share_a_span
    {L : Lexer} (HL : LexerInBounds L)
    (fuel : nat) (src : string) (start : nat) (errors : list ParseError) :
  start < String.length src ->
  parsedOperand src start = None ->
  is_sigil src (tailStart src start) = false ->
  exists end_ e closing,
    parsePlaceholder fuel src start errors =
    Some (mkPlaceholder start end_
            (BJunk (tailStart src start) e
               (js_substring src (tailStart src start)
                  (Nat.max e (tailStart src start + 1)))),
          errors ++ ParseErrorE (tailStart src start) e :: closing) /\
    tailStart src start <= e <= end_ /\ end_ <= String.length src /\
    (closing = [] \/
     closing = [MissingChar "}" end_] /\ end_ = String.length src) /\
    (tailStart src start < e -> e = end_ /\ closing = []).
Proof.
  intros Hs Hop Hsig.
  unfold parsePlaceholder, parseBody.
  unfold parsedOperand in Hop. unfold tailStart, operandStart in *.
  set (p1 := start + 1 + whitespaces src (start + 1)) in *.
  rewrite (parseOperand_None src p1 errors Hop).
  rewrite (parseOperand_None src p1 [] Hop) in *.
  cbn [fst snd] in *. rewrite Hsig.
  set (t := p1 + whitespaces src p1) in *.
  assert (Ht : t <= String.length src).
  { unfold t, p1.
    assert (H1 : start + 1 <= String.length src) by lia.
    pose proof (ws_in_bounds _ HL src _ H1).
    by apply (ws_in_bounds _ HL). }
  pose proof (ws_in_bounds _ HL src t Ht) as Hq.
  set (q := t + whitespaces src t) in *.
  unfold closePlaceholder.
  destruct (String.length src <=? q) eqn:E1.
  { apply Nat.leb_le in E1. exists q, t, [MissingChar "}" q].
    replace (Nat.max t (t + 1)) with (t + 1) by lia.
    rewrite <- app_assoc. simpl.
    repeat split; try done; try lia. right. split; [done|lia]. }
  apply Nat.leb_gt in E1.
  destruct (char_is src q "}") eqn:E2; simpl.
  { exists (q + 1), t, [].
    replace (Nat.max t (t + 1)) with (t + 1) by lia.
    repeat split; try done; try lia. by left. }
  pose proof (skipToClose_bounds src q (String.length src - q) Hq) as Hb.
  pose proof (skipToClose_moves src q (String.length src - q) E1 E2) as Hm.
  set (e := skipToClose src q (String.length src - q)) in *.
  exists e, e, []. rewrite alter_last. simpl.
  replace (Nat.max e (t + 1)) with e by lia.
  repeat split; try done; try lia. by left.
Qed.

(** *** Content after an operand *)

(** X14.  Content that follows an operand and starts neither an annotation
    nor markup is reported as one [extra-content] error, behind the errors
    there were.  It runs from the first character after the operand and
    the whitespace to the next closing brace, which is left in the input,
    or to end-of-input; the node ends there too, and its body is the
    operand. *)
Theorem content_after_operand_is_extra
    {L : Lexer} (HL : LexerInBounds L) (HT : LexerTokens L)
    (fuel : nat) (src : string) (start p2 : nat) (errors : list ParseError) :
  operand_at src (operandStart src start) p2 ->
  is_sigil src (p2 + whitespaces src p2) = false ->
  p2 + whitespaces src p2 < String.length src ->
  char_is src (p2 + whitespaces src p2) "}" = false ->
  exists v e,
    parsePlaceholder fuel src start errors =
    Some (mkPlaceholder start e (BValue v),
          errors ++ [ExtraContent (p2 + whitespaces src p2) e]) /\
    vend v = p2 /\
    p2 + whitespaces src p2 < e <= String.length src /\
    (e = String.length src \/ char_is src e "}" = true) /\
    forall i, p2 + whitespaces src p2 <= i < e -> char_is src i "}" = false.
Proof.
  intros Hop Hsig Hlt Hnb.
  destruct (parseOperand_operand src _ p2 errors Hop) as (v & Hv).
  assert (Hend : vend v = p2).
  { unfold parseOperand in Hv.
    destruct (char_is src _ "("); [destruct (parseLiteral src _)|
      destruct (char_is src _ "$"); [destruct (parseVariable src _)|done]];
      by injection Hv as <- <- _. }
  unfold parsePlaceholder, parseBody. fold (operandStart src start).
  rewrite Hv, Hsig.
  set (q := p2 + whitespaces src p2) in *.
  assert (Hw : whitespaces src q = 0) by apply (ws_idem HT).
  rewrite Hw, Nat.add_0_r. unfold closePlaceholder.
  apply Nat.leb_gt in Hlt as E1. rewrite E1, Hnb. simpl.
  destruct (skipToClose_spec src q (String.length src - q)) as [H1 H2];
    [lia|lia|].
  pose proof (skipToClose_bounds src q (String.length src - q)) as Hb.
  pose proof (skipToClose_moves src q (String.length src - q) Hlt Hnb) as Hm.
  exists v, (skipToClose src q (String.length src - q)).
  repeat split; try done; try lia.
Qed.

(** *** Where a node ends *)

(** X15.  Every call leaves the input at a closing brace or at its end:
    the node ends just behind the closing brace it consumed, or in front of
    a closing brace it left in the input after junk or extra content, or
    at end-of-input. *)
Theorem node_ends_at_a_brace
    {L : Lexer} (HL : LexerInBounds L)
    (fuel : nat) (src : string) (start : nat) (errors : list ParseError) :
  start < String.length src ->
  String.length src <= fuel ->
  exists node errors',
    parsePlaceholder fuel src start errors = Some (node, errors') /\
    (char_is src (pend node - 1) "}" = true \/
     char_is src (pend node) "}" = true \/
     pend node = String.length src).
Proof.
  intros Hs Hf.
  destruct (parseBody_bounds HL fuel src start errors Hs Hf)
    as (body & pos & es & junk & Hb & Hpos & _).
  unfold parsePlaceholder. rewrite Hb. unfold closePlaceholder.
  destruct (String.length src <=? pos) eqn:E1.
  { apply Nat.leb_le in E1. eexists _, _. split; [done|]. simpl. lia. }
  apply Nat.leb_gt in E1.
  destruct (char_is src pos "}") eqn:E2; simpl.
  { eexists _, _. split; [done|]. simpl. left.
    by replace (pos + 1 - 1) with pos by lia. }
  destruct (skipToClose_spec src pos (String.length src - pos)) as [H1 _];
    [lia|lia|].
  destruct body; eexists _, _; (split; [done|]); simpl; tauto.
Qed.

(** *** The spans inside a body *)
Section Ordered.
Context {L : Lexer} (HL : LexerInBounds L).

Lemma options_ordered_app lo os o hi :
  options_ordered lo os (ostart o) -> ostart o < oend o -> oend o <= hi ->
  options_ordered lo (os ++ [o]) hi.
Proof.
  revert lo. induction os as [|o' os IH]; intros lo; simpl.
  - intros. lia.
  - intros (H1 & H2 & H3) Ho Hhi. repeat split; try done. by apply IH.
Qed.

Lemma options_ordered_weaken lo os hi hi' :
  options_ordered lo os hi -> hi <= hi' -> options_ordered lo os hi'.
Proof.
  revert lo. induction os as [|o os IH]; intros lo; simpl; [lia|].
  intros (H1 & H2 & H3) Hhi. repeat split; try done. by apply IH.
Qed.

Lemma options_ordered_le lo os hi : options_ordered lo os hi -> lo <= hi.
Proof.
  revert lo. induction os as [|o os IH]; intros lo; simpl; [done|].
  intros (? & ? & H). apply IH in H. lia.
Qed.

(** The option loop keeps the options it has in order and ends at or after
    the last of them. *)
Lemma parseOptions_ordered fuel src lo pos errors options pos' errors' options' :
  pos <= String.length src ->
  options_ordered lo options pos ->
  parseOptions fuel src pos errors options = Some (pos', errors', options') ->
  options_ordered lo options' pos' /\ pos' <= String.length src.
Proof.
  revert pos errors options.
  induction fuel as [|fuel IH]; intros pos errors options Hpos Hord; simpl.
  - destruct (pos <? String.length src); [done|]. by intros [= <- <- <-].
  - destruct (pos <? String.length src); [|by intros [= <- <- <-]].
    destruct (char_is src _ "}"); [by intros [= <- <- <-]|].
    pose proof (ws_in_bounds _ HL src pos Hpos) as Hw.
    set (errs := if whitespaces src pos =? 0 then _ else _).
    pose proof (parseOption_bounds HL src _ errs Hw) as Ho.
    pose proof (parseOption_ostart src (pos + whitespaces src pos) errs) as Hst.
    destruct (parseOption src (pos + whitespaces src pos) errs) as [opt es].
    simpl in Ho, Hst.
    destruct (oend opt =? pos + whitespaces src pos) eqn:Ee.
    + intros [= <- <- <-]. split; [|done].
      apply (options_ordered_weaken _ _ pos); [done|lia].
    + apply Nat.eqb_neq in Ee. intros Hr.
      apply IH in Hr; [done|lia|].
      apply options_ordered_app; [|lia|lia].
      apply (options_ordered_weaken _ _ pos); [done|lia].
Qed.

Lemma parseExpressionOrMarkup_ordered fuel src start operand errors body errors' :
  start < String.length src ->
  parseExpressionOrMarkup fuel src start operand errors = Some (body, errors') ->
  body_start body = start /\ body_ordered body /\
  start < body_end body <= String.length src.
Proof.
  intros Hs. unfold parseExpressionOrMarkup.
  assert (H1 : start + 1 <= String.length src) by lia.
  pose proof (name_in_bounds _ HL src _ H1) as Hn.
  set (errs := if String.eqb _ "" then _ else _).
  destruct (parseOptions fuel src _ errs []) as [[[p e] os]|] eqn:Hr; [|done].
  apply (parseOptions_ordered _ _ (start + 1 + String.length
                                     (parseNameValue src (start + 1))))
    in Hr as [Hord Hp]; [|done|simpl; lia].
  pose proof (options_ordered_le _ _ _ Hord) as Hle.
  destruct (char_is src start ":");
    [intros [= <- <-]; simpl; repeat split; try done; lia|].
  destruct (char_is src start "+"); intros [= <- <-]; simpl;
    repeat split; try done; lia.
Qed.

Lemma parseOperand_Some (HE : LexerErrorsLocal L) src pos errors op p2 es :
  parseOperand src pos errors = (Some op, p2, es) ->
  vstart op = pos /\ vend op = p2.
Proof.
  unfold parseOperand.
  destruct (char_is src pos "(").
  { pose proof (literal_errors_local _ HE src pos) as [Hv _].
    destruct (parseLiteral src pos). simpl in Hv. by intros [= <- <- _]. }
  destruct (char_is src pos "$"); [|done].
  pose proof (variable_errors_local _ HE src pos) as [Hv _].
  destruct (parseVariable src pos). simpl in Hv. by intros [= <- <- _].
Qed.

(** The spans of the body [parseBody] returns. *)
Lemma parseBody_spans (HE : LexerErrorsLocal L)
    fuel src start errors body pos es junk :
  start < String.length src ->
  parseBody fuel src start errors = Some (body, pos, es, junk) ->
  start < body_start body /\
  body_start body <= body_end body /\ body_end body <= pos /\
  pos <= String.length src /\
  body_ordered body /\
  (forall op s e name options,
     body = BExpression (Some op) s e name options ->
     vstart op = operandStart src start /\ vend op <= s).
Proof.
  intros Hs. unfold parseBody, operandStart.
  set (p1 := start + 1 + whitespaces src (start + 1)).
  assert (H1 : start + 1 <= String.length src) by lia.
  pose proof (ws_in_bounds _ HL src _ H1) as Hp1. fold p1 in Hp1.
  pose proof (parseOperand_bounds HL src p1 errors Hp1) as Hop.
  destruct (parseOperand src p1 errors) as [[arg p2] es1] eqn:Harg.
  simpl in Hop.
  assert (Hp2 : p2 <= String.length src) by lia.
  pose proof (ws_in_bounds _ HL src _ Hp2) as Hw2.
  set (t := p2 + whitespaces src p2) in *.
  destruct (is_sigil src t) eqn:Es.
  - destruct (parseExpressionOrMarkup fuel src t arg es1) as [[b e]|] eqn:Hr;
      [|done].
    intros [= <- <- <- <-].
    pose proof Hr as Hform.
    apply parseExpressionOrMarkup_ordered in Hr as (Hst & Hord & Hlt & Hend);
      [|by apply is_sigil_lt].
    pose proof (ws_in_bounds _ HL src _ Hend).
    split_and!; try done; try lia.
    intros op s e' name options ->.
    unfold parseExpressionOrMarkup in Hform.
    destruct (parseOptions fuel src _ _ []) as [[[? ?] ?]|]; [|done].
    destruct (char_is src t ":");
      [|by destruct (char_is src t "+")].
    injection Hform as -> <- _ _ _ _.
    destruct (parseOperand_Some HE _ _ _ _ _ _ Harg) as [-> ->]. lia.
  - pose proof (ws_in_bounds _ HL src _ Hw2).
    destruct arg as [a|]; intros [= <- <- <- <-]; simpl.
    + destruct (parseOperand_Some HE _ _ _ _ _ _ Harg) as [-> ->].
      split_and!; try done; lia.
    + split_and!; try done; lia.
Qed.

(** The closing logic keeps the body, or lengthens the junk; the node ends
    at or after the body. *)
Lemma closePlaceholder_spans src start body pos errors junk :
  pos <= String.length src ->
  body_start body <= body_end body -> body_end body <= pos ->
  body_ordered body ->
  let r := closePlaceholder src start (body, pos, errors, junk) in
  body_start (pbody r.1) = body_start body /\
  body_start (pbody r.1) <= body_end (pbody r.1) /\
  body_end (pbody r.1) <= pend r.1 /\
  pend r.1 <= String.length src /\
  body_ordered (pbody r.1) /\
  (forall op s e name options,
     pbody r.1 = BExpression (Some op) s e name options ->
     body = BExpression (Some op) s e name options).
Proof.
  intros Hp Hse Hep Hord. unfold closePlaceholder.
  destruct (String.length src <=? pos) eqn:E1; [simpl; split_and!; done|].
  apply Nat.leb_gt in E1.
  destruct (char_is src pos "}"); simpl; [split_and!; try done; lia|].
  pose proof (skipToClose_bounds src pos (String.length src - pos) Hp).
  destruct body; simpl in *; split_and!; try done; lia.
Qed.

End Ordered.

(** X16.  The spans a node reports are nested and ordered.  The body lies
    inside the node, behind the opening brace.  Inside an expression or a
    markup start the name follows the sigil and the options follow the
    name one after the other, none of them empty, the last one ending at
    or before the end of the body; the operand of an expression ends at or
    before the sigil. *)
Theorem spans_are_nested_and_ordered
    {L : Lexer} (HL : LexerInBounds L) (HE : LexerErrorsLocal L)
    (fuel : nat) (src : string) (start : nat) (errors : list ParseError) :
  start < String.length src ->
  String.length src <= fuel ->
  exists node errors',
    parsePlaceholder fuel src start errors = Some (node, errors') /\
    pstart node = start /\
    start < body_start (pbody node) /\
    body_start (pbody node) <= body_end (pbody node) /\
    body_end (pbody node) <= pend node /\
    pend node <= String.length src /\
    body_ordered (pbody node) /\
    (forall op s e name options,
       pbody node = BExpression (Some op) s e name options ->
       vstart op = operandStart src start /\ vend op <= s).
Proof.
  intros Hs Hf.
  destruct (parseBody_bounds HL fuel src start errors Hs Hf)
    as (body & pos & es & junk & Hb & _).
  destruct (parseBody_spans HL HE _ _ _ _ _ _ _ _ Hs Hb)
    as (H1 & H2 & H3 & H4 & H5 & H6).
  unfold parsePlaceholder. rewrite Hb.
  pose proof (closePlaceholder_spans src start body pos es junk H4 H2 H3 H5)
    as Hc.
  assert (Hst : pstart (closePlaceholder src start (body, pos, es, junk)).1
                = start).
  { unfold closePlaceholder. destruct (_ <=? _); [done|].
    destruct (negb _); [|done]. by destruct body. }
  destruct (closePlaceholder src start (body, pos, es, junk)) as [node errors'].
  simpl in *. destruct Hc as (C1 & C2 & C3 & C4 & C5 & C6).
  exists node, errors'. split; [done|].
  split_and!; try done; try lia.
  intros op s e name options Hn. by apply (H6 op s e name options), C6.
Qed.

(** *** Options on a markup end *)
Section MarkupEnd.
Context {L : Lexer} (HL : LexerInBounds L) (HT : LexerTokens L).

Lemma last_default {A} (l : list A) (d d' : A) :
  l <> [] -> List.last l d = List.last l d'.
Proof.
  induction l as [|x [|y l] IH]; [done|done|]. intros _.
  change (List.last (y :: l) d = List.last (y :: l) d'). by apply IH.
Qed.

Lemma last_snoc {A} (l : list A) (x d : A) : List.last (l ++ [x]) d = x.
Proof.
  induction l as [|y l IH]; [done|].
  destruct l as [|z l]; [done|]. exact IH.
Qed.

(** On a run of well-formed options the loop returns them all; the first
    starts behind the whitespace, the last ends where the run ends. *)
Lemma parseOptions_run src p q n :
  options_at src p q n ->
  char_is src (q + whitespaces src q) "}" = true ->
  forall fuel errors options d,
    String.length src - p <= fuel ->
    oend (List.last options d) = p ->
    exists new,
      parseOptions fuel src p errors options = Some (q, errors, options ++ new)
      /\ length new = n
      /\ oend (List.last (options ++ new) d) = q
      /\ (forall o rest, new = o :: rest -> ostart o = p + whitespaces src p).
Proof.
  induction 1 as [q|p q r n Hw Ho Hrest IH];
    intros Hclose fuel errors options d Hf Hlast.
  - pose proof (char_is_lt _ _ _ Hclose) as Hlt.
    destruct fuel as [|fuel]; [lia|]. simpl.
    assert (E : (q <? String.length src) = true) by (apply Nat.ltb_lt; lia).
    rewrite E, Hclose. exists []. rewrite app_nil_r. by split_and!.
  - destruct (parseOption_ok HL src _ q errors Ho) as (opt & Hopt & Hend & Hq).
    pose proof (parseOption_ostart src (p + whitespaces src p) errors) as Hst.
    rewrite Hopt in Hst. simpl in Hst.
    destruct fuel as [|fuel]; [lia|]. simpl.
    assert (E : (p <? String.length src) = true) by (apply Nat.ltb_lt; lia).
    rewrite E.
    assert (Hnb : char_is src (p + whitespaces src p) "}" = false).
    { destruct (char_is src (p + whitespaces src p) "}") eqn:Eb; [|done].
      apply (name_not_brace _ HT) in Eb.
      destruct Ho as (p1 & [Hne _] & _). done. }
    rewrite Hnb.
    assert (Ew : (whitespaces src p =? 0) = false) by (apply Nat.eqb_neq; lia).
    rewrite Ew, Hopt.
    assert (Ee : (oend opt =? p + whitespaces src p) = false)
      by (apply Nat.eqb_neq; lia).
    rewrite Ee, Hend.
    destruct (IH Hclose fuel errors (options ++ [opt]) d)
      as (new & Hr & Hlen & Hl & _); [lia|by rewrite last_snoc|].
    exists (opt :: new). rewrite Hr.
    rewrite <- app_assoc in Hl. rewrite <- app_assoc.
    split_and!; [done|simpl; lia|done|].
    by intros o rest [= <- _].
Qed.

End MarkupEnd.

(** X17.  Options on a markup end are not part of the node.  For [-], a
    name and a run of one or more well-formed options closed by a brace,
    the node is a complete markup end that spans the whole run, and exactly
    one [extra-content] error is added, from the start of the first option
    to the end of the last. *)
Theorem markup_end_options_are_extra
    {L : Lexer} (HL : LexerInBounds L) (HT : LexerTokens L)
    (fuel : nat) (src : string) (start p1 q n : nat)
    (errors : list ParseError) :
  String.length src <= fuel ->
  parsedOperand src start = None ->
  char_is src (tailStart src start) "-" = true ->
  name_at src (tailStart src start + 1) p1 ->
  options_at src p1 q (S n) ->
  char_is src (q + whitespaces src q) "}" = true ->
  parsePlaceholder fuel src start errors =
  Some (mkPlaceholder start (q + whitespaces src q + 1)
          (BMarkupEnd (tailStart src start) q
             (parseNameValue src (tailStart src start + 1))),
        errors ++ [ExtraContent (p1 + whitespaces src p1) q]).
Proof.
  intros Hf Hop Hc Hn Ho Hclose.
  unfold parsePlaceholder, parseBody.
  unfold parsedOperand in Hop. unfold tailStart, operandStart in *.
  set (p0 := start + 1 + whitespaces src (start + 1)) in *.
  rewrite (parseOperand_None src p0 errors Hop).
  rewrite (parseOperand_None src p0 [] Hop) in *.
  cbn [fst snd] in *.
  set (t := p0 + whitespaces src p0) in *.
  assert (Hsig : is_sigil src t = true).
  { unfold is_sigil. by rewrite Hc, orb_true_r. }
  rewrite Hsig. unfold parseExpressionOrMarkup.
  destruct (name_at_length _ _ _ Hn) as [-> _].
  destruct Hn as [_ ->].
  set (d := mkOption 0 (t + 1 + String.length (parseNameValue src (t + 1)))
              "" (mkValue KNmtoken 0 0 "")).
  destruct (parseOptions_run HL HT src _ q (S n) Ho Hclose fuel errors [] d)
    as (new & -> & Hlen & Hl & Hfirst); [lia|done|].
  destruct new as [|o rest]; [done|]. cbn [app] in *.
  rewrite (char_is_other _ _ _ ":" Hc), (char_is_other _ _ _ "+" Hc) by done.
  cbv beta iota zeta delta [body_end].
  rewrite closePlaceholder_closed by done.
  rewrite (Hfirst o rest eq_refl).
  simpl in Hl. rewrite (last_default (o :: rest) o d) by done.
  simpl. by rewrite Hl.
Qed.

(** *** The theorems at concrete placeholders *)

Import RefLexer.

Lemma caller_errors_are_kept_witness :
  exists node pre added,
    (pre = [] \/
     exists op, parsedOperand "{$x +b c}" 0 = Some op /\
                pre = [ExtraContent (vstart op) (vend op)]) /\
    forall errors,
      parsePlaceholder 9 "{$x +b c}" 0 errors =
      Some (node, pre ++ errors ++ added).
Proof.
  apply (caller_errors_are_kept ref_lexer_in_bounds 9 "{$x +b c}" 0);
    simpl; lia.
Defined.

Lemma junk_and_its_error_share_a_span_witness :
  exists end_ e closing,
    parsePlaceholder 0 "{ ?! }" 0 [EmptyToken 0] =
    Some (mkPlaceholder 0 end_
            (BJunk 2 e (js_substring "{ ?! }" 2 (Nat.max e (2 + 1)))),
          [EmptyToken 0] ++ ParseErrorE 2 e :: closing) /\
    2 <= e <= end_ /\ end_ <= 6 /\
    (closing = [] \/ closing = [MissingChar "}" end_] /\ end_ = 6) /\
    (2 < e -> e = end_ /\ closing = []).
Proof.
  apply (junk_and_its_error_share_a_span ref_lexer_in_bounds 0 "{ ?! }" 0
           [EmptyToken 0]).
  - simpl; lia.
  - reflexivity.
  - reflexivity.
Defined.

Lemma content_after_operand_is_extra_witness :
  exists v e,
    parsePlaceholder 0 "{$foo bar}" 0 [] =
    Some (mkPlaceholder 0 e (BValue v), [] ++ [ExtraContent 6 e]) /\
    vend v = 5 /\
    6 < e <= 10 /\
    (e = 10 \/ char_is "{$foo bar}" e "}" = true) /\
    forall i, 6 <= i < e -> char_is "{$foo bar}" i "}" = false.
Proof.
  apply (content_after_operand_is_extra ref_lexer_in_bounds ref_lexer_tokens
           0 "{$foo bar}" 0 5 []).
  - right. split; [reflexivity|]. eexists. split; reflexivity.
  - reflexivity.
  - vm_compute; lia.
  - reflexivity.
Defined.

Lemma node_ends_at_a_brace_witness :
  exists node errors',
    parsePlaceholder 10 "{$foo bar}" 0 [] = Some (node, errors') /\
    (char_is "{$foo bar}" (pend node - 1) "}" = true \/
     char_is "{$foo bar}" (pend node) "}" = true \/
     pend node = 10).
Proof.
  apply (node_ends_at_a_brace ref_lexer_in_bounds 10 "{$foo bar}" 0 []);
    simpl; lia.
Defined.

Lemma spans_are_nested_and_ordered_witness :
  exists node errors',
    parsePlaceholder 15 "{$x :f a=b c=d}" 0 [] = Some (node, errors') /\
    pstart node = 0 /\
    0 < body_start (pbody node) /\
    body_start (pbody node) <= body_end (pbody node) /\
    body_end (pbody node) <= pend node /\
    pend node <= 15 /\
    body_ordered (pbody node) /\
    (forall op s e name options,
       pbody node = BExpression (Some op) s e name options ->
       vstart op = 1 /\ vend op <= s).
Proof.
  apply (spans_are_nested_and_ordered ref_lexer_in_bounds
           ref_lexer_errors_local 15 "{$x :f a=b c=d}" 0 []);
    simpl; lia.
Defined.

Lemma markup_end_options_are_extra_witness :
  parsePlaceholder 12 "{-b c=d e=f}" 0 [EmptyToken 0] =
  Some (mkPlaceholder 0 12 (BMarkupEnd 1 11 "b"),
        [EmptyToken 0] ++ [ExtraContent 4 11]).
Proof.
  apply (markup_end_options_are_extra ref_lexer_in_bounds ref_lexer_tokens
           12 "{-b c=d e=f}" 0 3 11 1 [EmptyToken 0]).
  - simpl; lia.
  - reflexivity.
  - reflexivity.
  - split; [done|reflexivity].
  - eapply (options_more _ 3 7 11 1); [vm_compute; lia| |].
    + exists 5. repeat split; [done|]. right. repeat split. by eexists.
    + eapply (options_more _ 7 11 11 0); [vm_compute; lia| |constructor].
      exists 9. repeat split; [done|]. right. repeat split. by eexists.
  - reflexivity.
Defined.

End ParserExtra.

(** * Properties of the message accessor *)

Module AccessorProps.
Import Accessor RefRegExp.

Section Lookup.
Context {P R : Type}.
Implicit Types (obj : MessageValue P R) (st : Messages P R).

Lemma get_path_app obj p q :
  truthy_m obj = true ->
  get_path obj (p ++ q) =
  if truthy_m (get_path obj p) then get_path (get_path obj p) q else MNull.
Proof.
  revert obj. induction p as [|k p IH]; intros obj Hobj; cbn [get_path app].
  - by rewrite Hobj.
  - destruct obj as [| | | |props]; try done.
    destruct (truthy_m (props k)) eqn:Hk; [by apply IH|done].
Qed.

Lemma get_name_path obj k :
  _get obj (KPath [k]) =
  if truthy_m (_get obj (KName k)) then _get obj (KName k) else MNull.
Proof.
  unfold _get. destruct (truthy_m obj); simpl; [|done].
  destruct obj as [| | | |props]; try done.
Qed.

Lemma has_fallback_name_path (data : string -> MessageValue P R) k fb type :
  has_fallback data (KPath [k]) fb type = has_fallback data (KName k) fb type.
Proof.
  induction fb as [|lc fb IH]; simpl; [done|].
  rewrite get_name_path.
  destruct (truthy_m (_get (data lc) (KName k))) eqn:Ht; [by rewrite Ht|].
  exact IH.
Qed.

Lemma get_fallback_name_path st k props fb :
  get_fallback st (KPath [k]) props fb =
  match get_fallback st (KName k) props fb with
  | NotFound _ => NotFound (KPath [k])
  | r => r
  end.
Proof.
  induction fb as [|lc fb IH]; simpl; [done|].
  rewrite get_name_path.
  destruct (truthy_m (_get (_data st lc) (KName k))) eqn:Ht.
  - rewrite Ht. by destruct (_get (_data st lc) (KName k)).
  - exact IH.
Qed.

(** What the loops of [get] and [_has] find is the same entry. *)
Lemma get_fallback_has st key props fb :
  match get_fallback st key props fb with
  | Called _ =>
    has_fallback (_data st) key fb "function" = true /\
    has_fallback (_data st) key fb "object" = false
  | Found v =>
    has_fallback (_data st) key fb "function" = false /\
    has_fallback (_data st) key fb "object" = String.eqb (typeof_m v) "object" /\
    truthy_m v = true
  | NotFound k =>
    k = key /\
    has_fallback (_data st) key fb "function" = false /\
    has_fallback (_data st) key fb "object" = false
  end.
Proof.
  induction fb as [|lc fb IH]; simpl; [done|].
  destruct (truthy_m (_get (_data st lc) key)) eqn:Ht; [|exact IH].
  by destruct (_get (_data st lc) key).
Qed.

End Lookup.

(** X22.  Key paths compose: looking up the path [p ++ q] is looking up [q]
    in what the path [p] leads to, and gives [null] as soon as a step of
    [p] finds nothing. *)
Theorem get_follows_paths_stepwise {P R : Type}
    (obj : MessageValue P R) (p q : list string) :
  _get (_get obj (KPath p)) (KPath q) = _get obj (KPath (p ++ q)).
Proof.
  unfold _get. destruct (truthy_m obj) eqn:Hobj; simpl; [|done].
  rewrite get_path_app by done.
  by destruct (truthy_m (get_path obj p)).
Qed.

(** X23.  A key given as a string and the key path of that one string find
    the same: [hasMessage] and [hasObject] answer the same for both, and
    [get] returns the same, except that a key that is not found is
    returned in the form it was given. *)
Theorem name_is_path_of_one {P R : Type}
    (st : Messages P R) (k : string) (props : P) (locale : option string)
    (fallback : bool) :
  hasMessage st (KPath [k]) locale fallback =
    hasMessage st (KName k) locale fallback /\
  hasObject st (KPath [k]) locale fallback =
    hasObject st (KName k) locale fallback /\
  get st (KPath [k]) props locale =
    match get st (KName k) props locale with
    | NotFound _ => NotFound (KPath [k])
    | r => r
    end.
Proof.
  unfold hasMessage, hasObject, get, _has.
  rewrite get_name_path.
  destruct (truthy_m (_get (_data st (or_current st locale)) (KName k)))
    eqn:Ht.
  - rewrite Ht. split_and!; try done.
    by destruct (_get (_data st (or_current st locale)) (KName k)).
  - simpl. rewrite get_fallback_name_path.
    destruct fallback; by rewrite ?has_fallback_name_path.
Qed.

(** X24.  [get], [hasMessage] and [hasObject] with fallback agree, because
    all three stop at the first locale of the chain that has an entry for
    the key: [get] calls a function exactly when [hasMessage] holds,
    returns an object exactly when [hasObject] holds, and returns the key
    only when neither holds; the two checks never hold together. *)
Theorem get_agrees_with_has {P R : Type}
    (st : Messages P R) (key : Key) (props : P) (locale : option string) :
  match get st key props locale with
  | Called _ =>
    hasMessage st key locale true = true /\
    hasObject st key locale true = false
  | Found v =>
    hasMessage st key locale true = false /\
    hasObject st key locale true = String.eqb (typeof_m v) "object" /\
    truthy_m v = true
  | NotFound k =>
    k = key /\
    hasMessage st key locale true = false /\
    hasObject st key locale true = false
  end.
Proof.
  unfold hasMessage, hasObject, get, _has.
  destruct (truthy_m (_get (_data st (or_current st locale)) key)) eqn:Ht.
  - by destruct (_get (_data st (or_current st locale)) key).
  - apply get_fallback_has.
Qed.

(** *** Truncating a locale *)
Section Truncation.
Context {P R : Type}.
Implicit Types (st : Messages P R).

Lemma string_app_assoc (a b c : string) :
  String.append (String.append a b) c = String.append a (String.append b c).
Proof.
  induction a as [|x a IH]; [done|].
  change (String x (String.append (String.append a b) c) =
          String x (String.append a (String.append b c))).
  by rewrite IH.
Qed.

Lemma string_app_length (a b : string) :
  String.length (String.append a b) = String.length a + String.length b.
Proof.
  induction a as [|x a IH]; [done|].
  change (S (String.length (String.append a b)) =
          S (String.length a) + String.length b).
  by rewrite IH.
Qed.

Lemma has_separator_app p c rest :
  is_separator c = true -> has_separator (String.append p (String c rest)) = true.
Proof.
  intros Hc. induction p as [|a p IH]; simpl; [by rewrite Hc|].
  by rewrite IH, orb_true_r.
Qed.

Lemma strip_last_cut p l :
  cut_of p l -> p = strip_last l \/ cut_of p (strip_last l).
Proof.
  intros (c & rest & -> & Hc).
  induction p as [|a p IH]; simpl.
  - destruct (has_separator rest); [right|by left].
    by exists c, (strip_last rest).
  - rewrite has_separator_app by done.
    destruct IH as [<-|(c' & rest' & -> & Hc')]; [by left|right].
    by exists c', rest'.
Qed.

Lemma strip_last_is_cut l :
  has_separator l = true -> cut_of (strip_last l) l.
Proof.
  induction l as [|a l IH]; [done|]. simpl.
  destruct (has_separator l) eqn:Hl.
  - intros _. destruct (IH eq_refl) as (c & rest & Heq & Hc).
    exists c, rest. split; [|done].
    change (String a l =
            String a (String.append (strip_last l) (String c rest))).
    by rewrite <- Heq.
  - rewrite orb_false_r. intros Ha. by exists a, l.
Qed.

Lemma cut_of_separator p l : cut_of p l -> has_separator l = true.
Proof. intros (c & rest & -> & Hc). by apply has_separator_app. Qed.

Lemma cut_of_length p l : cut_of p l -> String.length p < String.length l.
Proof.
  intros (c & rest & -> & _). rewrite string_app_length. simpl. lia.
Qed.

Lemma cut_of_trans r m l : cut_of r m -> cut_of m l -> cut_of r l.
Proof.
  intros (c & rest & -> & Hc) (c' & rest' & -> & _).
  exists c, (String.append rest (String c' rest')). split; [|done].
  by rewrite string_app_assoc.
Qed.

Lemma cut_of_nonempty p l : cut_of p l -> p <> "" -> strip_last l <> "".
Proof.
  intros Hcut Hp. destruct (strip_last_cut p l Hcut) as [<-|H]; [done|].
  apply cut_of_length in H. intros Hs. rewrite Hs in H. simpl in H. lia.
Qed.

(** The loop finds the longest cut that has data. *)
Lemma strip_loop_longest st fuel p l :
  cut_of p l -> p <> "" -> truthy_m (_data st p) = true ->
  String.length l <= fuel ->
  exists r,
    strip_loop fuel st l = Some (Some r) /\
    truthy_m (_data st r) = true /\
    (r = p \/ cut_of p r) /\ cut_of r l.
Proof.
  revert l. induction fuel as [|fuel IH]; intros l Hcut Hp Hdata Hf.
  { apply cut_of_length in Hcut. lia. }
  simpl.
  pose proof (cut_of_nonempty p l Hcut Hp) as Hne.
  apply String.eqb_neq in Hne. rewrite Hne.
  pose proof (strip_last_is_cut l (cut_of_separator _ _ Hcut)) as Hlast.
  destruct (truthy_m (_data st (strip_last l))) eqn:Ht.
  - exists (strip_last l). split_and!; try done.
    destruct (strip_last_cut p l Hcut) as [<-|H]; [by left|by right].
  - destruct (strip_last_cut p l Hcut) as [Heq|Hcut'].
    { rewrite <- Heq in Ht. congruence. }
    destruct (IH (strip_last l) Hcut' Hp Hdata) as (r & Hr & Hd & Hpr & Hrl).
    { apply cut_of_length in Hlast. lia. }
    exists r. split_and!; try done. by apply (cut_of_trans _ (strip_last l)).
Qed.

Lemma strip_last_shorter l :
  String.length (strip_last l) <= pred (String.length l).
Proof.
  induction l as [|a l IH]; [done|]. simpl.
  destruct (has_separator l) eqn:Hl; simpl; [|lia].
  destruct l; [done|]. simpl in *. lia.
Qed.

(** The loop ends: every turn shortens the locale. *)
Lemma strip_loop_terminates st fuel l :
  String.length l < fuel -> strip_loop fuel st l <> None.
Proof.
  revert l. induction fuel as [|fuel IH]; intros l Hf; [lia|]. simpl.
  destruct (String.eqb_spec (strip_last l) "") as [|Hne]; [done|].
  destruct (truthy_m (_data st (strip_last l))); [done|].
  apply IH. pose proof (strip_last_shorter l).
  destruct l; [done|]. simpl in *. lia.
Qed.

Lemma strip_loop_truthy st fuel l r :
  strip_loop fuel st l = Some (Some r) -> truthy_m (_data st r) = true.
Proof.
  revert l. induction fuel as [|fuel IH]; intros l; simpl; [done|].
  destruct (String.eqb (strip_last l) ""); [done|].
  destruct (truthy_m (_data st (strip_last l))) eqn:Ht; [|apply IH].
  by intros [= <-].
Qed.

End Truncation.

(** X25.  [resolveLocale] prefers the longest truncation.  For a locale
    that has no data itself but of which some non-empty part in front of a
    [-] or [_] has, it returns the longest such part that has data, and
    does not come to build the pattern. *)
Theorem resolveLocale_longest_truncation {P R : Type}
    (regexp : string -> option (string -> bool))
    (fuel : nat) (st : Messages P R) (l p : string) :
  cut_of p l -> p <> "" ->
  truthy_m (_data st p) = true ->
  truthy_m (_data st l) = false ->
  String.length l <= fuel ->
  exists r,
    resolveLocale regexp fuel st (Some l) = Resolved (Some r) /\
    truthy_m (_data st r) = true /\
    (r = p \/ cut_of p r) /\ cut_of r l.
Proof.
  intros Hcut Hp Hdata Hl Hf. unfold resolveLocale. cbn [js_String].
  rewrite Hl.
  assert (Hne : String.eqb l "" = false).
  { apply String.eqb_neq. intros ->. apply cut_of_length in Hcut.
    simpl in Hcut. lia. }
  rewrite Hne.
  destruct (strip_loop_longest st fuel p l Hcut Hp Hdata Hf)
    as (r & -> & Hr). by exists r.
Qed.

(** X26.  [resolveLocale] returns, or raises the error of [new RegExp];
    what it returns is a fixed point: when every available locale has data,
    resolving the result again gives the result. *)
Theorem resolveLocale_is_idempotent {P R : Type}
    (regexp : string -> option (string -> bool))
    (fuel : nat) (st : Messages P R) (locale : option string) :
  Forall (fun lc => truthy_m (_data st lc) = true) (availableLocales st) ->
  String.length (js_String locale) < fuel ->
  resolveLocale regexp fuel st locale = RegExpError \/
  exists r,
    resolveLocale regexp fuel st locale = Resolved r /\
    forall fuel', resolveLocale regexp fuel' st r = Resolved r.
Proof.
  intros Hall Hf.
  assert (Hnull : forall fuel',
            resolveLocale regexp fuel' st None = Resolved None).
  { intros fuel'. unfold resolveLocale. by destruct (truthy_m _). }
  assert (Hdata : forall x fuel', truthy_m (_data st x) = true ->
                  resolveLocale regexp fuel' st (Some x) = Resolved (Some x)).
  { intros x fuel' Hx. unfold resolveLocale. cbn [js_String]. by rewrite Hx. }
  unfold resolveLocale at 1 2.
  destruct (truthy_m (_data st (js_String locale))) eqn:Ht.
  { right. exists locale. split; [done|]. intros fuel'.
    unfold resolveLocale. by rewrite Ht. }
  destruct locale as [l|]; [|right; by exists None].
  destruct (String.eqb l ""); [right; by exists None|].
  pose proof (strip_loop_terminates st fuel (js_String (Some l)) Hf) as Hterm.
  destruct (strip_loop fuel st (js_String (Some l))) as [[found|]|] eqn:Hloop;
    [| |done].
  - right. exists (Some found). split; [done|]. intros fuel'.
    apply Hdata. by apply (strip_loop_truthy st fuel _ _ Hloop).
  - destruct (regexp _) as [test|]; [right|by left].
    destruct (List.find test (availableLocales st)) as [x|] eqn:Hfind;
      [|by exists None].
    exists (Some x). split; [done|]. intros fuel'.
    apply List.find_some in Hfind as [Hin _]. apply Hdata.
    rewrite Forall_forall in Hall. apply Hall. by apply list_elem_of_In.
Qed.

(** *** The theorems at a concrete accessor *)

Lemma resolveLocale_longest_truncation_witness :
  exists r,
    resolveLocale ref_regexp 11 sample (Some "en-US-posix") =
      Resolved (Some r) /\
    truthy_m (sample_data r) = true /\
    (r = "en" \/ cut_of "en" r) /\ cut_of r "en-US-posix".
Proof.
  apply (resolveLocale_longest_truncation ref_regexp 11 sample
           "en-US-posix" "en").
  - by exists "-"%char, "US-posix".
  - done.
  - reflexivity.
  - reflexivity.
  - simpl; lia.
Defined.

Lemma resolveLocale_is_idempotent_witness :
  resolveLocale ref_regexp 3 sample (Some "fi") = RegExpError \/
  exists r,
    resolveLocale ref_regexp 3 sample (Some "fi") = Resolved r /\
    forall fuel', resolveLocale ref_regexp fuel' sample r = Resolved r.
Proof.
  apply (resolveLocale_is_idempotent ref_regexp 3 sample (Some "fi")).
  - repeat constructor.
  - simpl; lia.
Defined.

(** The partial match of the witness: [fi] selects [fi-FI]. *)
Example resolveLocale_partial_match :
  resolveLocale ref_regexp 3 sample (Some "fi") = Resolved (Some "fi-FI") /\
  resolveLocale ref_regexp 6 sample (Some "en_GB") = Resolved (Some "en").
Proof. split; reflexivity. Qed.

End AccessorProps.

(** * Properties of the collection of select arguments *)

Module Mf1Props.
Import Resolve Mf1.

Section Collection.
Context {N : JSNumber}.

Lemma tokens_loop_fold (ts : list Token) (acc : list SelectArg) :
  (fix tokens_loop (ts : list Token) (acc : list SelectArg)
     : list SelectArg :=
     match ts with
     | [] => acc
     | t :: ts => tokens_loop ts (token_adds t acc)
     end) ts acc =
  fold_left (fun args t => token_adds t args) ts acc.
Proof. revert acc. induction ts as [|t ts IH]; intros acc; [done|apply IH]. Qed.

Lemma token_adds_select type arg pluralOffset cases args :
  token_adds (SelectToken type arg pluralOffset cases) args =
  fold_left (fun args c => fold_left add (findSelectArgs c.2) args) cases
    (add args (asSelectArg type arg pluralOffset cases)).
Proof.
  cbn [token_adds].
  generalize (add args (asSelectArg type arg pluralOffset cases)).
  induction cases as [|[k tokens] cases IH]; intros acc; [done|].
  cbn [fold_left snd]. rewrite tokens_loop_fold. apply IH.
Qed.

Lemma token_adds_fold t args :
  token_adds t args = fold_left add (token_added t) args.
Proof.
  destruct t as [| | | |type arg off cases]; try done.
  rewrite token_adds_select. cbn [token_added fold_left].
  generalize (add args (asSelectArg type arg off cases)).
  induction cases as [|c cases IH]; intros acc; [done|].
  cbn [fold_left flat_map]. by rewrite fold_left_app, IH.
Qed.

Lemma findSelectArgs_fold tokens :
  findSelectArgs tokens = fold_left add (flat_map token_added tokens) [].
Proof.
  unfold findSelectArgs. generalize (@nil SelectArg).
  induction tokens as [|t tokens IH]; intros acc; [done|].
  cbn [fold_left flat_map]. by rewrite fold_left_app, IH, token_adds_fold.
Qed.

(** *** No argument twice *)

Lemma add_Forall (Q : SelectArg -> Prop) args arg :
  (forall prev keys,
     Q prev ->
     Q (mkSelectArg (sa_type prev) (sa_arg prev) keys (sa_pluralOffset prev))) ->
  Q arg -> Forall Q args -> Forall Q (add args arg).
Proof.
  intros Hkeys Harg. induction 1 as [|prev rest Hprev Hrest IH]; simpl.
  - by constructor.
  - destruct (equalSelectArgs arg prev); constructor; auto.
Qed.

Lemma add_distinct args arg :
  distinct_args args -> distinct_args (add args arg).
Proof.
  induction args as [|prev rest IH]; simpl; [done|].
  intros [Hprev Hrest].
  destruct (equalSelectArgs arg prev) eqn:He; simpl.
  - split; [|done]. exact Hprev.
  - split; [|by apply IH]. by apply add_Forall.
Qed.

Lemma fold_add_distinct added args :
  distinct_args args -> distinct_args (fold_left add added args).
Proof.
  revert args. induction added as [|a added IH]; intros args Hd; [done|].
  simpl. by apply IH, add_distinct.
Qed.

(** *** No key lost *)

Lemma count_keys_add args arg :
  count_keys (add args arg) = count_keys args + length (sa_keys arg).
Proof.
  induction args as [|prev rest IH]; simpl; [lia|].
  destruct (equalSelectArgs arg prev); simpl.
  - rewrite length_app. lia.
  - rewrite IH. lia.
Qed.

Lemma count_keys_fold added args :
  count_keys (fold_left add added args) = count_keys args + count_keys added.
Proof.
  revert args. induction added as [|a added IH]; intros args; simpl; [lia|].
  rewrite IH, count_keys_add. lia.
Qed.

Lemma count_keys_app (l1 l2 : list SelectArg) :
  count_keys (l1 ++ l2) = count_keys l1 + count_keys l2.
Proof. induction l1 as [|a l1 IH]; simpl; [done|]. rewrite IH. lia. Qed.

Lemma count_keys_asSelectArg type arg off cases :
  length (sa_keys (asSelectArg type arg off cases)) = length cases.
Proof. unfold asSelectArg. simpl. by rewrite length_map. Qed.

(** Induction on tokens, with the tokens of the cases of a select. *)
Lemma Token_nested_ind (Q : Token -> Prop) :
  (forall value, Q (Content value)) ->
  (forall arg, Q (PlainArg arg)) ->
  (forall arg key param, Q (FunctionArg arg key param)) ->
  Q Octothorpe ->
  (forall type arg pluralOffset cases,
     Forall (fun c => Forall Q c.2) cases ->
     Q (SelectToken type arg pluralOffset cases)) ->
  forall t, Q t.
Proof.
  intros Hc Ha Hf Ho Hs.
  fix IH 1. intros [value|arg|arg key param| |type arg off cases];
    [apply Hc|apply Ha|apply Hf|apply Ho|].
  apply Hs. induction cases as [|[k tokens] cases IHc]; constructor; [|done].
  simpl. induction tokens as [|t tokens IHt]; constructor; [apply IH|done].
Qed.

Lemma token_cases_select type arg off cases :
  token_cases (SelectToken type arg off cases) =
  length cases +
  fold_right (fun c n => count_cases c.2 + n) 0 cases.
Proof.
  cbn [token_cases]. f_equal.
  induction cases as [|[k tokens] cases IH]; [done|].
  cbn [fold_right snd]. rewrite <- IH. by f_equal.
Qed.

Lemma count_keys_token_added t :
  count_keys (token_added t) = token_cases t.
Proof.
  induction t as [| | | |type arg off cases IH] using Token_nested_ind;
    try done.
  rewrite token_cases_select. cbn [token_added count_keys fold_right].
  rewrite count_keys_asSelectArg. f_equal.
  induction IH as [|[k tokens] cases Htokens _ IHc]; [done|].
  cbn [flat_map fold_right snd] in *.
  change (fold_right (fun arg n => length (sa_keys arg) + n) 0
            (findSelectArgs tokens ++
             flat_map (fun c => findSelectArgs c.2) cases))
    with (count_keys (findSelectArgs tokens ++
                      flat_map (fun c => findSelectArgs c.2) cases)).
  rewrite count_keys_app. f_equal; [|exact IHc].
  rewrite findSelectArgs_fold, count_keys_fold. simpl.
  clear -Htokens. unfold count_cases.
  induction Htokens as [|t tokens Ht _ IHt]; [done|].
  cbn [flat_map fold_right]. rewrite count_keys_app. by rewrite Ht, IHt.
Qed.

(** *** Every select has its argument *)

Lemma equalSelectArgs_refl arg :
  offset_eq (sa_pluralOffset arg) (sa_pluralOffset arg) = true ->
  equalSelectArgs arg arg = true.
Proof.
  intros Ho. unfold equalSelectArgs. rewrite String.eqb_refl, Ho.
  by destruct (sa_type arg).
Qed.

Lemma add_holds_new args arg :
  offset_eq (sa_pluralOffset arg) (sa_pluralOffset arg) = true ->
  exists entry, entry ∈ add args arg /\ holds_keys arg entry.
Proof.
  intros Ho. induction args as [|prev rest IH]; simpl.
  - exists arg. split; [by left|]. split; [by apply equalSelectArgs_refl|].
    exists [], []. by rewrite app_nil_r.
  - destruct (equalSelectArgs arg prev) eqn:He.
    + eexists. split; [by left|]. split; [exact He|].
      exists (sa_keys prev), []. simpl. by rewrite app_nil_r.
    + destruct IH as (entry & Hin & Hk). exists entry. split; [by right|done].
Qed.

Lemma add_holds_old args arg other entry :
  entry ∈ args -> holds_keys arg entry ->
  exists entry', entry' ∈ add args other /\ holds_keys arg entry'.
Proof.
  intros Hin [He (before & after & Hkeys)].
  induction args as [|prev rest IH]; [by apply elem_of_nil in Hin|]. simpl.
  apply elem_of_cons in Hin as [->|Hin].
  - destruct (equalSelectArgs other prev).
    + eexists. split; [by left|]. split; [exact He|].
      exists before, (after ++ sa_keys other). simpl.
      by rewrite Hkeys, <- !app_assoc.
    + exists prev. split; [by left|]. split; [done|by exists before, after].
  - destruct (equalSelectArgs other prev).
    + exists entry. split; [by right|]. split; [done|by exists before, after].
    + destruct (IH Hin) as (entry' & Hin' & Hk').
      exists entry'. split; [by right|done].
Qed.

Lemma fold_add_holds_old added args arg entry :
  entry ∈ args -> holds_keys arg entry ->
  exists entry', entry' ∈ fold_left add added args /\ holds_keys arg entry'.
Proof.
  revert args entry. induction added as [|a added IH]; intros args entry Hin Hk.
  - by exists entry.
  - simpl. destruct (add_holds_old args arg a entry Hin Hk) as (e' & Hin' & Hk').
    by apply (IH _ e').
Qed.

End Collection.

(** X27.  [findSelectArgs] lists every select argument once: no entry of
    the result equals, by [equalSelectArgs], an entry before it. *)
Theorem findSelectArgs_lists_each_argument_once {N : JSNumber}
    (tokens : list Token) :
  distinct_args (findSelectArgs tokens).
Proof. rewrite findSelectArgs_fold. by apply fold_add_distinct. Qed.

(** X28.  [findSelectArgs] loses no key and drops no duplicate: the entries
    of the result have, together, as many keys as the selects of the
    message, those inside cases included, have cases. *)
Theorem findSelectArgs_keeps_every_key {N : JSNumber} (tokens : list Token) :
  count_keys (findSelectArgs tokens) = count_cases tokens.
Proof.
  rewrite findSelectArgs_fold, count_keys_fold. simpl.
  unfold count_cases. induction tokens as [|t tokens IH]; [done|].
  cbn [flat_map fold_right]. rewrite count_keys_app.
  by rewrite count_keys_token_added, IH.
Qed.

(** X29.  Every select of the message has its entry: for a select among
    the tokens whose offset equals itself (it is not [NaN]), the result has
    an entry with its argument, offset and type, and the keys of its cases
    stand in the keys of that entry, together and in order. *)
Theorem findSelectArgs_has_every_select {N : JSNumber}
    (tokens : list Token) (type : SelectType) (arg : string)
    (pluralOffset : option number) (cases : list (string * list Token)) :
  SelectToken type arg pluralOffset cases ∈ tokens ->
  offset_eq pluralOffset pluralOffset = true ->
  exists entry,
    entry ∈ findSelectArgs tokens /\
    sa_arg entry = arg /\ sa_type entry = type /\
    offset_eq pluralOffset (sa_pluralOffset entry) = true /\
    exists before after,
      sa_keys entry =
      before ++ sa_keys (asSelectArg type arg pluralOffset cases) ++ after.
Proof.
  intros Hin Ho.
  apply list_elem_of_split in Hin as (l1 & l2 & ->).
  rewrite findSelectArgs_fold, flat_map_app. cbn [flat_map token_added].
  rewrite fold_left_app, <- app_comm_cons. cbn [fold_left].
  rewrite fold_left_app.
  destruct (add_holds_new (fold_left add (flat_map token_added l1) [])
              (asSelectArg type arg pluralOffset cases) Ho)
    as (e & He & Hk).
  destruct (fold_add_holds_old
              (flat_map (fun c => findSelectArgs c.2) cases) _ _ e He Hk)
    as (e1 & He1 & Hk1).
  destruct (fold_add_holds_old (flat_map token_added l2) _ _ e1 He1 Hk1)
    as (entry & Hentry & [Heq Hkeys]).
  exists entry. split; [done|].
  unfold equalSelectArgs in Heq. cbn [asSelectArg sa_arg sa_type sa_pluralOffset] in Heq.
  apply andb_true_iff in Heq as [Heq Ht].
  apply andb_true_iff in Heq as [Ha Hoff].
  apply String.eqb_eq in Ha.
  split_and!; try done.
  by destruct type, (sa_type entry).
Qed.

(** *** The theorem at a concrete message *)

Import RefRuntime RefMf1.

Lemma findSelectArgs_has_every_select_witness :
  exists entry,
    entry ∈ findSelectArgs sample_tokens /\
    sa_arg entry = "n" /\ sa_type entry = Plural /\
    offset_eq None (sa_pluralOffset entry) = true /\
    exists before after,
      sa_keys entry =
      before ++
      sa_keys (asSelectArg Plural "n" None [("one", []); ("few", [])]) ++
      after.
Proof.
  apply (findSelectArgs_has_every_select sample_tokens Plural "n" None
           [("one", []); ("few", [])]).
  - do 2 right. left.
  - reflexivity.
Defined.

(** The select arguments of the sample: [n] once, with the keys of both of
    its selects, and [g]. *)
Example findSelectArgs_sample :
  findSelectArgs sample_tokens =
  [mkSelectArg Plural "n"
     [KeyNumber (Some 0%Z); KeyString "one"; KeyString "other";
      KeyString "one"; KeyString "few"] None;
   mkSelectArg SelectT "g" [KeyString "f"; KeyString "other"] None].
Proof. reflexivity. Qed.

End Mf1Props.
